(** * ESP32 I2S square-wave MIDI synthesizer: model and properties

    A shallow embedding of [Synthesizer.cpp] (initialisation, voice pool,
    note control, audio render loop), of the MIDI player (song loading,
    event scheduler) and of the sketch ([setup] and [loop]), with the
    properties of the design stated and proved over it.

    Conventions.
    - C integers are [Z]; a narrowing store writes its wrap-around out
      ([wrap_int16], [wrap_uint16], [wrap_uint32]).
    - [float] is IEEE-754 binary32, taken from the standard library's
      [SpecFloat] at precision 24 and exponent bound 128 (round to nearest,
      ties to even).  [roundf] and the float/integer conversions are defined
      below; [powf] is the only libm function whose result is not fixed by
      IEEE-754 and is an operation of the class [Libm].
    - Every public operation of the synthesizer runs inside the voice mutex
      (taken with [portMAX_DELAY], so that taking it cannot fail), and each
      is one atomic function of the voice table.
    - What is printed on the serial port is returned as a list of messages.
    - [millis()] and the outcomes of the platform calls are inputs.

    Layout: the model ([F32], [Synthesizer], [MidiPlayer], [Sketch], a
    reference [powf], the notions of [Props]); general facts ([PoolFacts],
    [F32Facts], [PlayerFacts]); the properties of the design, numbered as in
    the specification ([PoolClaims], [MixClaims], [PlayerClaims],
    [TimingClaims], [FrequencyClaims]); and further properties of the code
    ([SynthesizerProps], [MidiPlayerProps]). *)

From Stdlib Require Import ZArith Lia List Bool Reals Lra.
From Stdlib Require Import Floats.SpecFloat.
From stdpp Require Import base list.

Open Scope Z_scope.

(** ** Fixed-width integers *)

Definition wrap_uint8 (z : Z) : Z := z mod 256.
Definition wrap_uint16 (z : Z) : Z := z mod 65536.
Definition wrap_uint32 (z : Z) : Z := z mod 4294967296.
Definition wrap_int16 (z : Z) : Z := (z + 32768) mod 65536 - 32768.

Definition in_int16 (z : Z) : Prop := -32768 <= z <= 32767.
Definition in_uint16 (z : Z) : Prop := 0 <= z <= 65535.

(** Arduino's [constrain(amt, low, high)] macro. *)
Definition constrain (amt low high : Z) : Z :=
  if amt <? low then low else if amt >? high then high else amt.

(** ** binary32 arithmetic *)

Module F32.

Definition prec : Z := 24.
Definition emax : Z := 128.

Definition f32 : Type := spec_float.

Definition div : f32 -> f32 -> f32 := SFdiv prec emax.
Definition mul : f32 -> f32 -> f32 := SFmul prec emax.
Definition leb : f32 -> f32 -> bool := SFleb.
Definition ltb : f32 -> f32 -> bool := SFltb.

(** [(float) z] for an integer [z]. *)
Definition of_Z (z : Z) : f32 := binary_normalize prec emax z 0 false.

Definition zero : f32 := S754_zero false.
Definition one : f32 := of_Z 1.

(** C's [roundf]: to the nearest integer, halfway cases away from zero;
    zeros, infinities and NaN are returned as they are, and the sign of a
    value that rounds to zero is kept. *)
Definition roundf (x : f32) : f32 :=
  match x with
  | S754_finite s m e =>
      if 0 <=? e then x
      else
        let d := 2 ^ (- e) in
        let q := Z.pos m / d in
        let r := Z.pos m mod d in
        let q' := if d <=? 2 * r then q + 1 else q in
        if q' =? 0 then S754_zero s
        else binary_normalize prec emax (cond_Zopp s q') 0 s
  | _ => x
  end.

(** The integer part of a float (truncation toward zero), as a C
    conversion to an integer type computes it before narrowing.  The
    conversion of a NaN, an infinity or a value outside the target type is
    undefined in C; the model returns 0 for the first two and wraps the
    third, and no property below rests on that choice. *)
Definition to_Z (x : f32) : Z :=
  match x with
  | S754_finite s m e =>
      cond_Zopp s (if 0 <=? e then Z.pos m * 2 ^ e else Z.pos m / 2 ^ (- e))
  | _ => 0
  end.

Definition to_int16 (x : f32) : Z := wrap_int16 (to_Z x).
Definition to_uint16 (x : f32) : Z := wrap_uint16 (to_Z x).
Definition to_uint32 (x : f32) : Z := wrap_uint32 (to_Z x).

(** The real number a float denotes (0 for infinities and NaN). *)
Definition F2R (x : f32) : R :=
  match x with
  | S754_finite s m e => (IZR (cond_Zopp s (Z.pos m)) * powerRZ 2 e)%R
  | _ => 0%R
  end.

Definition is_finite (x : f32) : bool :=
  match x with
  | S754_finite _ _ _ | S754_zero _ => true
  | _ => false
  end.

(** Powers of two, as reals. *)
Definition bpow (e : Z) : R := powerRZ 2 e.

(** [inbetween m l t]: the real [t] lies in [[m, m+1)] at the place the
    location [l] names (on [m], below, at or above the midpoint). *)
Definition inbetween (m : Z) (l : location) (t : R) : Prop :=
  match l with
  | loc_Exact => t = IZR m
  | loc_Inexact Lt => (IZR m < t < IZR m + / 2)%R
  | loc_Inexact Eq => t = (IZR m + / 2)%R
  | loc_Inexact Gt => (IZR m + / 2 < t < IZR m + 1)%R
  end.

End F32.

Abbreviation f32 := F32.f32.

(** The part of the C math library whose results IEEE-754 does not fix. *)
Class Libm := { powf : f32 -> f32 -> f32 }.

(** ** What the firmware prints on the serial port *)

Inductive SerialMsg : Type :=
  | WarnCannotStartNote (noteNumber : Z) (frequency : f32) (amp wl : Z)
  | WarnNoFreeVoices
  | ErrInvalidSongInfoAddress
  | ErrInvalidSongData
  | SongInfoLoaded (eventCount : Z) (bpm millisPerTick : f32) (dataAddress : Z)
  | ErrCannotStartPlayback
  | MsgStartingPlayback
  | MsgStoppingPlayback
  | MsgPlaybackFinished
  | ErrTicksPerQuarterNoteZero.

(** ** Synthesizer.h / Synthesizer.cpp *)

Module Synthesizer.

Definition SYNTH_SAMPLE_RATE : Z := 44100.
Definition SYNTH_MAX_VOICES : nat := 8.
Definition SYNTH_MAX_NOTE_AMPLITUDE : Z := 16000.
Definition SYNTH_MAX_OUTPUT_AMPLITUDE : Z := 32767.
Definition SYNTH_MIN_OUTPUT_AMPLITUDE : Z := -32768.
Definition SYNTH_SILENCE_AMPLITUDE : Z := 0.

Record VoiceState : Type := mkVoiceState {
  isActive : bool;
  midiNoteNumber : Z;            (* int *)
  frequency : f32;               (* float *)
  targetAmplitude : Z;           (* int16_t *)
  currentOutput : Z;             (* int16_t *)
  wavelength : Z;                (* uint16_t *)
  timeAtLevelRemaining : Z       (* uint16_t *)
}.

(** The in-class initialisers of [struct VoiceState]. *)
Definition VoiceState_default : VoiceState :=
  mkVoiceState false 0 F32.zero 0 0 0 0.

Definition set_isActive (b : bool) (v : VoiceState) : VoiceState :=
  mkVoiceState b (midiNoteNumber v) (frequency v) (targetAmplitude v)
               (currentOutput v) (wavelength v) (timeAtLevelRemaining v).
Definition set_midiNoteNumber (n : Z) (v : VoiceState) : VoiceState :=
  mkVoiceState (isActive v) n (frequency v) (targetAmplitude v)
               (currentOutput v) (wavelength v) (timeAtLevelRemaining v).
Definition set_frequency (f : f32) (v : VoiceState) : VoiceState :=
  mkVoiceState (isActive v) (midiNoteNumber v) f (targetAmplitude v)
               (currentOutput v) (wavelength v) (timeAtLevelRemaining v).
Definition set_targetAmplitude (a : Z) (v : VoiceState) : VoiceState :=
  mkVoiceState (isActive v) (midiNoteNumber v) (frequency v) a
               (currentOutput v) (wavelength v) (timeAtLevelRemaining v).
Definition set_currentOutput (o : Z) (v : VoiceState) : VoiceState :=
  mkVoiceState (isActive v) (midiNoteNumber v) (frequency v)
               (targetAmplitude v) o (wavelength v) (timeAtLevelRemaining v).
Definition set_wavelength (w : Z) (v : VoiceState) : VoiceState :=
  mkVoiceState (isActive v) (midiNoteNumber v) (frequency v)
               (targetAmplitude v) (currentOutput v) w (timeAtLevelRemaining v).
Definition set_timeAtLevelRemaining (t : Z) (v : VoiceState) : VoiceState :=
  mkVoiceState (isActive v) (midiNoteNumber v) (frequency v)
               (targetAmplitude v) (currentOutput v) (wavelength v) t.

(** The fields hold values of their C types. *)
Definition wf_voice (v : VoiceState) : Prop :=
  in_int16 (targetAmplitude v) /\ in_int16 (currentOutput v) /\
  in_uint16 (wavelength v) /\ in_uint16 (timeAtLevelRemaining v).

(** [VoiceState voices[SYNTH_MAX_VOICES]]: the table is a list, slot [i]
    is [voices !! i], and a table of the synthesizer has
    [SYNTH_MAX_VOICES] slots. *)
Definition wf_pool (voices : list VoiceState) : Prop :=
  length voices = SYNTH_MAX_VOICES.

(** Step 2 of [Synthesizer::init]: every slot is marked inactive, the other
    fields are left as they are. *)
Definition init_voices (voices : list VoiceState) : list VoiceState :=
  set_isActive false <$> voices.

(** The table of a freshly constructed and initialised synthesizer. *)
Definition initial_voices : list VoiceState :=
  init_voices (replicate SYNTH_MAX_VOICES VoiceState_default).

(** What [Synthesizer::init] gets from the platform: whether the mutex
    could be created, the I2S driver installed, the pins set and the audio
    task created (the result of each call, were it made). *)
Record Platform : Type := mkPlatform {
  mutex_created : bool;       (* xSemaphoreCreateMutex() != NULL *)
  driver_installed : bool;    (* i2s_driver_install(...) == ESP_OK *)
  pins_set : bool;            (* i2s_set_pin(...) == ESP_OK *)
  task_created : bool         (* xTaskCreatePinnedToCore(...) == pdPASS *)
}.

(** The lines [Synthesizer::init] prints. *)
Inductive InitMsg : Type :=
  | MsgSynthInitializing
  | ErrCreateMutex
  | MsgMutexCreated
  | MsgVoicesInitialized
  | ErrInstallDriver
  | ErrSetPins
  | MsgDriverConfigured
  | ErrCreateTask
  | MsgTaskCreated
  | MsgInitComplete.

(** [Synthesizer::init]: the four steps in order, each failure returning
    [false] at once.  The audio task runs after the call exactly when the
    result is [true]. *)
Definition init (platform : Platform) (voices : list VoiceState)
    : bool * list VoiceState * list InitMsg :=
  let msgs := [MsgSynthInitializing] in
  if negb (mutex_created platform) then (false, voices, msgs ++ [ErrCreateMutex])
  else
    let msgs := msgs ++ [MsgMutexCreated] in
    let voices := init_voices voices in
    let msgs := msgs ++ [MsgVoicesInitialized] in
    if negb (driver_installed platform) then
      (false, voices, msgs ++ [ErrInstallDriver])
    else if negb (pins_set platform) then
      (false, voices, msgs ++ [ErrSetPins])
    else
      let msgs := msgs ++ [MsgDriverConfigured] in
      if negb (task_created platform) then
        (false, voices, msgs ++ [ErrCreateTask])
      else (true, voices, msgs ++ [MsgTaskCreated; MsgInitComplete]).

(** *** Private helpers *)

Section Helpers.
Context {libm : Libm}.

Definition midiNoteToFrequency (midiNote : Z) : f32 :=
  if midiNote <=? 0 then F32.zero
  else F32.mul (F32.of_Z 440)
               (powf (F32.of_Z 2)
                     (F32.div (F32.of_Z (midiNote - 69)) (F32.of_Z 12))).

Definition velocityToAmplitude (velocity : Z) : Z :=
  let velocity := constrain velocity 0 127 in
  let amp_f := F32.mul (F32.div (F32.of_Z velocity) (F32.of_Z 127))
                       (F32.of_Z SYNTH_MAX_NOTE_AMPLITUDE) in
  F32.to_int16 (F32.roundf amp_f).

Definition calculate_wavelength (frequency : f32) : Z :=
  if F32.leb frequency F32.zero then 0
  else
    let samples_per_half_cycle_f :=
      F32.div (F32.of_Z SYNTH_SAMPLE_RATE) (F32.mul frequency (F32.of_Z 2)) in
    let wavelength := F32.to_uint16 (F32.roundf samples_per_half_cycle_f) in
    if wavelength <? 1 then 1 else wavelength.
End Helpers.

(** The index loops that return the first matching slot, or -1 ([None]). *)
Definition findFreeVoice_unsafe (voices : list VoiceState) : option nat :=
  fst <$> list_find (fun v => isActive v = false) voices.

Definition findVoicePlayingNote_unsafe (midiNoteNumber' : Z)
    (voices : list VoiceState) : option nat :=
  fst <$> list_find
    (fun v => isActive v = true /\ midiNoteNumber v = midiNoteNumber') voices.

(** *** Note control *)

Section NoteControl.
Context {libm : Libm}.

(** The assignments [startNote] makes to the slot it has claimed, from
    [isActive = true] to the end of the validity test. *)
Definition claimVoice (noteNumber velocity : Z) (voice : VoiceState)
    : VoiceState * list SerialMsg :=
  let voice := set_isActive true voice in
  let voice := set_midiNoteNumber noteNumber voice in
  let voice := set_frequency (midiNoteToFrequency noteNumber) voice in
  let voice := set_targetAmplitude (velocityToAmplitude velocity) voice in
  let voice := set_wavelength (calculate_wavelength (frequency voice)) voice in
  if (0 <? wavelength voice) && negb (targetAmplitude voice =? 0) then
    let voice := set_currentOutput (targetAmplitude voice) voice in
    let voice := set_timeAtLevelRemaining (wavelength voice) voice in
    (voice, [])
  else
    let voice := set_isActive false voice in
    (voice, [WarnCannotStartNote noteNumber (frequency voice)
                                 (targetAmplitude voice) (wavelength voice)]).

(** The first statement of [startNote]: stop the voice that plays the
    note already, if there is one. *)
Definition stopExisting (noteNumber : Z) (voices : list VoiceState)
    : list VoiceState :=
  match findVoicePlayingNote_unsafe noteNumber voices with
  | Some existingVoiceIndex =>
      alter (set_isActive false) existingVoiceIndex voices
  | None => voices
  end.

Definition startNote (noteNumber velocity : Z) (voices : list VoiceState)
    : list VoiceState * list SerialMsg :=
  let voices := stopExisting noteNumber voices in
  match findFreeVoice_unsafe voices with
  | Some voiceIndex =>
      match voices !! voiceIndex with
      | Some voice =>
          let '(voice', msgs) := claimVoice noteNumber velocity voice in
          (<[voiceIndex := voice']> voices, msgs)
      | None => (voices, [])
      end
  | None => (voices, [WarnNoFreeVoices])
  end.

Definition stopNote (noteNumber : Z) (voices : list VoiceState)
    : list VoiceState :=
  match findVoicePlayingNote_unsafe noteNumber voices with
  | Some voiceIndex =>
      alter (fun voice => set_currentOutput 0 (set_isActive false voice))
            voiceIndex voices
  | None => voices
  end.
End NoteControl.

(** *** The audio task *)

(** The square-wave update of one active voice in the render loop. *)
Definition advanceVoice (voice : VoiceState) : VoiceState :=
  let voice :=
    if timeAtLevelRemaining voice =? 0 then
      let voice :=
        set_currentOutput
          (if currentOutput voice =? targetAmplitude voice
           then wrap_int16 (- targetAmplitude voice)
           else targetAmplitude voice) voice in
      set_timeAtLevelRemaining (wavelength voice) voice
    else voice in
  if 0 <? timeAtLevelRemaining voice then
    set_timeAtLevelRemaining (timeAtLevelRemaining voice - 1) voice
  else voice.

(** The [for] loop under the mutex: one pass over the table that advances
    the active voices and threads [summedSample_raw] and
    [activeVoiceCount].  (At most [SYNTH_MAX_VOICES] 16-bit values are
    added, so the 32-bit sum cannot overflow.) *)
Fixpoint renderVoices (voices : list VoiceState)
    (summedSample_raw activeVoiceCount : Z) : list VoiceState * Z * Z :=
  match voices with
  | [] => ([], summedSample_raw, activeVoiceCount)
  | voice :: rest =>
      if isActive voice then
        let activeVoiceCount := activeVoiceCount + 1 in
        let voice := advanceVoice voice in
        let summedSample_raw := summedSample_raw + currentOutput voice in
        let '(rest', s, c) := renderVoices rest summedSample_raw activeVoiceCount in
        (voice :: rest', s, c)
      else
        let '(rest', s, c) := renderVoices rest summedSample_raw activeVoiceCount in
        (voice :: rest', s, c)
  end.

(** Mix, scale, clamp. *)
Definition mixSample (summedSample_raw activeVoiceCount : Z) : Z :=
  if 0 <? activeVoiceCount then
    let mixedSample_f :=
      F32.div (F32.of_Z summedSample_raw) (F32.of_Z activeVoiceCount) in
    if F32.ltb (F32.of_Z SYNTH_MAX_OUTPUT_AMPLITUDE) mixedSample_f
    then SYNTH_MAX_OUTPUT_AMPLITUDE
    else if F32.ltb mixedSample_f (F32.of_Z SYNTH_MIN_OUTPUT_AMPLITUDE)
    then SYNTH_MIN_OUTPUT_AMPLITUDE
    else F32.to_int16 (F32.roundf mixedSample_f)
  else SYNTH_SILENCE_AMPLITUDE.

(** The 32-bit word [send_sample_to_i2s] writes: the sample on both
    channels. *)
Definition i2s_word (sample_value : Z) : Z :=
  Z.lor (Z.shiftl (Z.land sample_value 65535) 16) (Z.land sample_value 65535).

(** One iteration of the [while (true)] loop of [audioTaskRunner]: the new
    table and [finalSample], the sample handed to [send_sample_to_i2s]. *)
Definition audioTaskIteration (voices : list VoiceState)
    : list VoiceState * Z :=
  let '(voices', summedSample_raw, activeVoiceCount) := renderVoices voices 0 0 in
  (voices', mixSample summedSample_raw activeVoiceCount).

(** [n] iterations of the loop and the samples they emit, oldest first. *)
Fixpoint audioTaskRunner (n : nat) (voices : list VoiceState)
    : list VoiceState * list Z :=
  match n with
  | O => (voices, [])
  | S n' =>
      let '(voices', sample) := audioTaskIteration voices in
      let '(voices'', samples) := audioTaskRunner n' voices' in
      (voices'', sample :: samples)
  end.

End Synthesizer.

(** ** MidiPlayer.h / MidiPlayer.cpp *)

Module MidiPlayer.

Import Synthesizer.

Definition BYTES_PER_EVENT : Z := 6.
Definition TICKS_PER_QUARTER_NOTE : Z := 96.

(** Modelled from the spec: [SongData.h] is not among the sources.
    [struct SongInfo] is the flash-resident song record of the design
    (base address of the event array, 16-bit event count, tempo in beats per
    minute), with the field names [loadSong] reads. *)
Record SongInfo : Type := mkSongInfo {
  midi_data_ptr : Z;    (* const uint8_t*, 0 is nullptr *)
  event_count : Z;      (* uint16_t *)
  bpm : f32             (* float *)
}.

(** Program memory: the byte stored at each address. *)
Definition Flash : Type := Z -> Z.

Definition pgm_read_byte_near (flash : Flash) (address : Z) : Z :=
  wrap_uint8 (flash address).

(** Flash that holds [bytes] from address [base] on, and 0 elsewhere. *)
Definition flash_of_bytes (base : Z) (bytes : list Z) : Flash :=
  fun address =>
    if address <? base then 0
    else nth (Z.to_nat (address - base)) bytes 0.

Record MidiPlayer : Type := mkMidiPlayer {
  synth : bool;                   (* Synthesizer*: false is nullptr *)
  current_song_data_ptr : Z;      (* const uint8_t*, 0 is nullptr *)
  current_event_count : Z;        (* uint16_t *)
  current_bpm : f32;
  is_playing : bool;
  current_event_index : Z;        (* uint16_t *)
  next_event_time_ms : Z;         (* unsigned long, 32 bits on the ESP32 *)
  millis_per_tick : f32
}.

(** The constructor. *)
Definition MidiPlayer_new : MidiPlayer :=
  mkMidiPlayer false 0 0 F32.zero false 0 0 F32.zero.

Definition set_synth (b : bool) (p : MidiPlayer) : MidiPlayer :=
  mkMidiPlayer b (current_song_data_ptr p) (current_event_count p)
    (current_bpm p) (is_playing p) (current_event_index p)
    (next_event_time_ms p) (millis_per_tick p).
Definition set_current_song_data_ptr (a : Z) (p : MidiPlayer) : MidiPlayer :=
  mkMidiPlayer (synth p) a (current_event_count p)
    (current_bpm p) (is_playing p) (current_event_index p)
    (next_event_time_ms p) (millis_per_tick p).
Definition set_current_event_count (n : Z) (p : MidiPlayer) : MidiPlayer :=
  mkMidiPlayer (synth p) (current_song_data_ptr p) n
    (current_bpm p) (is_playing p) (current_event_index p)
    (next_event_time_ms p) (millis_per_tick p).
Definition set_current_bpm (b : f32) (p : MidiPlayer) : MidiPlayer :=
  mkMidiPlayer (synth p) (current_song_data_ptr p) (current_event_count p)
    b (is_playing p) (current_event_index p)
    (next_event_time_ms p) (millis_per_tick p).
Definition set_is_playing (b : bool) (p : MidiPlayer) : MidiPlayer :=
  mkMidiPlayer (synth p) (current_song_data_ptr p) (current_event_count p)
    (current_bpm p) b (current_event_index p)
    (next_event_time_ms p) (millis_per_tick p).
Definition set_current_event_index (i : Z) (p : MidiPlayer) : MidiPlayer :=
  mkMidiPlayer (synth p) (current_song_data_ptr p) (current_event_count p)
    (current_bpm p) (is_playing p) i
    (next_event_time_ms p) (millis_per_tick p).
Definition set_next_event_time_ms (t : Z) (p : MidiPlayer) : MidiPlayer :=
  mkMidiPlayer (synth p) (current_song_data_ptr p) (current_event_count p)
    (current_bpm p) (is_playing p) (current_event_index p)
    t (millis_per_tick p).
Definition set_millis_per_tick (m : f32) (p : MidiPlayer) : MidiPlayer :=
  mkMidiPlayer (synth p) (current_song_data_ptr p) (current_event_count p)
    (current_bpm p) (is_playing p) (current_event_index p)
    (next_event_time_ms p) m.

Definition init (p : MidiPlayer) : MidiPlayer :=
  set_is_playing false (set_synth true p).

(** *** Private helpers *)

Definition calculateTimingFactors (bpm : f32) (p : MidiPlayer)
    : MidiPlayer * list SerialMsg :=
  let bpm := if F32.leb bpm F32.zero then F32.of_Z 120 else bpm in
  let microseconds_per_quarter_note := F32.div (F32.of_Z 60000000) bpm in
  if 0 <? TICKS_PER_QUARTER_NOTE then
    (set_millis_per_tick
       (F32.div (F32.div microseconds_per_quarter_note (F32.of_Z 1000))
                (F32.of_Z TICKS_PER_QUARTER_NOTE)) p, [])
  else
    (set_millis_per_tick F32.zero p, [ErrTicksPerQuarterNoteZero]).

Definition convertTicksToMillis (ticks : Z) (p : MidiPlayer) : Z :=
  F32.to_uint32 (F32.roundf (F32.mul (F32.of_Z ticks) (millis_per_tick p))).

Definition pgm_read_uint16_big_endian (flash : Flash) (flash_address : Z) : Z :=
  let highByte := pgm_read_byte_near flash flash_address in
  let lowByte := pgm_read_byte_near flash (flash_address + 1) in
  wrap_uint16 (Z.lor (Z.shiftl highByte 8) lowByte).

(** *** Public interface *)

(** [song_info_progmem_addr] is [None] for a null pointer and otherwise
    the record stored at the address. *)
Definition loadSong (song_info_progmem_addr : option SongInfo)
    (p : MidiPlayer) : bool * MidiPlayer * list SerialMsg :=
  match song_info_progmem_addr with
  | None => (false, p, [ErrInvalidSongInfoAddress])
  | Some song_info =>
      let p := set_current_song_data_ptr (midi_data_ptr song_info) p in
      let p := set_current_event_count (wrap_uint16 (event_count song_info)) p in
      let p := set_current_bpm (bpm song_info) p in
      if (current_song_data_ptr p =? 0) || (current_event_count p =? 0) then
        let p := set_current_song_data_ptr 0 p in
        let p := set_current_event_count 0 p in
        (false, p, [ErrInvalidSongData])
      else
        let '(p, msgs) := calculateTimingFactors (current_bpm p) p in
        let msgs := msgs ++ [SongInfoLoaded (current_event_count p)
                               (current_bpm p) (millis_per_tick p)
                               (current_song_data_ptr p)] in
        let p := set_is_playing false p in
        let p := set_current_event_index 0 p in
        let p := set_next_event_time_ms 0 p in
        (true, p, msgs)
  end.

(** [millis] is the value [millis()] returns in the call. *)
Definition start (millis : Z) (flash : Flash) (p : MidiPlayer)
    : MidiPlayer * list SerialMsg :=
  if is_playing p then (p, [])
  else if (current_event_count p =? 0) || (current_song_data_ptr p =? 0) then
    (p, [ErrCannotStartPlayback])
  else
    let p := set_current_event_index 0 p in
    let p := set_is_playing true p in
    let delta_ticks := pgm_read_uint16_big_endian flash (current_song_data_ptr p) in
    let delta_ms := convertTicksToMillis delta_ticks p in
    (set_next_event_time_ms (wrap_uint32 (millis + delta_ms)) p,
     [MsgStartingPlayback]).

Definition stop (p : MidiPlayer) : MidiPlayer * list SerialMsg :=
  if negb (is_playing p) then (p, [])
  else (set_is_playing false p, [MsgStoppingPlayback]).

Section Playback.
Context {libm : Libm}.

(** The player calls the synthesizer through its [synth] pointer; the
    synthesizer's voice table is passed in and out. *)
Definition processCurrentEvent (flash : Flash) (p : MidiPlayer)
    (voices : list VoiceState) : list VoiceState * list SerialMsg :=
  if negb (synth p) then (voices, [])
  else
    let current_event_address :=
      current_song_data_ptr p + current_event_index p * BYTES_PER_EVENT in
    let event_type := pgm_read_byte_near flash (current_event_address + 2) in
    let note_number := pgm_read_byte_near flash (current_event_address + 3) in
    let velocity := pgm_read_byte_near flash (current_event_address + 4) in
    if event_type =? 1 then
      if 0 <? velocity then startNote note_number velocity voices
      else (stopNote note_number voices, [])
    else if event_type =? 0 then (stopNote note_number voices, [])
    else (voices, []).

Definition scheduleNextEvent (current_processing_time_ms : Z)
    (flash : Flash) (p : MidiPlayer) : MidiPlayer :=
  if current_event_index p <? current_event_count p then
    let next_event_address :=
      current_song_data_ptr p + current_event_index p * BYTES_PER_EVENT in
    let next_delta_ticks := pgm_read_uint16_big_endian flash next_event_address in
    let next_delta_ms := convertTicksToMillis next_delta_ticks p in
    set_next_event_time_ms
      (wrap_uint32 (current_processing_time_ms + next_delta_ms)) p
  else p.

Definition update (millis : Z) (flash : Flash) (p : MidiPlayer)
    (voices : list VoiceState)
    : bool * MidiPlayer * list VoiceState * list SerialMsg :=
  if negb (is_playing p) then (false, p, voices, [])
  else
    let current_time_ms := millis in
    if next_event_time_ms p <=? current_time_ms then
      if current_event_count p <=? current_event_index p then
        (false, set_is_playing false p, voices, [MsgPlaybackFinished])
      else
        let '(voices, msgs) := processCurrentEvent flash p voices in
        let p := set_current_event_index
                   (wrap_uint16 (current_event_index p + 1)) p in
        let p := scheduleNextEvent current_time_ms flash p in
        (is_playing p, p, voices, msgs)
    else (is_playing p, p, voices, []).
End Playback.

End MidiPlayer.

(** ** ESP32_I2S_SquareWave_Midi_Synth.ino *)

Module Sketch.

Import Synthesizer MidiPlayer.

(** The global objects [synth] and [player]: the voice table of the one and
    the fields of the other. *)
Record Globals : Type := mkGlobals {
  voices : list VoiceState;
  player : MidiPlayer
}.

(** What [setup] prints itself. *)
Inductive SketchMsg : Type :=
  | MsgBanner
  | FatalSynthInit
  | MsgSynthInitialized
  | MsgPlayerInitialized
  | ErrSongCountZero
  | MsgSongSelected (songCount selected : nat)
  | FatalLoadSong
  | MsgSetupComplete
  | MsgPlaybackComplete.

(** [setup].  [song_list] is the table of [SongData.h], which is not among
    the sources: it is a parameter, [SONG_COUNT] is its length, and
    [selected_song_index] is the value [random(SONG_COUNT)] returned.
    [millis] is the clock when [player.start()] runs.  The result is [None]
    when [setup] ends in one of its [while (true)] halts. *)
Definition setup (platform : Platform) (song_list : list SongInfo)
    (selected_song_index : nat) (millis : Z) (flash : Flash) (g : Globals)
    : option Globals * list SketchMsg :=
  let msgs := [MsgBanner] in
  let '(ok, voices', _) := Synthesizer.init platform (voices g) in
  if negb ok then (None, msgs ++ [FatalSynthInit])
  else
    let msgs := msgs ++ [MsgSynthInitialized] in
    let player' := MidiPlayer.init (player g) in
    let msgs := msgs ++ [MsgPlayerInitialized] in
    if (length song_list =? 0)%nat then (None, msgs ++ [ErrSongCountZero])
    else
      let msgs := msgs ++ [MsgSongSelected (length song_list) selected_song_index] in
      let '(loaded, player', _) := loadSong (song_list !! selected_song_index) player' in
      if negb loaded then (None, msgs ++ [FatalLoadSong])
      else
        let msgs := msgs ++ [MsgSetupComplete] in
        let '(player', _) := start millis flash player' in
        (Some (mkGlobals voices' player'), msgs).

(** One pass of [loop]: [None] when the pass ends in the halt loop. *)
Definition loop {libm : Libm} (millis : Z) (flash : Flash) (g : Globals)
    : option Globals * list SketchMsg :=
  let '(still_playing, player', voices', _) := update millis flash (player g) (voices g) in
  if negb still_playing then (None, [MsgPlaybackComplete])
  else (Some (mkGlobals voices' player'), []).

End Sketch.

(** ** A reference instance of the math library

    [powf] is computed for base 2, the only base the synthesizer passes, in
    60-bit fixed point: [2^y = 2^k * 2^f] with [k] the integer part of [y]
    and [f] its fraction, and [2^f] the product of the square roots
    [2^(1/2), 2^(1/4), ...] selected by the bits of [f].  The instance makes
    the examples below computable; the theorems hold for every [Libm]. *)

Module PowfRef.

Definition P : Z := 60.

(** [roots n (2 * 2^P)] is [2^(1/2), 2^(1/4), ..., 2^(1/2^n)], scaled by
    [2^P] and rounded down. *)
Fixpoint roots (n : nat) (c : Z) : list Z :=
  match n with
  | O => []
  | S n' => let c' := Z.sqrt (c * 2 ^ P) in c' :: roots n' c'
  end.

(** [2^(f / 2^n)] scaled by [2^P], for [0 <= f < 2^n]. *)
Definition exp2_frac (f n : Z) : Z :=
  fst (fold_left
         (fun '(acc, i) c =>
            (if Z.testbit f (n - i) then acc * c / 2 ^ P else acc, i + 1))
         (roots 40 (2 * 2 ^ P)) (2 ^ P, 1)).

Definition exp2 (y : f32) : f32 :=
  match y with
  | S754_zero _ => F32.one
  | S754_infinity false => y
  | S754_infinity true => F32.zero
  | S754_nan => y
  | S754_finite s m e =>
      if 8 <=? e then (if s then F32.zero else S754_infinity false)
      else if 0 <=? e then
        binary_normalize F32.prec F32.emax 1 (cond_Zopp s (Z.pos m * 2 ^ e)) false
      else
        let n := - e in
        let N := cond_Zopp s (Z.pos m) in
        let k := N / 2 ^ n in
        let f := N mod 2 ^ n in
        if k <? -200 then F32.zero
        else if 200 <? k then S754_infinity false
        else binary_normalize F32.prec F32.emax (exp2_frac f n) (k - P) false
  end.

Definition powf_ref (x y : f32) : f32 :=
  match y with
  | S754_zero _ => F32.one
  | _ => if SFeqb x (F32.of_Z 2) then exp2 y else S754_nan
  end.

End PowfRef.

Definition reference_libm : Libm := {| powf := PowfRef.powf_ref |}.

(** ** Notions the properties are stated with *)

Module Props.

Import Synthesizer MidiPlayer.

(** "Voice [v] is active and plays note [n]", the test of
    [findVoicePlayingNote_unsafe]. *)
Abbreviation plays n :=
  (fun v : VoiceState => isActive v = true /\ midiNoteNumber v = n).

(** The number of active voices that play note [n]. *)
Definition activeVoicesFor (n : Z) (voices : list VoiceState) : nat :=
  length (filter (fun v => isActive v = true /\ midiNoteNumber v = n) voices).

(** The number of active voices. *)
Definition activeVoices (voices : list VoiceState) : nat :=
  length (filter (fun v => isActive v = true) voices).

(** The voice tables the firmware can be in: the table [init] leaves,
    changed by any interleaving of note requests and iterations of the
    audio task. *)
Inductive reachable {libm : Libm} : list VoiceState -> Prop :=
  | reach_init voices :
      wf_pool voices -> reachable (init_voices voices)
  | reach_startNote noteNumber velocity voices :
      reachable voices ->
      reachable (fst (startNote noteNumber velocity voices))
  | reach_stopNote noteNumber voices :
      reachable voices -> reachable (stopNote noteNumber voices)
  | reach_audio voices :
      reachable voices -> reachable (fst (audioTaskIteration voices)).

(** What holds of every active voice of a reachable table: the derived
    fields agree with the note, the half period and the amplitude are
    positive, the output is at one of the two levels and the countdown is
    within the half period. *)
Definition voice_ok {libm : Libm} (v : VoiceState) : Prop :=
  isActive v = true ->
  frequency v = midiNoteToFrequency (midiNoteNumber v) /\
  wavelength v = calculate_wavelength (frequency v) /\
  0 < wavelength v /\
  0 < targetAmplitude v <= SYNTH_MAX_NOTE_AMPLITUDE /\
  (currentOutput v = targetAmplitude v \/
   currentOutput v = - targetAmplitude v) /\
  0 <= timeAtLevelRemaining v <= wavelength v.

(** The accuracy asked of [powf] at the argument [midiNoteToFrequency]
    passes for note [n]: the result is a positive normal number [p] whose
    twelfth power is within a factor [1 - 2^-10 .. 1 + 2^-10] of
    [2^(n - 69)], so that [p] is within 0.01% of [2^((n - 69) / 12)].  The
    test is on integers: [p = m * 2^e] and [j = n - 69 - 12 * e]. *)
Definition powf_accurate_at {libm : Libm} (n : Z) : bool :=
  match powf (F32.of_Z 2) (F32.div (F32.of_Z (n - 69)) (F32.of_Z 12)) with
  | S754_finite false m e =>
      let j := n - 69 - 12 * e in
      (2 ^ 23 <=? Z.pos m) && (Z.pos m <? 2 ^ 24) && (0 <=? j) &&
      (1023 * 2 ^ j <=? 1024 * Z.pos m ^ 12) &&
      (1024 * Z.pos m ^ 12 <=? 1025 * 2 ^ j)
  | _ => false
  end.

(** The player after [update] has been called at each of the times
    [times], in order, and the voice table these calls leave. *)
Fixpoint updates {libm : Libm} (times : list Z) (flash : Flash)
    (p : MidiPlayer) (voices : list VoiceState) : MidiPlayer * list VoiceState :=
  match times with
  | [] => (p, voices)
  | now :: times' =>
      let '(_, p', voices', _) := update now flash p voices in
      updates times' flash p' voices'
  end.

(** [f] holds of the [n] integers from [lo] on. *)
Fixpoint forall_from (f : Z -> bool) (lo : Z) (n : nat) : bool :=
  match n with
  | O => true
  | S n' => f lo && forall_from f (lo + 1) n'
  end.

(** What one iteration of the audio task does to a slot. *)
Definition renderStep (v : VoiceState) : VoiceState :=
  if isActive v then advanceVoice v else v.

(** The sum of the outputs of the active voices after their update. *)
Definition mixSum (voices : list VoiceState) : Z :=
  foldr (fun v acc => if isActive v then currentOutput (advanceVoice v) + acc
                      else acc) 0 voices.

(** The bytes of the event at [current_event_index]: kind, note number and
    velocity, at the offsets [processCurrentEvent] reads them. *)
Definition event_address (p : MidiPlayer) : Z :=
  current_song_data_ptr p + current_event_index p * BYTES_PER_EVENT.
Definition event_kind (flash : Flash) (p : MidiPlayer) : Z :=
  pgm_read_byte_near flash (event_address p + 2).
Definition event_note (flash : Flash) (p : MidiPlayer) : Z :=
  pgm_read_byte_near flash (event_address p + 3).
Definition event_velocity (flash : Flash) (p : MidiPlayer) : Z :=
  pgm_read_byte_near flash (event_address p + 4).

(** The delta-time, in ticks, of the event with index [i]. *)
Definition event_delta (flash : Flash) (p : MidiPlayer) (i : Z) : Z :=
  pgm_read_uint16_big_endian flash
    (current_song_data_ptr p + i * BYTES_PER_EVENT).

(** 1 for an element that satisfies [P], 0 for the others: the term an
    element contributes to the length of [filter P]. *)
Definition indicator {A : Type} (P : A -> Prop) `{!forall x, Decision (P x)}
    (x : A) : nat :=
  if decide (P x) then 1%nat else 0%nat.

(** Flash images of a two-event song at address 4096 whose first event
    is a note-on with velocity 0, a note-off, or of an unknown kind, and
    the player that has loaded such a song at 120 BPM and started it at
    time 0. *)
Definition flash_note_on_zero : Flash :=
  flash_of_bytes 4096 [0; 0; 1; 60; 0; 0; 0; 96; 0; 60; 0; 0].
Definition flash_note_off : Flash :=
  flash_of_bytes 4096 [0; 0; 0; 60; 0; 0; 0; 96; 0; 60; 0; 0].
Definition flash_unknown_kind : Flash :=
  flash_of_bytes 4096 [0; 0; 7; 60; 100; 0; 0; 96; 1; 60; 100; 0].
Definition demo_player : MidiPlayer :=
  let loaded := loadSong (Some (mkSongInfo 4096 2 (F32.of_Z 120)))
                         (init MidiPlayer_new) in
  fst (start 0 flash_note_off (snd (fst loaded))).

(** Eight sounding voices, notes 60 to 67. *)
Definition full_pool : list VoiceState :=
  (fun n => mkVoiceState true n F32.one 12598 12598 50 50)
    <$> [60; 61; 62; 63; 64; 65; 66; 67].

End Props.

(** * Properties of the voice pool *)

Module PoolFacts.

Import Synthesizer Props.

Section Counting.
Context {A : Type} (P : A -> Prop) `{!forall x, Decision (P x)}.

Lemma count_cons (x : A) (l : list A) :
  length (filter P (x :: l)) = (indicator P x + length (filter P l))%nat.
Proof.
  unfold indicator. rewrite filter_cons.
  destruct (decide (P x)); reflexivity.
Qed.

(** Replacing slot [i] changes the count by the difference of the two
    indicators. *)
Lemma count_insert (l : list A) (i : nat) (x y : A) :
  l !! i = Some x ->
  (length (filter P (<[i := y]> l)) + indicator P x
   = length (filter P l) + indicator P y)%nat.
Proof.
  revert i. induction l as [|z l IH]; intros [|i] Hi; simplify_eq/=.
  - rewrite !count_cons. lia.
  - rewrite !count_cons. specialize (IH _ Hi). lia.
Qed.

Lemma count_alter (f : A -> A) (l : list A) (i : nat) (x : A) :
  l !! i = Some x ->
  (length (filter P (alter f i l)) + indicator P x
   = length (filter P l) + indicator P (f x))%nat.
Proof.
  intros Hi. rewrite <- (count_insert l i x (f x) Hi).
  f_equal. f_equal. f_equal.
  apply list_eq. intros j. rewrite list_lookup_alter.
  destruct (decide (i = j)) as [->|Hne].
  - rewrite Hi. simpl. symmetry. apply list_lookup_insert_eq.
    eapply lookup_lt_Some; eauto.
  - symmetry. apply list_lookup_insert_ne; done.
Qed.

Lemma count_zero_Forall (l : list A) :
  Forall (fun x => ~ P x) l -> length (filter P l) = 0%nat.
Proof.
  induction 1 as [|x l Hx _ IH]; [reflexivity|].
  rewrite count_cons. unfold indicator.
  destruct (decide (P x)); [contradiction | exact IH].
Qed.

Lemma count_pos_lookup (l : list A) (i : nat) (x : A) :
  l !! i = Some x -> P x -> (0 < length (filter P l))%nat.
Proof.
  revert i. induction l as [|z l IH]; intros [|i] Hi HP; simplify_eq/=;
    rewrite count_cons.
  - unfold indicator. destruct (decide (P x)); [lia | contradiction].
  - specialize (IH _ Hi HP). lia.
Qed.
End Counting.


Lemma findVoicePlayingNote_Some n voices i :
  findVoicePlayingNote_unsafe n voices = Some i ->
  exists v, voices !! i = Some v /\ isActive v = true /\ midiNoteNumber v = n /\
    forall j w, voices !! j = Some w -> (j < i)%nat -> ~ plays n w.
Proof.
  unfold findVoicePlayingNote_unsafe. intros H.
  destruct (list_find _ voices) as [[i' v]|] eqn:Hf; simplify_eq/=.
  apply list_find_Some in Hf as (Hi & [Ha Hn] & Hlt). eauto 10.
Qed.

Lemma findVoicePlayingNote_None n voices :
  findVoicePlayingNote_unsafe n voices = None ->
  Forall (fun v => ~ plays n v) voices.
Proof.
  unfold findVoicePlayingNote_unsafe. intros H.
  destruct (list_find _ voices) as [[i' v]|] eqn:Hf; simplify_eq/=.
  by apply list_find_None in Hf.
Qed.

Lemma findFreeVoice_Some voices i :
  findFreeVoice_unsafe voices = Some i ->
  exists v, voices !! i = Some v /\ isActive v = false /\
    forall j w, voices !! j = Some w -> (j < i)%nat -> isActive w = true.
Proof.
  unfold findFreeVoice_unsafe. intros H.
  destruct (list_find _ voices) as [[i' v]|] eqn:Hf; simplify_eq/=.
  apply list_find_Some in Hf as (Hi & Ha & Hlt).
  exists v. repeat split; try done.
  intros j w Hj Hji. specialize (Hlt j w Hj Hji).
  destruct (isActive w); [done | by destruct Hlt].
Qed.


Lemma findFreeVoice_full voices :
  Forall (fun v => isActive v = true) voices ->
  findFreeVoice_unsafe voices = None.
Proof.
  intros H. unfold findFreeVoice_unsafe.
  destruct (list_find _ voices) as [[i v]|] eqn:Hf; [|done].
  apply list_find_Some in Hf as (Hi & Ha & _).
  rewrite Forall_lookup in H. specialize (H _ _ Hi). congruence.
Qed.

Lemma findVoicePlayingNote_absent n voices :
  Forall (fun v => ~ plays n v) voices ->
  findVoicePlayingNote_unsafe n voices = None.
Proof.
  intros H. unfold findVoicePlayingNote_unsafe.
  destruct (list_find _ voices) as [[i v]|] eqn:Hf; [|done].
  apply list_find_Some in Hf as (Hi & Ha & _).
  rewrite Forall_lookup in H. specialize (H _ _ Hi). contradiction.
Qed.

(** The indicator of "plays note [m]" on the voices the operations write. *)
Lemma indicator_inactive m v :
  isActive v = false -> indicator (plays m) v = 0%nat.
Proof.
  intros H. unfold indicator. destruct (decide _) as [[Ha _]|]; [congruence|done].
Qed.

Lemma indicator_plays m v :
  isActive v = true -> midiNoteNumber v = m -> indicator (plays m) v = 1%nat.
Proof.
  intros H1 H2. unfold indicator. destruct (decide _) as [|Hn]; [done|].
  destruct Hn; done.
Qed.

Lemma indicator_other m v :
  midiNoteNumber v <> m -> indicator (plays m) v = 0%nat.
Proof.
  intros H. unfold indicator. destruct (decide _) as [[_ Hm]|]; [congruence|done].
Qed.

Lemma indicator_le_1 m v : (indicator (plays m) v <= 1)%nat.
Proof. unfold indicator. destruct (decide _); lia. Qed.

(** *** [stopExisting] *)

Lemma stopExisting_length n voices :
  length (stopExisting n voices) = length voices.
Proof.
  unfold stopExisting. destruct (findVoicePlayingNote_unsafe n voices); [|done].
  apply length_alter.
Qed.

Lemma stopExisting_count n voices :
  (activeVoicesFor n voices <= 1)%nat ->
  activeVoicesFor n (stopExisting n voices) = 0%nat.
Proof.
  unfold stopExisting, activeVoicesFor. intros Hle.
  destruct (findVoicePlayingNote_unsafe n voices) as [i|] eqn:Hf.
  - apply findVoicePlayingNote_Some in Hf as (v & Hi & Ha & Hn & _).
    pose proof (count_alter (plays n) (set_isActive false) voices i v Hi) as Hc.
    rewrite (indicator_plays n v Ha Hn) in Hc.
    rewrite (indicator_inactive n (set_isActive false v) eq_refl) in Hc. lia.
  - apply count_zero_Forall. by apply findVoicePlayingNote_None.
Qed.

Lemma stopExisting_count_le m n voices :
  (activeVoicesFor m (stopExisting n voices) <= activeVoicesFor m voices)%nat.
Proof.
  unfold stopExisting, activeVoicesFor.
  destruct (findVoicePlayingNote_unsafe n voices) as [i|] eqn:Hf; [|lia].
  apply findVoicePlayingNote_Some in Hf as (v & Hi & Ha & Hn & _).
  pose proof (count_alter (plays m) (set_isActive false) voices i v Hi) as Hc.
  rewrite (indicator_inactive m (set_isActive false v) eq_refl) in Hc. lia.
Qed.

(** *** Bounded case analysis by evaluation *)

Lemma Z_range_forallb (f : Z -> bool) (lo : Z) (n : nat) :
  forallb f (map (fun k => lo + Z.of_nat k) (seq 0 n)) = true ->
  forall z, lo <= z < lo + Z.of_nat n -> f z = true.
Proof.
  intros H z Hz. rewrite forallb_forall in H. apply H.
  apply in_map_iff. exists (Z.to_nat (z - lo)). split; [lia|].
  apply in_seq. lia.
Qed.

Lemma constrain_range amt low high :
  low <= high -> low <= constrain amt low high <= high.
Proof.
  intros H. unfold constrain.
  destruct (amt <? low) eqn:E1; [lia|].
  destruct (amt >? high) eqn:E2; lia.
Qed.

Lemma constrain_pos amt high :
  0 < amt -> 1 <= high -> 1 <= constrain amt 0 high <= high.
Proof.
  intros H1 H2. unfold constrain.
  destruct (amt <? 0) eqn:E1; [lia|].
  destruct (amt >? high) eqn:E2; lia.
Qed.

Lemma constrain_idem amt low high :
  low <= high ->
  constrain (constrain amt low high) low high = constrain amt low high.
Proof.
  intros H. unfold constrain.
  destruct (amt <? low) eqn:E1.
  - rewrite Z.ltb_irrefl. destruct (low >? high) eqn:E2; [lia|done].
  - destruct (amt >? high) eqn:E2.
    + destruct (high <? low) eqn:E3; [lia|].
      destruct (high >? high) eqn:E4; [lia|done].
    + rewrite E1, E2. done.
Qed.

(** The amplitude of a velocity lies in [0, SYNTH_MAX_NOTE_AMPLITUDE], and
    is 0 only for a velocity of at most 0. *)
Lemma velocityToAmplitude_range velocity :
  0 <= velocityToAmplitude velocity <= SYNTH_MAX_NOTE_AMPLITUDE.
Proof.
  pose proof (constrain_range velocity 0 127 ltac:(lia)) as Hc.
  assert (Hall : forall c, 0 <= c < 0 + Z.of_nat 128 ->
            (fun c => (0 <=? velocityToAmplitude c) &&
                      (velocityToAmplitude c <=? SYNTH_MAX_NOTE_AMPLITUDE)) c = true).
  { apply Z_range_forallb. vm_compute. reflexivity. }
  assert (Hid : velocityToAmplitude velocity
                = velocityToAmplitude (constrain velocity 0 127)).
  { unfold velocityToAmplitude. by rewrite constrain_idem. }
  rewrite Hid. specialize (Hall (constrain velocity 0 127) ltac:(lia)).
  simpl in Hall. lia.
Qed.

Lemma velocityToAmplitude_pos velocity :
  0 < velocity -> 0 < velocityToAmplitude velocity.
Proof.
  intros Hv.
  pose proof (constrain_pos velocity 127 Hv ltac:(lia)) as Hc.
  assert (Hall : forall c, 1 <= c < 1 + Z.of_nat 127 ->
            (fun c => 0 <? velocityToAmplitude c) c = true).
  { apply Z_range_forallb. vm_compute. reflexivity. }
  assert (Hid : velocityToAmplitude velocity
                = velocityToAmplitude (constrain velocity 0 127)).
  { unfold velocityToAmplitude. by rewrite constrain_idem. }
  rewrite Hid. specialize (Hall (constrain velocity 0 127) ltac:(lia)).
  simpl in Hall. lia.
Qed.


(** *** The audio task *)

Lemma renderVoices_spec voices s c :
  renderVoices voices s c
  = (renderStep <$> voices, s + mixSum voices, c + Z.of_nat (activeVoices voices)).
Proof.
  revert s c. induction voices as [|v voices IH]; intros s c.
  - simpl. unfold activeVoices. simpl. rewrite !Z.add_0_r. reflexivity.
  - simpl. unfold renderStep at 1, activeVoices.
    rewrite filter_cons. destruct (isActive v) eqn:Ha.
    + rewrite IH. rewrite decide_True by done. simpl.
      unfold activeVoices.
      replace (c + 1 + Z.of_nat (length (filter (fun v0 => isActive v0 = true) voices)))
        with (c + Z.pos (Pos.of_succ_nat (length (filter (fun v0 => isActive v0 = true) voices))))
        by lia.
      rewrite Z.add_assoc. reflexivity.
    + rewrite IH. rewrite decide_False by done. reflexivity.
Qed.

Lemma audioTaskIteration_spec voices :
  audioTaskIteration voices
  = (renderStep <$> voices,
     mixSample (mixSum voices) (Z.of_nat (activeVoices voices))).
Proof. unfold audioTaskIteration. rewrite renderVoices_spec. reflexivity. Qed.

Lemma advanceVoice_isActive v : isActive (advanceVoice v) = isActive v.
Proof.
  unfold advanceVoice.
  destruct (timeAtLevelRemaining v =? 0); simpl;
    match goal with |- context [if ?b then _ else _] => destruct b end; reflexivity.
Qed.

Lemma advanceVoice_midiNoteNumber v :
  midiNoteNumber (advanceVoice v) = midiNoteNumber v.
Proof.
  unfold advanceVoice.
  destruct (timeAtLevelRemaining v =? 0); simpl;
    match goal with |- context [if ?b then _ else _] => destruct b end; reflexivity.
Qed.

Lemma renderStep_plays n v : plays n (renderStep v) <-> plays n v.
Proof.
  unfold renderStep. destruct (isActive v) eqn:Ha; cbn beta.
  - rewrite advanceVoice_isActive, advanceVoice_midiNoteNumber, Ha. tauto.
  - rewrite ?Ha. tauto.
Qed.

Lemma count_fmap_iff {A} (P : A -> Prop) `{!forall x, Decision (P x)}
    (f : A -> A) (l : list A) :
  (forall x, P (f x) <-> P x) ->
  length (filter P (f <$> l)) = length (filter P l).
Proof.
  intros Hiff. induction l as [|x l IH]; [reflexivity|].
  rewrite fmap_cons, !count_cons, IH. f_equal.
  unfold indicator. destruct (decide (P (f x))), (decide (P x)); try done;
    exfalso; firstorder.
Qed.

Lemma audioTaskIteration_count n voices :
  activeVoicesFor n (fst (audioTaskIteration voices)) = activeVoicesFor n voices.
Proof.
  rewrite audioTaskIteration_spec. simpl. unfold activeVoicesFor.
  apply count_fmap_iff. intros v. apply renderStep_plays.
Qed.

Section WithLibm.
Context {libm : Libm}.

(** *** [startNote] and [stopNote] on the counts *)

Lemma claimVoice_plays n vel v m :
  plays m (fst (claimVoice n vel v)) -> m = n.
Proof.
  unfold claimVoice. simpl. destruct (_ && _); simpl; intros [Ha Hn]; congruence.
Qed.


Lemma startNote_count_le m n vel voices :
  (activeVoicesFor m (fst (startNote n vel voices))
   <= activeVoicesFor m (stopExisting n voices)
      + (if decide (m = n) then 1 else 0))%nat.
Proof.
  unfold startNote.
  destruct (findFreeVoice_unsafe (stopExisting n voices)) as [j|] eqn:Hf;
    [|simpl; lia].
  apply findFreeVoice_Some in Hf as (w & Hj & Hw & _). rewrite Hj.
  destruct (claimVoice n vel w) as [w' msgs] eqn:Hc. simpl.
  unfold activeVoicesFor.
  pose proof (count_insert (plays m) _ j w w' Hj) as Hcnt.
  rewrite (indicator_inactive m w Hw) in Hcnt.
  destruct (decide (m = n)) as [->|Hne].
  - pose proof (indicator_le_1 n w'). lia.
  - assert (indicator (plays m) w' = 0%nat) as Hz; [|lia].
    unfold indicator. destruct (decide _) as [Hp|]; [|done].
    replace w' with (fst (claimVoice n vel w)) in Hp by (by rewrite Hc).
    apply claimVoice_plays in Hp. contradiction.
Qed.

Lemma stopNote_count_le m n voices :
  (activeVoicesFor m (stopNote n voices) <= activeVoicesFor m voices)%nat.
Proof.
  unfold stopNote, activeVoicesFor.
  destruct (findVoicePlayingNote_unsafe n voices) as [i|] eqn:Hf; [|lia].
  apply findVoicePlayingNote_Some in Hf as (v & Hi & Ha & Hn & _).
  pose proof (count_alter (plays m)
                (fun voice => set_currentOutput 0 (set_isActive false voice))
                voices i v Hi) as Hc.
  cbn beta in Hc.
  rewrite (indicator_inactive m (set_currentOutput 0 (set_isActive false v))
             eq_refl) in Hc. lia.
Qed.

Lemma stopNote_count n voices :
  (activeVoicesFor n voices <= 1)%nat ->
  activeVoicesFor n (stopNote n voices) = 0%nat.
Proof.
  unfold stopNote, activeVoicesFor. intros Hle.
  destruct (findVoicePlayingNote_unsafe n voices) as [i|] eqn:Hf.
  - apply findVoicePlayingNote_Some in Hf as (v & Hi & Ha & Hn & _).
    pose proof (count_alter (plays n)
                  (fun voice => set_currentOutput 0 (set_isActive false voice))
                  voices i v Hi) as Hc.
    cbn beta in Hc. rewrite (indicator_plays n v Ha Hn) in Hc.
    rewrite (indicator_inactive n (set_currentOutput 0 (set_isActive false v))
               eq_refl) in Hc. lia.
  - apply count_zero_Forall. by apply findVoicePlayingNote_None.
Qed.

Lemma init_voices_count n voices : activeVoicesFor n (init_voices voices) = 0%nat.
Proof.
  unfold activeVoicesFor, init_voices. apply count_zero_Forall.
  apply Forall_fmap, Forall_forall. intros v _ [Ha _]. simpl in Ha. done.
Qed.

(** At most one voice per note, in every reachable table. *)
Lemma reachable_unique voices :
  reachable voices -> forall n, (activeVoicesFor n voices <= 1)%nat.
Proof.
  induction 1 as [voices Hwf|n vel voices Hr IH|n voices Hr IH|voices Hr IH];
    intros m.
  - rewrite init_voices_count. lia.
  - pose proof (startNote_count_le m n vel voices) as Hle.
    destruct (decide (m = n)) as [->|Hne].
    + rewrite (stopExisting_count n voices (IH n)) in Hle. lia.
    + pose proof (stopExisting_count_le m n voices). specialize (IH m). lia.
  - pose proof (stopNote_count_le m n voices). specialize (IH m). lia.
  - rewrite audioTaskIteration_count. apply IH.
Qed.


(** *** The invariant of the active voices *)

Lemma wrap_int16_small z : in_int16 z -> wrap_int16 z = z.
Proof. unfold in_int16, wrap_int16. intros H. rewrite Z.mod_small; lia. Qed.

Lemma voice_ok_inactive v : isActive v = false -> voice_ok v.
Proof. intros H Ha. congruence. Qed.

Lemma claimVoice_ok n vel v : voice_ok (fst (claimVoice n vel v)).
Proof.
  unfold claimVoice. simpl.
  destruct (0 <? calculate_wavelength (midiNoteToFrequency n)) eqn:E1; simpl;
    [|by apply voice_ok_inactive].
  destruct (velocityToAmplitude vel =? 0) eqn:E2; simpl;
    [by apply voice_ok_inactive|].
  intros _. simpl. pose proof (velocityToAmplitude_range vel).
  repeat split; try done; try lia.
Qed.

Lemma advanceVoice_ok v : voice_ok v -> voice_ok (advanceVoice v).
Proof.
  intros Hok Ha. rewrite advanceVoice_isActive in Ha.
  destruct (Hok Ha) as (Hf & Hw & Hwl & Hamp & Hcur & Ht).
  unfold SYNTH_MAX_NOTE_AMPLITUDE in *.
  unfold advanceVoice.
  destruct (timeAtLevelRemaining v =? 0) eqn:E0; simpl.
  - destruct (0 <? wavelength v) eqn:E1; [|lia]. simpl.
    repeat split; try done; try lia.
    destruct (currentOutput v =? targetAmplitude v) eqn:E2.
    + right. apply wrap_int16_small. unfold in_int16. lia.
    + by left.
  - destruct (0 <? timeAtLevelRemaining v) eqn:E1; simpl;
      repeat split; try done; lia.
Qed.

Lemma renderStep_ok v : voice_ok v -> voice_ok (renderStep v).
Proof.
  unfold renderStep. destruct (isActive v); [apply advanceVoice_ok | done].
Qed.

Lemma reachable_ok voices : reachable voices -> Forall voice_ok voices.
Proof.
  induction 1 as [voices Hwf|n vel voices Hr IH|n voices Hr IH|voices Hr IH].
  - apply Forall_fmap, Forall_forall. intros v _. by apply voice_ok_inactive.
  - assert (Forall voice_ok (stopExisting n voices)) as Hs.
    { unfold stopExisting.
      destruct (findVoicePlayingNote_unsafe n voices); [|done].
      apply Forall_alter; [done|]. intros v _ _. by apply voice_ok_inactive. }
    unfold startNote.
    destruct (findFreeVoice_unsafe (stopExisting n voices)) as [j|]; [|done].
    destruct (stopExisting n voices !! j) as [w|]; [|done].
    pose proof (claimVoice_ok n vel w) as Hc.
    destruct (claimVoice n vel w) as [w' msgs]. simpl in *.
    by apply Forall_insert.
  - unfold stopNote. destruct (findVoicePlayingNote_unsafe n voices); [|done].
    apply Forall_alter; [done|]. intros v _ _. by apply voice_ok_inactive.
  - rewrite audioTaskIteration_spec. simpl. apply Forall_fmap.
    eapply Forall_impl; [exact IH|]. intros v. apply renderStep_ok.
Qed.

Lemma reachable_length voices : reachable voices -> wf_pool voices.
Proof.
  unfold wf_pool.
  induction 1 as [voices Hwf|n vel voices Hr IH|n voices Hr IH|voices Hr IH].
  - unfold init_voices. by rewrite length_fmap.
  - unfold startNote.
    destruct (findFreeVoice_unsafe (stopExisting n voices)) as [j|];
      [|by simpl; rewrite stopExisting_length].
    destruct (stopExisting n voices !! j) as [w|];
      [|by simpl; rewrite stopExisting_length].
    destruct (claimVoice n vel w) as [w' msgs]. simpl.
    by rewrite length_insert, stopExisting_length.
  - unfold stopNote. destruct (findVoicePlayingNote_unsafe n voices); [|done].
    by rewrite length_alter.
  - rewrite audioTaskIteration_spec. simpl. by rewrite length_fmap.
Qed.

End WithLibm.

(** *** The mixer *)

Lemma forall_from_spec (f : Z -> bool) (n : nat) : forall lo,
  forall_from f lo n = true ->
  forall z, lo <= z < lo + Z.of_nat n -> f z = true.
Proof.
  induction n as [|n IH]; intros lo H z Hz; [lia|].
  simpl in H. apply andb_prop in H as [H0 H1].
  destruct (Z.eq_dec z lo) as [->|Hne]; [exact H0|].
  apply (IH (lo + 1) H1). lia.
Qed.

(** Averaging over one voice and clamping return a 16-bit sum as it is. *)
Lemma mixSample_one (s : Z) : in_int16 s -> mixSample s 1 = s.
Proof.
  intros Hs. apply Z.eqb_eq.
  apply (forall_from_spec (fun s => mixSample s 1 =? s) (Z.to_nat 65536) (-32768));
    [vm_compute; reflexivity | unfold in_int16 in Hs; lia].
Qed.

Lemma activeVoices_cons v voices :
  activeVoices (v :: voices)
  = ((if isActive v then 1 else 0) + activeVoices voices)%nat.
Proof.
  unfold activeVoices. rewrite count_cons. unfold indicator.
  destruct (isActive v); [rewrite decide_True by done | rewrite decide_False by done];
    reflexivity.
Qed.

Lemma mixSum_no_voice voices : activeVoices voices = 0%nat -> mixSum voices = 0.
Proof.
  induction voices as [|v voices IH]; [reflexivity|].
  rewrite activeVoices_cons. simpl. destruct (isActive v); [lia|]. exact IH.
Qed.

Lemma mixSum_one_voice voices : forall i v,
  voices !! i = Some v -> isActive v = true -> activeVoices voices = 1%nat ->
  mixSum voices = currentOutput (advanceVoice v).
Proof.
  induction voices as [|w voices IH]; intros [|i] v Hi Ha Hone; simplify_eq/=.
  - rewrite activeVoices_cons, Ha in Hone. rewrite Ha.
    rewrite mixSum_no_voice by lia. lia.
  - rewrite activeVoices_cons in Hone.
    pose proof (count_pos_lookup (fun v => isActive v = true) voices i v Hi Ha)
      as Hpos. fold (activeVoices voices) in Hpos.
    destruct (isActive w); [lia|]. apply (IH i v Hi Ha). lia.
Qed.

Lemma advanceVoice_in_int16 v :
  wf_voice v -> in_int16 (currentOutput (advanceVoice v)).
Proof.
  intros (Ht & Hc & _). unfold advanceVoice, in_int16, wrap_int16 in *.
  destruct (timeAtLevelRemaining v =? 0); simpl.
  - assert (forall t o,
      currentOutput (if 0 <? wavelength v
                     then set_timeAtLevelRemaining t (set_timeAtLevelRemaining (wavelength v) (set_currentOutput o v))
                     else set_timeAtLevelRemaining (wavelength v) (set_currentOutput o v)) = o) as E
      by (intros; destruct (0 <? wavelength v); reflexivity).
    rewrite E. destruct (currentOutput v =? targetAmplitude v); [|lia].
    pose proof (Z.mod_pos_bound (- targetAmplitude v + 32768) 65536 ltac:(lia)). lia.
  - destruct (0 <? timeAtLevelRemaining v); simpl; lia.
Qed.

Lemma calculate_wavelength_range (f : f32) :
  in_uint16 (calculate_wavelength f).
Proof.
  unfold calculate_wavelength, in_uint16.
  destruct (F32.leb f F32.zero); [lia|].
  unfold F32.to_uint16, wrap_uint16.
  match goal with |- context [?z mod 65536] =>
    pose proof (Z.mod_pos_bound z 65536 ltac:(lia)) as Hm;
    destruct (z mod 65536 <? 1); lia
  end.
Qed.

Lemma reachable_initial_voices {libm : Libm} : reachable initial_voices.
Proof. apply reach_init. reflexivity. Qed.

End PoolFacts.


(** * binary32 arithmetic: rounding and its error *)

Module F32Facts.

Import F32.
Local Open Scope R_scope.

(** ** Powers of two *)

Lemma bpow_pos e : 0 < bpow e.
Proof. apply powerRZ_lt. lra. Qed.

Lemma bpow_add a b : bpow (a + b) = bpow a * bpow b.
Proof. apply powerRZ_add. lra. Qed.

Lemma bpow_0 : bpow 0 = 1.
Proof. reflexivity. Qed.

Lemma bpow_1 : bpow 1 = 2.
Proof. unfold bpow. simpl. lra. Qed.

Lemma bpow_m1 : bpow (-1) = / 2.
Proof. unfold bpow. simpl. f_equal. lra. Qed.

Lemma bpow_opp e : bpow (- e) = / bpow e.
Proof.
  apply Rmult_eq_reg_l with (bpow e); [|pose proof (bpow_pos e); lra].
  rewrite <- bpow_add, Z.add_opp_diag_r, bpow_0.
  rewrite Rinv_r; [reflexivity|pose proof (bpow_pos e); lra].
Qed.

Lemma bpow_IZR e : (0 <= e)%Z -> bpow e = IZR (2 ^ e).
Proof.
  intros He. unfold bpow. rewrite <- (Z2Nat.id e He) at 2.
  rewrite <- pow_IZR. destruct e as [|p|p]; [reflexivity| |lia].
  simpl. rewrite Z2Nat.inj_pos. reflexivity.
Qed.

Lemma bpow_ge_1 e : (0 <= e)%Z -> 1 <= bpow e.
Proof.
  intros He. rewrite (bpow_IZR e He). apply IZR_le.
  pose proof (Z.pow_pos_nonneg 2 e ltac:(lia) He). lia.
Qed.

Lemma bpow_le a b : (a <= b)%Z -> bpow a <= bpow b.
Proof.
  intros H. replace b with (a + (b - a))%Z by lia. rewrite bpow_add.
  pose proof (bpow_pos a). pose proof (bpow_ge_1 (b - a) ltac:(lia)). nra.
Qed.

Lemma bpow_lt a b : (a < b)%Z -> bpow a < bpow b.
Proof.
  intros H. replace b with (a + 1 + (b - a - 1))%Z by lia.
  rewrite !bpow_add, bpow_1.
  pose proof (bpow_pos a). pose proof (bpow_ge_1 (b - a - 1) ltac:(lia)). nra.
Qed.

Lemma bpow_lt_inv a b : bpow a < bpow b -> (a < b)%Z.
Proof.
  intros H. destruct (Z_lt_le_dec a b) as [|Hle]; [assumption|].
  pose proof (bpow_le b a Hle). lra.
Qed.

Lemma bpow_le_inv a b : bpow a <= bpow b -> (a <= b)%Z.
Proof.
  intros H. destruct (Z_le_gt_dec a b) as [|Hgt]; [assumption|].
  pose proof (bpow_lt b a ltac:(lia)). lra.
Qed.

(** ** The number of binary digits *)

Lemma digits2_pos_bounds p :
  (2 ^ (Z.pos (digits2_pos p) - 1) <= Z.pos p < 2 ^ Z.pos (digits2_pos p))%Z.
Proof.
  induction p as [p IH|p IH|]; simpl digits2_pos.
  - rewrite Pos2Z.inj_succ.
    replace (Z.succ (Z.pos (digits2_pos p)) - 1)%Z
      with (Z.succ (Z.pos (digits2_pos p) - 1))%Z by lia.
    rewrite !Z.pow_succ_r by lia. lia.
  - rewrite Pos2Z.inj_succ.
    replace (Z.succ (Z.pos (digits2_pos p)) - 1)%Z
      with (Z.succ (Z.pos (digits2_pos p) - 1))%Z by lia.
    rewrite !Z.pow_succ_r by lia. lia.
  - simpl. lia.
Qed.

Lemma Zdigits2_bounds m :
  (0 < m)%Z -> (2 ^ (Zdigits2 m - 1) <= m < 2 ^ Zdigits2 m)%Z.
Proof. destruct m as [|p|p]; try lia. intros _. apply digits2_pos_bounds. Qed.

Lemma Zdigits2_unique m k :
  (2 ^ (k - 1) <= m < 2 ^ k)%Z -> (0 < k)%Z -> Zdigits2 m = k.
Proof.
  intros [Hlo Hhi] Hk.
  assert (0 < m)%Z as Hm.
  { pose proof (Z.pow_pos_nonneg 2 (k - 1) ltac:(lia) ltac:(lia)). lia. }
  pose proof (Zdigits2_bounds m Hm) as [Hlo' Hhi'].
  assert (0 < Zdigits2 m)%Z as Hd by (destruct m; simpl; lia).
  destruct (Z.lt_trichotomy (Zdigits2 m) k) as [Hlt|[Heq|Hgt]]; [|exact Heq|].
  - pose proof (Z.pow_le_mono_r 2 (Zdigits2 m) (k - 1) ltac:(lia) ltac:(lia)). lia.
  - pose proof (Z.pow_le_mono_r 2 k (Zdigits2 m - 1) ltac:(lia) ltac:(lia)). lia.
Qed.


(** ** Locations and right shifts *)

Lemma inbetween_bounds m l t : inbetween m l t -> IZR m <= t < IZR m + 1.
Proof. destruct l as [|[]]; simpl; lra. Qed.

Lemma loc_of_shr_record_of_loc m l :
  loc_of_shr_record (shr_record_of_loc m l) = l /\
  shr_m (shr_record_of_loc m l) = m.
Proof. destruct l as [|[]]; split; reflexivity. Qed.

Lemma IZR_xO p : IZR (Z.pos p~0) = 2 * IZR (Z.pos p).
Proof. rewrite Pos2Z.inj_xO, mult_IZR. reflexivity. Qed.

Lemma IZR_xI p : IZR (Z.pos p~1) = 2 * IZR (Z.pos p) + 1.
Proof. rewrite Pos2Z.inj_xI, plus_IZR, mult_IZR. reflexivity. Qed.

Lemma shr_1_correct mrs t :
  (0 <= shr_m mrs)%Z ->
  inbetween (shr_m mrs) (loc_of_shr_record mrs) t ->
  (0 <= shr_m (shr_1 mrs))%Z /\
  inbetween (shr_m (shr_1 mrs)) (loc_of_shr_record (shr_1 mrs)) (t * / 2).
Proof.
  destruct mrs as [m r s]. simpl shr_m at 1 2. intros Hm.
  destruct m as [|p|p]; [| |lia].
  - destruct r, s; simpl; intros H; split; try lia; lra.
  - destruct p as [p|p|];
      [pose proof (IZR_xI p) as Hp | pose proof (IZR_xO p) as Hp | ];
      destruct r, s; simpl shr_1; simpl shr_m;
      simpl loc_of_shr_record; unfold inbetween;
      intros H; split; try lia; lra.
Qed.

Lemma iter_pos_shr_1_correct n : forall mrs t,
  (0 <= shr_m mrs)%Z ->
  inbetween (shr_m mrs) (loc_of_shr_record mrs) t ->
  (0 <= shr_m (SpecFloat.iter_pos shr_1 n mrs))%Z /\
  inbetween (shr_m (SpecFloat.iter_pos shr_1 n mrs))
            (loc_of_shr_record (SpecFloat.iter_pos shr_1 n mrs))
            (t * bpow (- Z.pos n)).
Proof.
  induction n as [n IH|n IH|]; intros mrs t Hm Hin; simpl SpecFloat.iter_pos.
  - destruct (shr_1_correct mrs t Hm Hin) as [Hm1 Hin1].
    destruct (IH _ _ Hm1 Hin1) as [Hm2 Hin2].
    destruct (IH _ _ Hm2 Hin2) as [Hm3 Hin3].
    split; [exact Hm3|].
    replace (t * bpow (- Z.pos n~1))
      with (t * / 2 * bpow (- Z.pos n) * bpow (- Z.pos n)); [exact Hin3|].
    replace (- Z.pos n~1)%Z with (-1 + (- Z.pos n + - Z.pos n))%Z by lia.
    rewrite !bpow_add, bpow_m1. ring.
  - destruct (IH _ _ Hm Hin) as [Hm2 Hin2].
    destruct (IH _ _ Hm2 Hin2) as [Hm3 Hin3].
    split; [exact Hm3|].
    replace (t * bpow (- Z.pos n~0))
      with (t * bpow (- Z.pos n) * bpow (- Z.pos n)); [exact Hin3|].
    replace (- Z.pos n~0)%Z with (- Z.pos n + - Z.pos n)%Z by lia.
    rewrite !bpow_add. ring.
  - change (Z.opp 1%Z) with (-1)%Z. rewrite bpow_m1.
    apply shr_1_correct; assumption.
Qed.

(** [shr] keeps the located real: a record that locates [x] at exponent
    [e] is turned into one that locates it at the new exponent. *)
Lemma shr_correct mrs e n x :
  (0 <= shr_m mrs)%Z ->
  inbetween (shr_m mrs) (loc_of_shr_record mrs) (x * bpow (- e)) ->
  let '(mrs', e') := shr mrs e n in
  e' = (if (0 <? n)%Z then e + n else e)%Z /\
  (0 <= shr_m mrs')%Z /\
  inbetween (shr_m mrs') (loc_of_shr_record mrs') (x * bpow (- e')).
Proof.
  intros Hm Hin. destruct n as [|p|p]; simpl; try (repeat split; assumption).
  destruct (iter_pos_shr_1_correct p mrs _ Hm Hin) as [Hm' Hin'].
  repeat split; try assumption.
  replace (- (e + Z.pos p))%Z with (- e + - Z.pos p)%Z by lia.
  rewrite bpow_add, <- Rmult_assoc. exact Hin'.
Qed.

Lemma round_nearest_even_correct m l t :
  inbetween m l t ->
  (m <= round_nearest_even m l <= m + 1)%Z /\
  Rabs (IZR (round_nearest_even m l) - t) <= / 2 /\
  (l = loc_Exact -> round_nearest_even m l = m).
Proof.
  destruct l as [|[]]; simpl; intros H.
  - subst t. replace (IZR m - IZR m) with 0 by ring. rewrite Rabs_R0.
    repeat split; try lia; lra.
  - subst t. destruct (Z.even m).
    + replace (IZR m - (IZR m + / 2)) with (- / 2) by ring.
      rewrite Rabs_Ropp, Rabs_pos_eq by lra.
      repeat split; try lia; try lra; try discriminate.
    + rewrite plus_IZR.
      replace (IZR m + 1 - (IZR m + / 2)) with (/ 2) by lra.
      rewrite Rabs_pos_eq by lra.
      repeat split; try lia; try lra; try discriminate.
  - repeat split; try lia; try discriminate.
    apply Rabs_le. lra.
  - rewrite plus_IZR. repeat split; try lia; try discriminate.
    apply Rabs_le. lra.
Qed.

(** ** Rounding a located real to binary32 *)

Lemma fexp_normal e : (-125 <= e)%Z -> fexp prec emax e = (e - 24)%Z.
Proof. unfold fexp, emin, prec, emax. lia. Qed.

Lemma bpow_cancel x e : x * bpow (- e) * bpow e = x.
Proof.
  rewrite Rmult_assoc, <- bpow_add.
  replace (- e + e)%Z with 0%Z by lia. rewrite bpow_0. ring.
Qed.

Lemma Rabs_le_bounds a b : Rabs a <= b -> - b <= a <= b.
Proof. unfold Rabs. destruct (Rcase_abs a); lra. Qed.

Lemma IZR_pow2 e : (0 <= e)%Z -> IZR (2 ^ e) = bpow e.
Proof. intros H. symmetry. by apply bpow_IZR. Qed.

(** [x] is located by [(mx, lx)] at exponent [ex]; the mantissa has at
    least 24 digits and the value is in the normal range.  Then
    [binary_round_aux] returns a normal float within relative error
    [2^-24] of [x], and [x] itself when [x] is on the grid of the result
    exponent. *)
Lemma binary_round_aux_correct sx mx ex lx x :
  (0 < mx)%Z ->
  inbetween mx lx (x * bpow (- ex)) ->
  (24 <= Zdigits2 mx)%Z ->
  (-125 <= Zdigits2 mx + ex)%Z ->
  x <= bpow 127 ->
  exists m e,
    binary_round_aux prec emax sx mx ex lx = S754_finite sx m e /\
    (2 ^ 23 <= Z.pos m < 2 ^ 24)%Z /\ (-149 <= e <= 104)%Z /\
    Rabs (IZR (Z.pos m) * bpow e - x) <= x * bpow (-24) /\
    ((exists k : Z, x * bpow (- (Zdigits2 mx + ex - 24)) = IZR k) ->
     IZR (Z.pos m) * bpow e = x).
Proof.
  intros Hmx Hin Hd Hnorm Hmax.
  set (d := Zdigits2 mx) in *.
  set (e1 := (d + ex - 24)%Z).
  (* the first shift *)
  unfold binary_round_aux, shr_fexp. fold d.
  rewrite (fexp_normal (d + ex) Hnorm).
  destruct (loc_of_shr_record_of_loc mx lx) as [Hloc Hm0].
  pose proof (shr_correct (shr_record_of_loc mx lx) ex (d + ex - 24 - ex) x) as Hshr.
  rewrite Hm0, Hloc in Hshr. specialize (Hshr ltac:(lia) Hin).
  destruct (shr (shr_record_of_loc mx lx) ex (d + ex - 24 - ex)) as [mrs1 e1'].
  destruct Hshr as (He1 & Hm1 & Hin1).
  assert (e1' = e1) as ->.
  { subst e1. revert He1. case Z.ltb_spec; intros; lia. }
  set (m1 := shr_m mrs1) in *. set (l1 := loc_of_shr_record mrs1) in *.
  set (t1 := x * bpow (- e1)) in *.
  (* the scaled value lies in [2^23, 2^24) *)
  pose proof (inbetween_bounds _ _ _ Hin) as [Hlo Hhi].
  pose proof (Zdigits2_bounds mx Hmx) as [Hdlo Hdhi]. fold d in Hdlo, Hdhi.
  assert (bpow (d - 1) <= x * bpow (- ex) < bpow d) as [Hxlo Hxhi].
  { rewrite <- (IZR_pow2 (d - 1)), <- (IZR_pow2 d) by lia. split.
    - apply IZR_le in Hdlo. lra.
    - assert (mx + 1 <= 2 ^ d)%Z as H1 by lia. apply IZR_le in H1.
      rewrite plus_IZR in H1. lra. }
  assert (t1 = x * bpow (- ex) * bpow (- (d - 24))) as Ht1.
  { subst t1 e1. rewrite Rmult_assoc, <- bpow_add. f_equal. f_equal. lia. }
  assert (bpow 23 <= t1 < bpow 24) as [Htlo Hthi].
  { assert (bpow 23 = bpow (d - 1) * bpow (- (d - 24))) as ->
      by (rewrite <- bpow_add; f_equal; lia).
    assert (bpow 24 = bpow d * bpow (- (d - 24))) as ->
      by (rewrite <- bpow_add; f_equal; lia).
    rewrite Ht1. pose proof (bpow_pos (- (d - 24))). split.
    - apply Rmult_le_compat_r; lra.
    - apply Rmult_lt_compat_r; lra. }
  (* the shifted mantissa has 24 digits *)
  pose proof (inbetween_bounds _ _ _ Hin1) as [Hm1lo Hm1hi].
  assert (2 ^ 23 <= m1 < 2 ^ 24)%Z as Hm1r.
  { rewrite (bpow_IZR 23), (bpow_IZR 24) in * by lia. split.
    - assert (2 ^ 23 - 1 < m1)%Z; [|lia]. apply lt_IZR.
      rewrite minus_IZR. lra.
    - apply lt_IZR. lra. }
  (* rounding *)
  destruct (round_nearest_even_correct m1 l1 t1 Hin1) as (Hr & Herr & _).
  set (m1' := round_nearest_even m1 l1) in *.
  (* the value of the result and its error *)
  assert (x = t1 * bpow e1) as Hx by (subst t1; by rewrite bpow_cancel).
  assert (bpow e1 * / 2 <= x * bpow (-24)) as Hulp.
  { replace (bpow e1 * / 2) with (bpow 23 * bpow e1 * bpow (-24)).
    - pose proof (bpow_pos (-24)). pose proof (bpow_pos e1). rewrite Hx.
      apply Rmult_le_compat_r; [lra|]. apply Rmult_le_compat_r; lra.
    - rewrite <- bpow_m1, (Rmult_comm (bpow 23)), Rmult_assoc, <- !bpow_add.
      reflexivity. }
  assert (Rabs (IZR m1' * bpow e1 - x) <= x * bpow (-24)) as Herr1.
  { rewrite Hx at 1. replace (IZR m1' * bpow e1 - t1 * bpow e1)
      with ((IZR m1' - t1) * bpow e1) by ring.
    rewrite Rabs_mult, (Rabs_pos_eq (bpow e1)) by (pose proof (bpow_pos e1); lra).
    pose proof (bpow_pos e1). nra. }
  assert ((exists k : Z, t1 = IZR k) -> IZR m1' * bpow e1 = x) as Hexact.
  { intros [k Hk]. rewrite Hx. f_equal. rewrite Hk in *.
    rewrite <- minus_IZR in Herr. apply Rabs_le_bounds in Herr.
    assert (-1 < m1' - k < 1)%Z as Hk1.
    { split; apply lt_IZR; lra. }
    f_equal. lia. }
  (* the second shift *)
  destruct (Z.eq_dec m1' (2 ^ 24)%Z) as [Hcarry|Hnocarry].
  - (* the rounding carried into the next binade *)
    rewrite Hcarry. change (2 ^ 24)%Z with 16777216%Z.
    change (Zdigits2 16777216) with 25%Z.
    rewrite (fexp_normal (25 + e1)) by lia.
    replace (25 + e1 - 24 - e1)%Z with 1%Z by lia.
    change (shr (shr_record_of_loc 16777216 loc_Exact) e1 1)
      with ({| shr_m := 8388608; shr_r := false; shr_s := false |}, (e1 + 1)%Z).
    cbn [shr_m]. change (emax - prec)%Z with 104%Z.
    assert (e1 + 1 <= 104)%Z as Hle.
    { assert (IZR (2 ^ 24) * bpow e1 <= x + x * bpow (-24)) as Hb.
      { rewrite <- Hcarry. apply Rabs_le_bounds in Herr1. lra. }
      rewrite IZR_pow2 in Hb by lia.
      assert (bpow (24 + e1) < bpow 128); [|apply bpow_lt_inv in H; lia].
      rewrite bpow_add.
      assert (x * bpow (-24) <= bpow 127 * bpow (-24))
        by (pose proof (bpow_pos (-24)); nra).
      rewrite <- bpow_add in H. change (127 + -24)%Z with 103%Z in H.
      pose proof (bpow_lt 103 127 ltac:(lia)).
      pose proof (bpow_lt 127 128 ltac:(lia)).
      assert (bpow 128 = 2 * bpow 127)
        by (rewrite <- bpow_1, <- bpow_add; reflexivity).
      lra. }
    destruct (e1 + 1 <=? 104)%Z eqn:E; [|lia].
    exists 8388608%positive, (e1 + 1)%Z.
    assert (IZR (Z.pos 8388608) * bpow (e1 + 1) = IZR m1' * bpow e1) as Hval.
    { rewrite Hcarry, bpow_add, bpow_1.
      change (Z.pos 8388608) with (2 ^ 23)%Z.
      rewrite !IZR_pow2 by lia.
      replace (bpow 24) with (bpow 23 * 2)
        by (rewrite <- bpow_1, <- bpow_add; reflexivity).
      ring. }
    rewrite Hval. repeat split; try assumption; try lia.
  - (* no carry *)
    assert (2 ^ 23 <= m1' < 2 ^ 24)%Z as Hm1'r by lia.
    rewrite (Zdigits2_unique m1' 24) by (simpl; lia).
    rewrite (fexp_normal (24 + e1)) by lia.
    replace (24 + e1 - 24 - e1)%Z with 0%Z by lia.
    change (shr (shr_record_of_loc m1' loc_Exact) e1 0)
      with (shr_record_of_loc m1' loc_Exact, e1).
    cbn [shr_record_of_loc shr_m]. change (emax - prec)%Z with 104%Z.
    destruct m1' as [|p|p] eqn:Ep; try lia.
    assert (e1 <= 104)%Z as Hle.
    { assert (bpow (23 + e1) <= x + x * bpow (-24)) as Hb.
      { apply Rabs_le_bounds in Herr1.
        apply Rle_trans with (IZR (Z.pos p) * bpow e1); [|lra].
        rewrite bpow_add, <- IZR_pow2 by lia.
        pose proof (bpow_pos e1). assert (IZR (2 ^ 23) <= IZR (Z.pos p))
          by (apply IZR_le; lia). nra. }
      assert (bpow (23 + e1) < bpow 128); [|apply bpow_lt_inv in H; lia].
      assert (x * bpow (-24) <= bpow 127 * bpow (-24))
        by (pose proof (bpow_pos (-24)); nra).
      rewrite <- bpow_add in H. change (127 + -24)%Z with 103%Z in H.
      pose proof (bpow_lt 103 127 ltac:(lia)).
      assert (bpow 128 = 2 * bpow 127)
        by (rewrite <- bpow_1, <- bpow_add; reflexivity).
      lra. }
    destruct (e1 <=? 104)%Z eqn:E; [|lia].
    exists p, e1. repeat split; try assumption; try lia.
Qed.

(** ** Division and multiplication *)

Lemma new_location_correct (n k : Z) :
  (0 <= k < n)%Z -> inbetween 0 (new_location n k) (IZR k / IZR n).
Proof.
  intros [Hk Hn].
  assert (0 < IZR n) as Hn' by (apply IZR_lt; lia).
  assert (forall c : Z, IZR c / IZR n * IZR n = IZR c) as Hmul
    by (intros c; field; lra).
  assert ((2 * k < n)%Z -> (k <> 0)%Z -> 0 < IZR k / IZR n < 0 + / 2) as HLt.
  { intros H1 H2. apply IZR_lt in H1. rewrite mult_IZR in H1.
    assert (0 < IZR k) by (apply IZR_lt; lia).
    split.
    - apply Rdiv_lt_0_compat; lra.
    - apply Rmult_lt_reg_r with (IZR n); [lra|]. rewrite Hmul. lra. }
  assert ((n < 2 * k)%Z -> 0 + / 2 < IZR k / IZR n < 0 + 1) as HGt.
  { intros H1. apply IZR_lt in H1. rewrite mult_IZR in H1.
    apply IZR_lt in Hn. split.
    - apply Rmult_lt_reg_r with (IZR n); [lra|]. rewrite Hmul. lra.
    - apply Rmult_lt_reg_r with (IZR n); [lra|]. rewrite Hmul. lra. }
  unfold new_location, new_location_even, new_location_odd.
  destruct (Z.even n) eqn:Heven.
  - destruct (Z.eqb_spec k 0) as [->|Hk0]; [simpl; lra|].
    destruct (Z.compare_spec (2 * k) n) as [He|Hl|Hg]; simpl.
    + apply Rmult_eq_reg_r with (IZR n); [|lra]. rewrite Hmul.
      rewrite <- He, mult_IZR. lra.
    + apply HLt; assumption.
    + apply HGt; assumption.
  - assert (Z.odd n = true) as Hodd by (rewrite <- Z.negb_even, Heven; reflexivity).
    apply Z.odd_spec in Hodd as [h Hh].
    destruct (Z.eqb_spec k 0) as [->|Hk0]; [simpl; lra|].
    destruct (Z.compare_spec (2 * k + 1) n) as [He|Hl|Hg]; simpl.
    + apply HLt; [lia | assumption].
    + apply HLt; [lia | assumption].
    + apply HGt. lia.
Qed.

Lemma inbetween_shift (q : Z) (l : location) (t : R) :
  inbetween 0 l t -> inbetween q l (IZR q + t).
Proof. destruct l as [|[]]; simpl; lra. Qed.

(** The exponent of a normal mantissa, from bounds on the value. *)
Lemma exponent_bounds (m : positive) (e a b : Z) :
  (2 ^ 23 <= Z.pos m < 2 ^ 24)%Z ->
  bpow a < IZR (Z.pos m) * bpow e < bpow b ->
  (a - 23 <= e <= b - 24)%Z.
Proof.
  intros [Hlo Hhi] [Ha Hb].
  apply IZR_le in Hlo. apply IZR_lt in Hhi. rewrite IZR_pow2 in Hlo, Hhi by lia.
  pose proof (bpow_pos e) as He.
  assert (bpow a < bpow (24 + e)) as H1 by (rewrite bpow_add; nra).
  assert (bpow (23 + e) < bpow b) as H2 by (rewrite bpow_add; nra).
  apply bpow_lt_inv in H1, H2. lia.
Qed.

(** The quotient of two normal magnitudes lies within a factor 2 of the
    power of two of the exponent difference. *)
Lemma quotient_bounds (mx my : positive) (ex ey : Z) :
  (2 ^ 23 <= Z.pos mx < 2 ^ 24)%Z -> (2 ^ 23 <= Z.pos my < 2 ^ 24)%Z ->
  bpow (ex - ey - 1)
  < IZR (Z.pos mx) * bpow ex / (IZR (Z.pos my) * bpow ey)
  < bpow (ex - ey + 1).
Proof.
  intros [Hxl Hxh] [Hyl Hyh].
  apply IZR_le in Hxl, Hyl. apply IZR_lt in Hxh, Hyh.
  rewrite IZR_pow2 in Hxl, Hxh, Hyl, Hyh by lia.
  pose proof (bpow_pos ex) as Hex. pose proof (bpow_pos ey) as Hey.
  pose proof (bpow_pos 23) as H23.
  assert (0 < IZR (Z.pos my) * bpow ey) as Hden by nra.
  assert (bpow 24 = 2 * bpow 23) as E24
    by (change 24%Z with (1 + 23)%Z; rewrite bpow_add, bpow_1; reflexivity).
  assert (bpow ex = bpow (ex - ey) * bpow ey) as Eex
    by (rewrite <- bpow_add; f_equal; lia).
  pose proof (bpow_pos (ex - ey)) as Hd.
  assert (bpow (ex - ey - 1) = bpow (ex - ey) * / 2) as Em
    by (replace (ex - ey - 1)%Z with (ex - ey + -1)%Z by lia;
        rewrite bpow_add, bpow_m1; reflexivity).
  assert (bpow (ex - ey + 1) = bpow (ex - ey) * 2) as Ep
    by (rewrite bpow_add, bpow_1; reflexivity).
  assert (IZR (Z.pos mx) * bpow ex / (IZR (Z.pos my) * bpow ey)
          * (IZR (Z.pos my) * bpow ey) = IZR (Z.pos mx) * bpow ex) as HX
    by (field; lra).
  rewrite Em, Ep. split.
  - apply Rmult_lt_reg_r with (IZR (Z.pos my) * bpow ey); [exact Hden|].
    rewrite HX, Eex. nra.
  - apply Rmult_lt_reg_r with (IZR (Z.pos my) * bpow ey); [exact Hden|].
    rewrite HX, Eex. nra.
Qed.


Lemma SFdiv_core_binary_normal (mx my : positive) (ex ey : Z) :
  (2 ^ 23 <= Z.pos mx < 2 ^ 24)%Z -> (2 ^ 23 <= Z.pos my < 2 ^ 24)%Z ->
  (-125 <= ex - ey)%Z ->
  SFdiv_core_binary prec emax (Z.pos mx) ex (Z.pos my) ey
  = ((Z.pos mx * 2 ^ 24) / Z.pos my, (ex - ey - 24)%Z,
     new_location (Z.pos my) ((Z.pos mx * 2 ^ 24) mod Z.pos my))%Z.
Proof.
  intros Hx Hy He. unfold SFdiv_core_binary.
  rewrite (Zdigits2_unique (Z.pos mx) 24), (Zdigits2_unique (Z.pos my) 24)
    by (simpl; lia).
  rewrite fexp_normal by lia.
  replace (Z.min (24 + ex - (24 + ey) - 24) (ex - ey))%Z with (ex - ey - 24)%Z
    by lia.
  replace (ex - ey - (ex - ey - 24))%Z with 24%Z by lia.
  rewrite Z.shiftl_mul_pow2 by lia.
  unfold Z.div, Z.modulo.
  destruct (Z.div_eucl (Z.pos mx * 2 ^ 24) (Z.pos my)) as [q r]. reflexivity.
Qed.

(** Division of normal numbers whose quotient is in the normal range: the
    result is normal and within relative error [2^-24] of the quotient. *)
Lemma div_correct (sx sy : bool) (mx my : positive) (ex ey : Z) :
  (2 ^ 23 <= Z.pos mx < 2 ^ 24)%Z -> (2 ^ 23 <= Z.pos my < 2 ^ 24)%Z ->
  (-125 <= ex - ey <= 125)%Z ->
  exists m e,
    div (S754_finite sx mx ex) (S754_finite sy my ey)
    = S754_finite (xorb sx sy) m e /\
    (2 ^ 23 <= Z.pos m < 2 ^ 24)%Z /\
    (ex - ey - 25 <= e <= ex - ey - 22)%Z /\
    Rabs (IZR (Z.pos m) * bpow e
          - IZR (Z.pos mx) * bpow ex / (IZR (Z.pos my) * bpow ey))
    <= IZR (Z.pos mx) * bpow ex / (IZR (Z.pos my) * bpow ey) * bpow (-24).
Proof.
  intros Hx Hy He.
  set (x := IZR (Z.pos mx) * bpow ex / (IZR (Z.pos my) * bpow ey)).
  pose proof (quotient_bounds mx my ex ey Hx Hy) as Hq. fold x in Hq.
  set (N := (Z.pos mx * 2 ^ 24)%Z).
  set (q := (N / Z.pos my)%Z). set (r := (N mod Z.pos my)%Z).
  assert (N = Z.pos my * q + r)%Z as HN by (apply Z.div_mod; lia).
  assert (0 <= r < Z.pos my)%Z as Hr by (apply Z.mod_pos_bound; lia).
  assert (2 ^ 23 <= q)%Z as Hqlo.
  { apply Z.div_le_lower_bound; [lia|]. unfold N.
    change (2 ^ 24)%Z with (2 * 2 ^ 23)%Z. nia. }
  assert (0 < IZR (Z.pos my)) as Hmy by (apply IZR_lt; lia).
  pose proof (bpow_pos ex) as Hbx. pose proof (bpow_pos ey) as Hby.
  assert (x * bpow (- (ex - ey - 24)) = IZR q + IZR r / IZR (Z.pos my)) as Hval.
  { assert (IZR N = IZR (Z.pos my) * IZR q + IZR r) as HN'
      by (rewrite HN, plus_IZR, mult_IZR; reflexivity).
    unfold N in HN'. rewrite mult_IZR, IZR_pow2 in HN' by lia.
    replace (- (ex - ey - 24))%Z with (24 + ey + - ex)%Z by lia.
    rewrite !bpow_add, bpow_opp. unfold x. field_simplify; [|lra|lra].
    rewrite <- HN'. field. lra. }
  unfold div, SFdiv. rewrite SFdiv_core_binary_normal by (assumption || lia).
  fold N. fold q. fold r.
  destruct (binary_round_aux_correct (xorb sx sy) q (ex - ey - 24)
              (new_location (Z.pos my) r) x) as (m & e & Hres & Hm & _ & Herr & _).
  - lia.
  - rewrite Hval. apply inbetween_shift, new_location_correct. exact Hr.
  - pose proof (Zdigits2_bounds q ltac:(lia)) as [_ Hd].
    destruct (Z.le_gt_cases 24 (Zdigits2 q)) as [|Hlt]; [assumption|].
    pose proof (Z.pow_le_mono_r 2 (Zdigits2 q) 23 ltac:(lia) ltac:(lia)). lia.
  - pose proof (Zdigits2_bounds q ltac:(lia)) as [_ Hd].
    destruct (Z.le_gt_cases 24 (Zdigits2 q)) as [|Hlt]; [lia|].
    pose proof (Z.pow_le_mono_r 2 (Zdigits2 q) 23 ltac:(lia) ltac:(lia)). lia.
  - pose proof (bpow_le (ex - ey + 1) 127 ltac:(lia)). lra.
  - exists m, e. split; [exact Hres|]. split; [exact Hm|]. split; [|exact Herr].
    pose proof (bpow_pos (ex - ey - 1)) as Hpos.
    assert (0 < x) as Hx0 by lra.
    apply Rabs_le_bounds in Herr.
    assert (bpow (-24) <= / 2) as H24.
    { rewrite <- bpow_m1. apply bpow_le. lia. }
    pose proof (bpow_pos (-24)) as H24'.
    assert (bpow (ex - ey - 2) < IZR (Z.pos m) * bpow e < bpow (ex - ey + 2))
      as Hrange.
    { assert (bpow (ex - ey - 2) = bpow (ex - ey - 1) * / 2) as ->.
      { rewrite <- bpow_m1, <- bpow_add. f_equal. lia. }
      assert (bpow (ex - ey + 2) = bpow (ex - ey + 1) * 2) as ->.
      { rewrite <- bpow_1, <- bpow_add. f_equal. lia. }
      split; nra. }
    pose proof (exponent_bounds m e _ _ Hm Hrange). lia.
Qed.

(** Multiplication of normal numbers whose product is in the normal range. *)
Lemma mul_correct (sx sy : bool) (mx my : positive) (ex ey : Z) :
  (2 ^ 23 <= Z.pos mx < 2 ^ 24)%Z -> (2 ^ 23 <= Z.pos my < 2 ^ 24)%Z ->
  (-172 <= ex + ey <= 79)%Z ->
  exists m e,
    mul (S754_finite sx mx ex) (S754_finite sy my ey)
    = S754_finite (xorb sx sy) m e /\
    (2 ^ 23 <= Z.pos m < 2 ^ 24)%Z /\
    (ex + ey + 22 <= e <= ex + ey + 25)%Z /\
    Rabs (IZR (Z.pos m) * bpow e
          - IZR (Z.pos mx) * bpow ex * (IZR (Z.pos my) * bpow ey))
    <= IZR (Z.pos mx) * bpow ex * (IZR (Z.pos my) * bpow ey) * bpow (-24).
Proof.
  intros Hx Hy He.
  set (x := IZR (Z.pos mx) * bpow ex * (IZR (Z.pos my) * bpow ey)).
  assert (2 ^ 46 <= Z.pos (mx * my) < 2 ^ 48)%Z as Hp.
  { rewrite Pos2Z.inj_mul.
    change (2 ^ 46)%Z with (2 ^ 23 * 2 ^ 23)%Z.
    change (2 ^ 48)%Z with (2 ^ 24 * 2 ^ 24)%Z. nia. }
  assert (x = IZR (Z.pos (mx * my)) * bpow (ex + ey)) as Hx'.
  { unfold x. rewrite Pos2Z.inj_mul, mult_IZR, bpow_add. ring. }
  assert (bpow (46 + (ex + ey)) <= x < bpow (48 + (ex + ey))) as Hxr.
  { destruct Hp as [Hlo Hhi]. apply IZR_le in Hlo. apply IZR_lt in Hhi.
    rewrite IZR_pow2 in Hlo, Hhi by lia.
    rewrite Hx', !(bpow_add _ (ex + ey)). pose proof (bpow_pos (ex + ey)).
    split; nra. }
  assert (47 <= Zdigits2 (Z.pos (mx * my)))%Z as Hd.
  { pose proof (Zdigits2_bounds (Z.pos (mx * my)) ltac:(lia)) as [_ Hd].
    destruct (Z.le_gt_cases 47 (Zdigits2 (Z.pos (mx * my)))) as [|Hlt];
      [assumption|].
    pose proof (Z.pow_le_mono_r 2 (Zdigits2 (Z.pos (mx * my))) 46
                  ltac:(lia) ltac:(lia)). lia. }
  unfold mul, SFmul.
  destruct (binary_round_aux_correct (xorb sx sy) (Z.pos (mx * my)) (ex + ey)
              loc_Exact x) as (m & e & Hres & Hm & _ & Herr & _).
  - lia.
  - simpl. rewrite Hx', Rmult_assoc, <- bpow_add.
    replace (ex + ey + - (ex + ey))%Z with 0%Z by lia. rewrite bpow_0. ring.
  - lia.
  - lia.
  - pose proof (bpow_le (48 + (ex + ey)) 127 ltac:(lia)). lra.
  - exists m, e. split; [exact Hres|]. split; [exact Hm|]. split; [|exact Herr].
    pose proof (bpow_pos (46 + (ex + ey))) as Hpos.
    apply Rabs_le_bounds in Herr.
    assert (bpow (-24) < / 2) as H24.
    { rewrite <- bpow_m1. apply bpow_lt. lia. }
    pose proof (bpow_pos (-24)) as H24'.
    assert (bpow (45 + (ex + ey)) < IZR (Z.pos m) * bpow e
            < bpow (49 + (ex + ey))) as Hrange.
    { assert (bpow (45 + (ex + ey)) = bpow (46 + (ex + ey)) * / 2) as ->.
      { rewrite <- bpow_m1, <- bpow_add. f_equal. lia. }
      assert (bpow (49 + (ex + ey)) = bpow (48 + (ex + ey)) * 2) as ->.
      { rewrite <- bpow_1, <- bpow_add. f_equal. lia. }
      assert (0 < x) as Hx0 by lra.
      assert (x * bpow (-24) < x * / 2) as Hhalf
        by (apply Rmult_lt_compat_l; lra).
      split; lra. }
    pose proof (exponent_bounds m e _ _ Hm Hrange). lia.
Qed.

(** The order of positive normal numbers is the order of their values. *)
Lemma ltb_correct (mx my : positive) (ex ey : Z) :
  (2 ^ 23 <= Z.pos mx < 2 ^ 24)%Z -> (2 ^ 23 <= Z.pos my < 2 ^ 24)%Z ->
  IZR (Z.pos mx) * bpow ex < IZR (Z.pos my) * bpow ey ->
  ltb (S754_finite false mx ex) (S754_finite false my ey) = true.
Proof.
  intros [Hxl Hxh] [Hyl Hyh] Hlt.
  unfold ltb, SFltb, SFcompare.
  destruct (Z.compare_spec ex ey) as [->|He|He].
  - pose proof (bpow_pos ey).
    assert (IZR (Z.pos mx) < IZR (Z.pos my)) as Hm by nra.
    apply lt_IZR in Hm. fold (Pos.compare mx my).
    rewrite (proj2 (Pos.compare_lt_iff mx my)); [reflexivity | lia].
  - reflexivity.
  - exfalso.
    apply IZR_le in Hxl. apply IZR_lt in Hyh.
    rewrite IZR_pow2 in Hxl, Hyh by lia.
    pose proof (bpow_le (ey + 1) ex ltac:(lia)) as Hle.
    rewrite bpow_add, bpow_1 in Hle.
    pose proof (bpow_pos ey). pose proof (bpow_pos ex). pose proof (bpow_pos 23).
    assert (bpow 24 = 2 * bpow 23) as E24
      by (change 24%Z with (1 + 23)%Z; rewrite bpow_add, bpow_1; reflexivity).
    nra.
Qed.

(** ** Exact cases *)

(** A 24-digit mantissa located exactly is returned as it is. *)
Lemma binary_round_aux_exact (s : bool) (m : positive) (e : Z) :
  (2 ^ 23 <= Z.pos m < 2 ^ 24)%Z -> (-149 <= e <= 104)%Z ->
  binary_round_aux prec emax s (Z.pos m) e loc_Exact = S754_finite s m e.
Proof.
  intros Hm He.
  assert (Zdigits2 (Z.pos m) = 24%Z) as Hd
    by (apply Zdigits2_unique; simpl; lia).
  unfold binary_round_aux, shr_fexp. rewrite Hd.
  rewrite (fexp_normal (24 + e)) by lia.
  replace (24 + e - 24 - e)%Z with 0%Z by lia.
  change (shr (shr_record_of_loc (Z.pos m) loc_Exact) e 0)
    with (shr_record_of_loc (Z.pos m) loc_Exact, e).
  cbn [shr_record_of_loc shr_m loc_of_shr_record round_nearest_even].
  rewrite Hd. rewrite (fexp_normal (24 + e)) by lia.
  replace (24 + e - 24 - e)%Z with 0%Z by lia.
  cbn [shr shr_m]. change (emax - prec)%Z with 104%Z.
  destruct (e <=? 104)%Z eqn:E; [reflexivity|lia].
Qed.

Lemma iter_xO (m k : positive) :
  Z.pos (Pos.iter xO m k) = (Z.pos m * 2 ^ Z.pos k)%Z.
Proof.
  rewrite <- Z.shiftl_mul_pow2 by lia. unfold Z.shiftl.
  apply (Pos.iter_swap_gen _ _ Z.pos xO (Z.mul 2)). reflexivity.
Qed.

(** [(float) z] for [0 < |z| < 2^24]: a normal number of the sign of [z]
    with the magnitude [|z|]. *)
Lemma of_Z_exact (z : Z) :
  (0 < Z.abs z < 2 ^ 24)%Z ->
  exists m e,
    of_Z z = S754_finite (z <? 0)%Z m e /\
    (2 ^ 23 <= Z.pos m < 2 ^ 24)%Z /\ (-23 <= e <= 0)%Z /\
    Z.pos m = (Z.abs z * 2 ^ (- e))%Z.
Proof.
  intros Hz.
  assert (forall (s : bool) (p : positive), (Z.pos p < 2 ^ 24)%Z ->
            exists m e,
              binary_round prec emax s p 0 = S754_finite s m e /\
              (2 ^ 23 <= Z.pos m < 2 ^ 24)%Z /\ (-23 <= e <= 0)%Z /\
              Z.pos m = (Z.pos p * 2 ^ (- e))%Z) as Hround.
  { intros s p Hp. unfold binary_round.
    pose proof (digits2_pos_bounds p) as [Hlo Hhi].
    set (d := Z.pos (digits2_pos p)) in *.
    assert (0 < d <= 24)%Z as Hd.
    { split; [subst d; lia|].
      destruct (Z_le_gt_dec d 24) as [|Hgt]; [assumption|].
      pose proof (Z.pow_le_mono_r 2 24 (d - 1) ltac:(lia) ltac:(lia)). lia. }
    rewrite Z.add_0_r. rewrite (fexp_normal d) by lia.
    unfold shl_align. rewrite Z.sub_0_r.
    destruct (d - 24)%Z as [|k|k] eqn:Ek; [|lia|].
    - assert (d = 24%Z) as Hd24 by lia. rewrite Hd24 in Hlo, Hhi.
      exists p, 0%Z. rewrite binary_round_aux_exact by (simpl in *; lia).
      repeat split; simpl in *; lia.
    - assert (Z.pos (Pos.iter xO p k) = Z.pos p * 2 ^ Z.pos k)%Z as Hm
        by apply iter_xO.
      assert (d + Z.pos k = 24)%Z as Hk by lia.
      pose proof (Z.pow_pos_nonneg 2 (Z.pos k) ltac:(lia) ltac:(lia)) as Hpk.
      assert (2 ^ 23 <= Z.pos (Pos.iter xO p k) < 2 ^ 24)%Z as Hn.
      { rewrite Hm. split.
        - replace 23%Z with (d - 1 + Z.pos k)%Z by lia.
          rewrite Z.pow_add_r by lia. nia.
        - replace 24%Z with (d + Z.pos k)%Z by lia.
          rewrite Z.pow_add_r by lia. nia. }
      exists (Pos.iter xO p k), (Z.neg k).
      rewrite binary_round_aux_exact by (assumption || lia).
      repeat split; try apply Hn; try lia. exact Hm. }
  destruct z as [|p|p]; [simpl in Hz; lia| |];
    unfold of_Z, binary_normalize; apply Hround; simpl in Hz; lia.
Qed.

(** [(float) q] for [0 < q < 2^24]: a normal number with the value [q]. *)
Lemma of_Z_pos_exact (q : Z) :
  (0 < q < 2 ^ 24)%Z ->
  exists m e,
    of_Z q = S754_finite false m e /\
    (2 ^ 23 <= Z.pos m < 2 ^ 24)%Z /\ (-23 <= e <= 0)%Z /\
    Z.pos m = (q * 2 ^ (- e))%Z.
Proof.
  intros Hq.
  destruct (of_Z_exact q ltac:(lia)) as (m & e & Hof & Hm & He & Hme).
  assert ((q <? 0)%Z = false) as Hs by (apply Z.ltb_ge; lia).
  rewrite Hs in Hof. replace (Z.abs q) with q in Hme by lia.
  exists m, e. repeat split; try assumption; lia.
Qed.

(** [roundf] followed by the conversion to an integer, on a positive normal
    number [x] whose exponent is at most 0: the result is the integer [d]
    with [d - 1/2 <= x < d + 1/2], the nearest integer with halves rounded
    up. *)
Lemma roundf_to_Z_pos (M : positive) (E : Z) :
  (2 ^ 23 <= Z.pos M < 2 ^ 24)%Z -> (E <= 0)%Z ->
  (0 <= to_Z (roundf (S754_finite false M E)) <= 2 ^ 24)%Z /\
  IZR (to_Z (roundf (S754_finite false M E))) - / 2
  <= IZR (Z.pos M) * bpow E
  < IZR (to_Z (roundf (S754_finite false M E))) + / 2.
Proof.
  intros HM HE. unfold roundf.
  destruct (Z.leb_spec 0 E) as [H0|Hneg].
  - assert (E = 0%Z) as -> by lia. cbn [to_Z cond_Zopp Z.leb Z.compare].
    rewrite Z.mul_1_r, bpow_0. split; [lia|lra].
  - set (D := (2 ^ (- E))%Z).
    assert (2 <= D)%Z as HD.
    { unfold D. change 2%Z with (2 ^ 1)%Z at 1.
      apply Z.pow_le_mono_r; lia. }
    set (q := (Z.pos M / D)%Z). set (r := (Z.pos M mod D)%Z).
    assert (Z.pos M = D * q + r)%Z as Hdiv by (apply Z.div_mod; lia).
    assert (0 <= r < D)%Z as Hr by (apply Z.mod_pos_bound; lia).
    assert (0 <= q)%Z as Hq0 by (apply Z.div_pos; lia).
    assert (q < 2 ^ 23)%Z as Hq.
    { apply Z.div_lt_upper_bound; [lia|].
      change (2 ^ 24)%Z with (2 * 2 ^ 23)%Z in HM. nia. }
    assert (IZR (Z.pos M) * bpow E = IZR q + IZR r / IZR D) as Hx.
    { rewrite Hdiv, plus_IZR, mult_IZR.
      replace E with (- - E)%Z by lia. rewrite bpow_opp.
      rewrite <- IZR_pow2 by lia. fold D.
      assert (0 < IZR D) by (apply IZR_lt; lia). field. lra. }
    assert (0 < IZR D) as HD' by (apply IZR_lt; lia).
    assert (0 <= IZR r / IZR D < 1) as Hfrac.
    { split.
      - apply Rmult_le_pos; [apply IZR_le; lia|].
        apply Rlt_le, Rinv_0_lt_compat, HD'.
      - apply Rmult_lt_reg_r with (IZR D); [exact HD'|].
        unfold Rdiv. rewrite Rmult_assoc, Rinv_l, Rmult_1_r, Rmult_1_l by lra.
        apply IZR_lt. lia. }
    set (q' := if (D <=? 2 * r)%Z then (q + 1)%Z else q).
    assert (0 <= q' < 2 ^ 24)%Z as Hq'.
    { unfold q'. destruct (D <=? 2 * r)%Z; lia. }
    assert (IZR q' - / 2 <= IZR q + IZR r / IZR D < IZR q' + / 2) as Hnear.
    { unfold q'. destruct (Z.leb_spec D (2 * r)) as [Hge|Hlt].
      - rewrite plus_IZR. apply IZR_le in Hge. rewrite mult_IZR in Hge.
        assert (/ 2 <= IZR r / IZR D).
        { apply Rmult_le_reg_r with (IZR D); [exact HD'|].
          unfold Rdiv. rewrite Rmult_assoc, Rinv_l, Rmult_1_r by lra. lra. }
        lra.
      - apply IZR_lt in Hlt. rewrite mult_IZR in Hlt.
        assert (IZR r / IZR D < / 2).
        { apply Rmult_lt_reg_r with (IZR D); [exact HD'|].
          unfold Rdiv. rewrite Rmult_assoc, Rinv_l, Rmult_1_r by lra. lra. }
        lra. }
    assert (to_Z (if (q' =? 0)%Z then S754_zero false
                  else binary_normalize prec emax (cond_Zopp false q') 0 false)
            = q') as Hto.
    { destruct (Z.eqb_spec q' 0) as [->|Hne]; [reflexivity|].
      cbn [cond_Zopp]. fold (of_Z q').
      destruct (of_Z_pos_exact q' ltac:(lia)) as (m & e & -> & Hm & He & Hme).
      cbn [to_Z cond_Zopp].
      destruct (Z.leb_spec 0 e) as [He0|Hen].
      - assert (e = 0%Z) as -> by lia. simpl in Hme. lia.
      - rewrite Hme. apply Z.div_mul.
        pose proof (Z.pow_pos_nonneg 2 (- e) ltac:(lia) ltac:(lia)). lia. }
    fold D q r q'. rewrite Hto, Hx. split; [lia|exact Hnear].
Qed.

(** [roundf] and the conversion to an integer commute with the sign. *)
Lemma roundf_to_Z_sign (s : bool) (M : positive) (E : Z) :
  (2 ^ 23 <= Z.pos M < 2 ^ 24)%Z -> (E <= 0)%Z ->
  to_Z (roundf (S754_finite s M E))
  = cond_Zopp s (to_Z (roundf (S754_finite false M E))).
Proof.
  intros HM HE. destruct s; [|reflexivity].
  unfold roundf.
  destruct (Z.leb_spec 0 E) as [H0|Hneg]; [reflexivity|].
  set (D := (2 ^ (- E))%Z).
  assert (2 <= D)%Z as HD.
  { unfold D. change 2%Z with (2 ^ 1)%Z at 1. apply Z.pow_le_mono_r; lia. }
  set (q := (Z.pos M / D)%Z). set (r := (Z.pos M mod D)%Z).
  assert (0 <= q)%Z as Hq0 by (apply Z.div_pos; lia).
  assert (q < 2 ^ 23)%Z as Hq.
  { apply Z.div_lt_upper_bound; [lia|].
    change (2 ^ 24)%Z with (2 * 2 ^ 23)%Z in HM. nia. }
  set (q' := if (D <=? 2 * r)%Z then (q + 1)%Z else q).
  assert (0 <= q' < 2 ^ 24)%Z as Hq'.
  { unfold q'. destruct (D <=? 2 * r)%Z; lia. }
  destruct (Z.eqb_spec q' 0) as [->|Hne]; [reflexivity|].
  assert (forall t : bool,
            to_Z (binary_normalize prec emax (cond_Zopp t q') 0 t)
            = cond_Zopp t q') as Hto.
  { intros t.
    assert (binary_normalize prec emax (cond_Zopp t q') 0 t
            = of_Z (cond_Zopp t q')) as ->.
    { unfold of_Z. destruct t; simpl; destruct q'; try lia; reflexivity. }
    destruct (of_Z_exact (cond_Zopp t q')) as (m & e & Hof & Hm & He & Hme).
    { destruct t; simpl; lia. }
    assert (to_Z (S754_finite (cond_Zopp t q' <? 0)%Z m e)
            = cond_Zopp t q') as Hval.
    { cbn [to_Z].
      assert ((if (0 <=? e)%Z then (Z.pos m * 2 ^ e)%Z
               else (Z.pos m / 2 ^ (- e))%Z) = Z.abs (cond_Zopp t q')) as ->.
      { destruct (Z.leb_spec 0 e) as [He0|Hen].
        - assert (e = 0%Z) as -> by lia. simpl in Hme. simpl. lia.
        - rewrite Hme. apply Z.div_mul.
          pose proof (Z.pow_pos_nonneg 2 (- e) ltac:(lia) ltac:(lia)). lia. }
      destruct t; simpl.
      - destruct (Z.ltb_spec (- q') 0); simpl; lia.
      - destruct (Z.ltb_spec q' 0); simpl; lia. }
    rewrite Hof. exact Hval. }
  rewrite (Hto true), (Hto false). reflexivity.
Qed.

(** A positive normal number is not below one of at most its value. *)
Lemma ltb_ge_false (mx my : positive) (ex ey : Z) :
  (2 ^ 23 <= Z.pos mx < 2 ^ 24)%Z -> (2 ^ 23 <= Z.pos my < 2 ^ 24)%Z ->
  IZR (Z.pos my) * bpow ey <= IZR (Z.pos mx) * bpow ex ->
  ltb (S754_finite false mx ex) (S754_finite false my ey) = false.
Proof.
  intros [Hxl Hxh] [Hyl Hyh] Hle.
  unfold ltb, SFltb, SFcompare.
  destruct (Z.compare_spec ex ey) as [->|He|He].
  - pose proof (bpow_pos ey).
    assert (IZR (Z.pos my) <= IZR (Z.pos mx)) as Hm by nra.
    apply le_IZR in Hm. fold (Pos.compare mx my).
    destruct (Pos.compare_spec mx my); try reflexivity. lia.
  - exfalso.
    apply IZR_lt in Hxh. apply IZR_le in Hyl.
    rewrite IZR_pow2 in Hxh, Hyl by lia.
    pose proof (bpow_le (ex + 1) ey ltac:(lia)) as Hb.
    rewrite bpow_add, bpow_1 in Hb.
    pose proof (bpow_pos ey). pose proof (bpow_pos ex). pose proof (bpow_pos 23).
    assert (bpow 24 = 2 * bpow 23) as E24
      by (change 24%Z with (1 + 23)%Z; rewrite bpow_add, bpow_1; reflexivity).
    nra.
  - reflexivity.
Qed.

End F32Facts.

(** * Properties of the MIDI player *)

Module PlayerFacts.

Import Synthesizer MidiPlayer Props.

Lemma pgm_read_byte_near_range flash a : 0 <= pgm_read_byte_near flash a <= 255.
Proof.
  unfold pgm_read_byte_near, wrap_uint8.
  pose proof (Z.mod_pos_bound (flash a) 256 ltac:(lia)). lia.
Qed.

Lemma lor_high_low (h l : Z) :
  0 <= h -> 0 <= l < 2 ^ 8 -> Z.lor (Z.shiftl h 8) l = h * 2 ^ 8 + l.
Proof.
  intros Hh Hl. rewrite Z.shiftl_mul_pow2 by lia.
  rewrite <- Z.add_nocarry_lor; [reflexivity|].
  apply Z.bits_inj'. intros k Hk. rewrite Z.land_spec, Z.bits_0.
  destruct (Z.lt_ge_cases k 8) as [Hlt|Hge].
  - rewrite Z.mul_pow2_bits_low by lia. reflexivity.
  - rewrite (Z.bits_above_log2 l k); [apply andb_false_r|lia|].
    destruct (Z.eq_dec l 0) as [->|Hne]; [simpl; lia|].
    pose proof (Z.pow_le_mono_r 2 8 k ltac:(lia) Hge).
    apply Z.log2_lt_pow2; lia.
Qed.

(** The two bytes of a delta-time, high byte first. *)
Lemma pgm_read_uint16_big_endian_bytes (flash : Flash) (a : Z) :
  pgm_read_uint16_big_endian flash a
  = 256 * (flash a mod 256) + flash (a + 1) mod 256.
Proof.
  unfold pgm_read_uint16_big_endian.
  pose proof (pgm_read_byte_near_range flash a) as H0.
  pose proof (pgm_read_byte_near_range flash (a + 1)) as H1.
  rewrite lor_high_low by lia. unfold wrap_uint16.
  rewrite Z.mod_small by lia.
  unfold pgm_read_byte_near, wrap_uint8. lia.
Qed.

Section WithLibm.
Context {libm : Libm}.

(** What [update] does when the deadline has passed and an event is
    left. *)
Lemma update_fires now flash p voices :
  is_playing p = true ->
  next_event_time_ms p <= now ->
  current_event_index p < current_event_count p ->
  update now flash p voices
  = (let p1 := set_current_event_index
                 (wrap_uint16 (current_event_index p + 1)) p in
     let p2 := scheduleNextEvent now flash p1 in
     (is_playing p2, p2, fst (processCurrentEvent flash p voices),
      snd (processCurrentEvent flash p voices))).
Proof.
  intros Hplay Hdue Hleft. unfold update. rewrite Hplay. simpl.
  destruct (next_event_time_ms p <=? now) eqn:E1; [|lia].
  destruct (current_event_count p <=? current_event_index p) eqn:E2; [lia|].
  destruct (processCurrentEvent flash p voices) as [vs msgs]. reflexivity.
Qed.

Lemma scheduleNextEvent_is_playing now flash p :
  is_playing (scheduleNextEvent now flash p) = is_playing p.
Proof.
  unfold scheduleNextEvent.
  destruct (current_event_index p <? current_event_count p); reflexivity.
Qed.

End WithLibm.

End PlayerFacts.


(** * The claims about the voice pool and the render loop *)

Module PoolClaims.

Import Synthesizer Props PoolFacts.

Section WithLibm.
Context {libm : Libm}.


(** C6.  When every slot is active and none plays note [n],
    [startNote n vel] returns the table as it was, and the warning is all
    it prints. *)
Theorem startNote_pool_full (n vel : Z) (voices : list VoiceState) :
  Forall (fun v => isActive v = true /\ midiNoteNumber v <> n) voices ->
  startNote n vel voices = (voices, [WarnNoFreeVoices]).
Proof.
  intros Hall. unfold startNote, stopExisting.
  rewrite findVoicePlayingNote_absent; cycle 1.
  { eapply Forall_impl; [exact Hall|]. intros v [_ Hne] [_ He]. done. }
  rewrite findFreeVoice_full; [reflexivity|].
  eapply Forall_impl; [exact Hall|]. intros v [Ha _]. exact Ha.
Qed.


Lemma mixSum_insert_inactive voices i v v' :
  voices !! i = Some v -> isActive v = false -> isActive v' = false ->
  mixSum (<[i := v']> voices) = mixSum voices.
Proof.
  revert i. induction voices as [|w voices IH]; intros [|i] Hi Ha Ha';
    simplify_eq/=.
  - rewrite Ha, Ha'. reflexivity.
  - rewrite (IH i Hi Ha Ha'). reflexivity.
Qed.

Lemma activeVoices_insert_inactive voices i v v' :
  voices !! i = Some v -> isActive v = false -> isActive v' = false ->
  activeVoices (<[i := v']> voices) = activeVoices voices.
Proof.
  intros Hi Ha Ha'. unfold activeVoices.
  pose proof (count_insert (fun v => isActive v = true) voices i v v' Hi) as Hc.
  unfold indicator in Hc.
  rewrite decide_False in Hc by congruence.
  rewrite decide_False in Hc by congruence. lia.
Qed.

(** C9, as the code has it.  A note-off zeroes the output of the voice it
    stops.  [startNote] only clears [isActive] of a voice it deactivates
    (the voice that played the note already, or the claimed slot when the
    note is rejected) and leaves its [currentOutput] as it was.  In both
    cases the voice is silent on the next mix, because the render loop
    reads the output of active voices only: the sample an iteration
    emits does not depend on the output field of an inactive slot. *)
Theorem deactivated_voice_is_silent (voices : list VoiceState) (n : Z) :
  (forall i, findVoicePlayingNote_unsafe n voices = Some i ->
     exists v', stopNote n voices !! i = Some v' /\
                isActive v' = false /\ currentOutput v' = 0) /\
  (forall vel i v v',
     voices !! i = Some v ->
     fst (startNote n vel voices) !! i = Some v' ->
     isActive v' = false -> currentOutput v' = currentOutput v) /\
  (forall i v c,
     voices !! i = Some v -> isActive v = false ->
     snd (audioTaskIteration (<[i := set_currentOutput c v]> voices))
     = snd (audioTaskIteration voices)).
Proof.
  split; [|split].
  - intros i Hfind. pose proof Hfind as Hfind'.
    apply findVoicePlayingNote_Some in Hfind' as (v & Hi & _).
    exists (set_currentOutput 0 (set_isActive false v)).
    unfold stopNote. rewrite Hfind, list_lookup_alter_eq, Hi. done.
  - intros vel i v v' Hi Hi' Hinactive.
    assert (exists u, stopExisting n voices !! i = Some u /\
                      currentOutput u = currentOutput v) as (u & Hu & Hcu).
    { unfold stopExisting.
      destruct (findVoicePlayingNote_unsafe n voices) as [k|]; [|eauto].
      rewrite list_lookup_alter. destruct (decide (k = i)) as [->|]; [|eauto].
      rewrite Hi. simpl. eauto. }
    unfold startNote in Hi'.
    destruct (findFreeVoice_unsafe (stopExisting n voices)) as [j|];
      [|simpl in Hi'; congruence].
    destruct (stopExisting n voices !! j) as [w|] eqn:Hj;
      [|simpl in Hi'; congruence].
    destruct (claimVoice n vel w) as [w' msgs] eqn:Hc. simpl in Hi'.
    destruct (decide (j = i)) as [->|Hne].
    + rewrite list_lookup_insert_eq in Hi' by (eapply lookup_lt_Some; eauto).
      simplify_eq. unfold claimVoice in Hc. simpl in Hc.
      destruct (_ && _); simplify_eq/=; done.
    + rewrite list_lookup_insert_ne in Hi' by done. congruence.
  - intros i v c Hi Ha. rewrite !audioTaskIteration_spec. simpl.
    rewrite (mixSum_insert_inactive voices i v _ Hi Ha) by done.
    rewrite (activeVoices_insert_inactive voices i v _ Hi Ha) by done.
    reflexivity.
Qed.

(** C1, as the code has it.  One iteration of the audio task replaces
    every slot by [renderStep] of it.  An inactive voice is left alone.
    An active voice whose countdown is zero has its output flipped and
    its countdown reloaded with the half period and, in the same
    iteration, decremented (so it ends at [wavelength - 1]); an active
    voice whose countdown is positive has the countdown decremented and
    its output kept. *)
Theorem render_step_of_a_voice (voices : list VoiceState) (i : nat)
    (v : VoiceState) :
  voices !! i = Some v ->
  fst (audioTaskIteration voices) !! i = Some (renderStep v) /\
  (isActive v = false -> renderStep v = v) /\
  (isActive v = true -> timeAtLevelRemaining v = 0 ->
     renderStep v
     = set_timeAtLevelRemaining
         (if 0 <? wavelength v then wavelength v - 1 else wavelength v)
         (set_currentOutput
            (if currentOutput v =? targetAmplitude v
             then wrap_int16 (- targetAmplitude v)
             else targetAmplitude v) v)) /\
  (isActive v = true -> 0 < timeAtLevelRemaining v ->
     renderStep v
     = set_timeAtLevelRemaining (timeAtLevelRemaining v - 1) v).
Proof.
  intros Hi. split; [|split; [|split]].
  - rewrite audioTaskIteration_spec. simpl.
    rewrite list_lookup_fmap, Hi. reflexivity.
  - intros Ha. unfold renderStep. by rewrite Ha.
  - intros Ha Ht. unfold renderStep, advanceVoice. rewrite Ha, Ht. simpl.
    destruct (0 <? wavelength v); reflexivity.
  - intros Ha Ht. unfold renderStep, advanceVoice. rewrite Ha.
    destruct (timeAtLevelRemaining v =? 0) eqn:E0; [lia|].
    destruct (0 <? timeAtLevelRemaining v) eqn:E1; [reflexivity|lia].
Qed.

End WithLibm.

(** *** Concrete instances *)


Lemma startNote_pool_full_witness :
  @startNote reference_libm 72 100 full_pool = (full_pool, [WarnNoFreeVoices]).
Proof.
  apply (@startNote_pool_full reference_libm 72 100 full_pool).
  unfold full_pool. repeat constructor; simpl; lia.
Defined.

Lemma deactivated_voice_is_silent_witness :
  let voices := fst (@startNote reference_libm 60 100 initial_voices) in
  exists v', stopNote 60 voices !! 0%nat = Some v' /\
             isActive v' = false /\ currentOutput v' = 0.
Proof.
  intros voices.
  apply (proj1 (@deactivated_voice_is_silent reference_libm voices 60) 0%nat).
  vm_compute. reflexivity.
Defined.

(** C9 at a concrete input: notes 72 and 60 are started (slots 0 and
    1), 72 is stopped, and 60 is started again.  The re-trigger
    deactivates slot 1 and claims slot 0; slot 1 is left inactive with its
    output still at 12598. *)
Lemma deactivated_voice_output_counterexample :
  let s1 := fst (@startNote reference_libm 72 100 initial_voices) in
  let s2 := fst (@startNote reference_libm 60 100 s1) in
  let s3 := stopNote 72 s2 in
  let s4 := fst (@startNote reference_libm 60 100 s3) in
  isActive <$> s3 !! 1%nat = Some true /\
  isActive <$> s4 !! 1%nat = Some false /\
  currentOutput <$> s4 !! 1%nat = Some 12598 /\
  ~ (forall v, s4 !! 1%nat = Some v -> currentOutput v = 0).
Proof.
  vm_compute. repeat split; try reflexivity.
  intros H. specialize (H _ eq_refl). discriminate H.
Qed.

Lemma render_step_of_a_voice_witness :
  let v := mkVoiceState true 69 (F32.of_Z 440) 12598 12598 50 0 in
  renderStep v = mkVoiceState true 69 (F32.of_Z 440) 12598 (-12598) 50 49.
Proof.
  intros v.
  destruct (render_step_of_a_voice [v] 0%nat v eq_refl) as (_ & _ & H & _).
  rewrite (H eq_refl eq_refl). reflexivity.
Defined.

(** C1 at a concrete input: note 69 is started with velocity 100 (half
    period 50).  After 50 iterations the countdown of slot 0 is 0; the
    next iteration flips the output and leaves the countdown at 49, not
    at the half period: the reload and the decrement happen in the same
    iteration. *)
Lemma render_step_counterexample :
  let voices0 := fst (@startNote reference_libm 69 100 initial_voices) in
  let voices50 := fst (audioTaskRunner 50 voices0) in
  let voices51 := fst (audioTaskIteration voices50) in
  voices50 !! 0%nat
    = Some (mkVoiceState true 69 (F32.of_Z 440) 12598 12598 50 0) /\
  voices51 !! 0%nat
    = Some (mkVoiceState true 69 (F32.of_Z 440) 12598 (-12598) 50 49) /\
  ~ (forall v, voices51 !! 0%nat = Some v -> timeAtLevelRemaining v = wavelength v).
Proof.
  vm_compute. repeat split; try reflexivity.
  intros H. specialize (H _ eq_refl). discriminate H.
Qed.

End PoolClaims.

(** * The claim about the mixer *)

Module MixClaims.

Import Synthesizer Props PoolFacts.

Section WithLibm.
Context {libm : Libm}.

(** C3.  An iteration of the audio task on a table without an active
    voice emits 0.  On a table with exactly one active voice it emits the
    output of that voice, as the iteration leaves it in the table: averaging
    over one voice and clamping change nothing.  (The fields of the voice
    hold 16-bit values; in a reachable table the output of an active voice is
    moreover within the per-voice maximum.) *)
Theorem mix_of_zero_or_one_voice (voices : list VoiceState) :
  (activeVoices voices = 0%nat -> snd (audioTaskIteration voices) = 0) /\
  (forall i v,
     voices !! i = Some v -> isActive v = true -> wf_voice v ->
     activeVoices voices = 1%nat ->
     currentOutput <$> fst (audioTaskIteration voices) !! i
     = Some (snd (audioTaskIteration voices))) /\
  (reachable voices ->
   forall i v, voices !! i = Some v -> isActive v = true ->
     wf_voice v /\
     - SYNTH_MAX_NOTE_AMPLITUDE <= currentOutput v <= SYNTH_MAX_NOTE_AMPLITUDE).
Proof.
  split; [|split].
  - intros Hnone. rewrite audioTaskIteration_spec. simpl.
    rewrite Hnone. reflexivity.
  - intros i v Hi Ha Hwf Hone. rewrite audioTaskIteration_spec. simpl.
    rewrite list_lookup_fmap, Hi, Hone, (mixSum_one_voice voices i v Hi Ha Hone).
    simpl. unfold renderStep. rewrite Ha.
    rewrite mixSample_one by (apply advanceVoice_in_int16; exact Hwf).
    reflexivity.
  - intros Hr i v Hi Ha. pose proof (reachable_ok voices Hr) as Hok.
    rewrite Forall_lookup in Hok.
    destruct (Hok i v Hi Ha) as (_ & Hw & Hwl & Hamp & Hcur & Ht).
    unfold SYNTH_MAX_NOTE_AMPLITUDE in *.
    assert (in_uint16 (wavelength v)) as Hwu.
    { rewrite Hw. apply calculate_wavelength_range. }
    unfold wf_voice, in_int16, in_uint16 in *. lia.
Qed.

End WithLibm.

Lemma mix_of_zero_or_one_voice_witness :
  let voices := fst (@startNote reference_libm 69 100 initial_voices) in
  currentOutput <$> fst (audioTaskIteration voices) !! 0%nat
  = Some (snd (audioTaskIteration voices)).
Proof.
  intros voices.
  destruct (@mix_of_zero_or_one_voice reference_libm voices) as (_ & Hone & _).
  eapply Hone.
  - vm_compute. reflexivity.
  - reflexivity.
  - unfold wf_voice, in_int16, in_uint16. simpl. lia.
  - vm_compute. reflexivity.
Defined.

End MixClaims.


(** * The claims about the MIDI player *)

Module PlayerClaims.

Import Synthesizer MidiPlayer Props PoolFacts PlayerFacts.

(** C2, as the code has it.  A null song reference is rejected before
    anything is written: the player is returned as it was.  A song whose
    data pointer is null or whose event count is zero is rejected after its
    three fields have been copied: the call returns [false] with the data
    pointer null and the event count zero (no song loaded), the tempo field
    holds the tempo of the rejected song, and millis-per-tick, the event
    index, the is-playing flag, the deadline and the synthesizer pointer
    are as before the call. *)
Theorem loadSong_failure (p : MidiPlayer) :
  loadSong None p = (false, p, [ErrInvalidSongInfoAddress]) /\
  (forall song,
     midi_data_ptr song = 0 \/ wrap_uint16 (event_count song) = 0 ->
     exists p',
       loadSong (Some song) p = (false, p', [ErrInvalidSongData]) /\
       current_song_data_ptr p' = 0 /\
       current_event_count p' = 0 /\
       current_bpm p' = bpm song /\
       millis_per_tick p' = millis_per_tick p /\
       current_event_index p' = current_event_index p /\
       is_playing p' = is_playing p /\
       next_event_time_ms p' = next_event_time_ms p /\
       synth p' = synth p).
Proof.
  split; [reflexivity|]. intros song Hbad.
  eexists. unfold loadSong. simpl.
  assert ((midi_data_ptr song =? 0) || (wrap_uint16 (event_count song) =? 0) = true)
    as ->.
  { apply orb_true_iff. destruct Hbad as [H|H]; [left|right]; lia. }
  repeat split; reflexivity.
Qed.

Lemma loadSong_failure_witness :
  exists p',
    loadSong (Some (mkSongInfo 0 5 (F32.of_Z 90))) (init MidiPlayer_new)
    = (false, p', [ErrInvalidSongData]) /\
    current_song_data_ptr p' = 0 /\ current_event_count p' = 0.
Proof.
  destruct (proj2 (loadSong_failure (init MidiPlayer_new))
              (mkSongInfo 0 5 (F32.of_Z 90)) (or_introl eq_refl))
    as (p' & H1 & H2 & H3 & _).
  exists p'. repeat split; assumption.
Defined.

(** C2 at a concrete input: a song of 2 events at address 4096 and 120
    BPM is loaded; then a record with a null data pointer, 5 events and
    90 BPM is offered.  The second call fails, and the data pointer, the
    event count and the tempo are not what they were before it. *)
Lemma loadSong_failure_counterexample :
  let p := snd (fst (loadSong (Some (mkSongInfo 4096 2 (F32.of_Z 120)))
                              (init MidiPlayer_new))) in
  let r := loadSong (Some (mkSongInfo 0 5 (F32.of_Z 90))) p in
  let p' := snd (fst r) in
  fst (fst r) = false /\
  current_song_data_ptr p = 4096 /\ current_song_data_ptr p' = 0 /\
  current_event_count p = 2 /\ current_event_count p' = 0 /\
  current_bpm p = F32.of_Z 120 /\ current_bpm p' = F32.of_Z 90 /\
  ~ (current_song_data_ptr p' = current_song_data_ptr p /\
     current_event_count p' = current_event_count p /\
     current_bpm p' = current_bpm p).
Proof.
  vm_compute. repeat split; try reflexivity.
  intros (H & _). discriminate H.
Qed.

Section WithLibm.
Context {libm : Libm}.

(** C4.  An event of kind 1 with velocity 0 and an event of kind 0
    for the same note leave the same voice table, whatever the table:
    both are [stopNote].  The voice found playing the note is inactive
    afterwards, and when at most one voice played the note (as in every
    reachable table) no active voice plays it afterwards. *)
Theorem note_on_velocity_zero_is_note_off
    (flash_on flash_off : Flash) (p : MidiPlayer)
    (voices : list VoiceState) (n : Z) :
  event_kind flash_on p = 1 -> event_note flash_on p = n ->
  event_velocity flash_on p = 0 ->
  event_kind flash_off p = 0 -> event_note flash_off p = n ->
  processCurrentEvent flash_on p voices
  = processCurrentEvent flash_off p voices /\
  (synth p = true ->
   processCurrentEvent flash_on p voices = (stopNote n voices, [])) /\
  (forall i, findVoicePlayingNote_unsafe n voices = Some i ->
     isActive <$> stopNote n voices !! i = Some false) /\
  ((activeVoicesFor n voices <= 1)%nat ->
   activeVoicesFor n (stopNote n voices) = 0%nat).
Proof.
  unfold event_kind, event_note, event_velocity, event_address.
  intros Hk1 Hn1 Hv1 Hk0 Hn0.
  assert (synth p = true ->
          processCurrentEvent flash_on p voices = (stopNote n voices, []))
    as Hon.
  { intros Hs. unfold processCurrentEvent. rewrite Hs, Hk1, Hn1, Hv1.
    reflexivity. }
  split; [|split; [exact Hon|split]].
  - destruct (synth p) eqn:Hs.
    + rewrite (Hon eq_refl). unfold processCurrentEvent.
      rewrite Hs, Hk0, Hn0. reflexivity.
    + unfold processCurrentEvent. rewrite Hs. reflexivity.
  - intros i Hfind. pose proof Hfind as Hfind'.
    apply findVoicePlayingNote_Some in Hfind' as (v & Hi & _).
    unfold stopNote. rewrite Hfind, list_lookup_alter_eq, Hi. reflexivity.
  - apply stopNote_count.
Qed.

(** C10.  When [update] fires on an event whose kind byte is neither
    0 nor 1, the voice table is returned as it was and nothing is
    printed; the event index is advanced by one, and when an event
    remains the deadline is set from its delta-time, relative to the
    time of this call. *)
Theorem unknown_event_kind_is_skipped
    (now : Z) (flash : Flash) (p : MidiPlayer) (voices : list VoiceState) :
  is_playing p = true ->
  next_event_time_ms p <= now ->
  0 <= current_event_index p < current_event_count p ->
  current_event_count p <= 65535 ->
  event_kind flash p <> 0 -> event_kind flash p <> 1 ->
  processCurrentEvent flash p voices = (voices, []) /\
  exists p',
    update now flash p voices = (true, p', voices, []) /\
    current_event_index p' = current_event_index p + 1 /\
    (current_event_index p + 1 < current_event_count p ->
     next_event_time_ms p'
     = wrap_uint32
         (now + convertTicksToMillis
                  (event_delta flash p (current_event_index p + 1)) p)) /\
    (current_event_index p + 1 = current_event_count p ->
     next_event_time_ms p' = next_event_time_ms p) /\
    current_song_data_ptr p' = current_song_data_ptr p /\
    current_event_count p' = current_event_count p /\
    millis_per_tick p' = millis_per_tick p.
Proof.
  intros Hplay Hdue Hidx Hcnt Hk0 Hk1.
  assert (processCurrentEvent flash p voices = (voices, [])) as Hproc.
  { unfold processCurrentEvent. destruct (synth p); [|reflexivity]. simpl.
    unfold event_kind, event_address in Hk0, Hk1.
    destruct (_ =? 1) eqn:E1; [lia|]. destruct (_ =? 0) eqn:E0; [lia|].
    reflexivity. }
  split; [exact Hproc|].
  rewrite (update_fires now flash p voices Hplay Hdue ltac:(lia)).
  rewrite Hproc. cbn zeta. rewrite scheduleNextEvent_is_playing. simpl.
  rewrite Hplay. eexists. split; [reflexivity|].
  assert (wrap_uint16 (current_event_index p + 1) = current_event_index p + 1)
    as Hw by (unfold wrap_uint16; rewrite Z.mod_small; lia).
  unfold scheduleNextEvent. simpl. rewrite Hw.
  destruct (current_event_index p + 1 <? current_event_count p) eqn:E;
    simpl; repeat split; try reflexivity; try lia.
Qed.

End WithLibm.

Lemma note_on_velocity_zero_is_note_off_witness :
  let voices := fst (@startNote reference_libm 60 100 initial_voices) in
  @processCurrentEvent reference_libm flash_note_on_zero demo_player voices
  = @processCurrentEvent reference_libm flash_note_off demo_player voices /\
  activeVoicesFor 60 voices = 1%nat /\
  activeVoicesFor 60 (stopNote 60 voices) = 0%nat.
Proof.
  intros voices.
  destruct (@note_on_velocity_zero_is_note_off reference_libm
              flash_note_on_zero flash_note_off demo_player voices 60
              ltac:(vm_compute; reflexivity) ltac:(vm_compute; reflexivity)
              ltac:(vm_compute; reflexivity) ltac:(vm_compute; reflexivity)
              ltac:(vm_compute; reflexivity)) as (H1 & _ & _ & H4).
  split; [exact H1|]. split; [vm_compute; reflexivity|].
  apply H4. vm_compute. lia.
Defined.

Lemma unknown_event_kind_is_skipped_witness :
  exists p',
    @update reference_libm 1000 flash_unknown_kind demo_player full_pool
    = (true, p', full_pool, []) /\
    current_event_index p' = 1 /\
    next_event_time_ms p' = 1500.
Proof.
  destruct (@unknown_event_kind_is_skipped reference_libm 1000
              flash_unknown_kind demo_player full_pool)
    as (_ & p' & Hu & Hi & Hd & _);
    [vm_compute; reflexivity | vm_compute; discriminate
    | vm_compute; split; [discriminate | reflexivity]
    | vm_compute; discriminate
    | vm_compute; discriminate | vm_compute; discriminate |].
  exists p'. split; [exact Hu|]. split; [exact Hi|].
  rewrite Hd by (vm_compute; reflexivity). vm_compute. reflexivity.
Defined.

End PlayerClaims.

(** * The claim about tempo and scheduling *)

Module TimingClaims.

Import Synthesizer MidiPlayer Props PlayerFacts.
Import F32Facts.

(** One rounding step: a value within relative error [u] of [a], for [a]
    between [lo] and [hi]. *)
Lemma rel_step (a lo hi r u : R) :
  (0 <= u <= 1)%R -> (0 <= lo <= a)%R -> (a <= hi)%R ->
  (Rabs (r - a) <= a * u)%R ->
  (lo * (1 - u) <= r <= hi * (1 + u))%R.
Proof.
  intros Hu Hlo Hhi Hr. apply Rabs_le_bounds in Hr. split; nra.
Qed.

Lemma of_Z_60000000 : F32.of_Z 60000000 = S754_finite false 15000000 2.
Proof. vm_compute. reflexivity. Qed.

Lemma of_Z_1000 : F32.of_Z 1000 = S754_finite false 16384000 (-14).
Proof. vm_compute. reflexivity. Qed.

Lemma of_Z_96 : F32.of_Z 96 = S754_finite false 12582912 (-17).
Proof. vm_compute. reflexivity. Qed.

(** [millis_per_tick] for a positive normal tempo. *)
Lemma millis_per_tick_accuracy (m : positive) (e : Z) (p : MidiPlayer) :
  2 ^ 23 <= Z.pos m < 2 ^ 24 -> -80 <= e <= 40 ->
  exists m' e',
    millis_per_tick (fst (calculateTimingFactors (S754_finite false m e) p))
    = S754_finite false m' e' /\
    2 ^ 23 <= Z.pos m' < 2 ^ 24 /\
    (Rabs (IZR (Z.pos m') * F32.bpow e'
           - 60000 / (IZR (Z.pos m) * F32.bpow e) / 96)
     <= 60000 / (IZR (Z.pos m) * F32.bpow e) / 96 * F32.bpow (-22))%R.
Proof.
  intros Hm He.
  unfold calculateTimingFactors.
  change (F32.leb (S754_finite false m e) F32.zero) with false.
  change (0 <? TICKS_PER_QUARTER_NOTE) with true.
  cbn [fst millis_per_tick set_millis_per_tick].
  change (F32.of_Z TICKS_PER_QUARTER_NOTE) with (F32.of_Z 96).
  rewrite of_Z_60000000, of_Z_1000, of_Z_96.
  destruct (div_correct false false 15000000 m 2 e ltac:(simpl; lia) Hm
              ltac:(lia)) as (m1 & e1 & Hd1 & Hm1 & He1 & Herr1).
  simpl xorb in Hd1. rewrite Hd1.
  destruct (div_correct false false m1 16384000 e1 (-14) Hm1 ltac:(simpl; lia)
              ltac:(lia)) as (m2 & e2 & Hd2 & Hm2 & He2 & Herr2).
  simpl xorb in Hd2. rewrite Hd2.
  destruct (div_correct false false m2 12582912 e2 (-17) Hm2 ltac:(simpl; lia)
              ltac:(lia)) as (m3 & e3 & Hd3 & Hm3 & He3 & Herr3).
  simpl xorb in Hd3. rewrite Hd3.
  exists m3, e3. split; [reflexivity|]. split; [exact Hm3|].
  set (B := (IZR (Z.pos m) * F32.bpow e)%R) in *.
  assert (0 < B)%R as HB.
  { apply Rmult_lt_0_compat; [apply IZR_lt; lia | apply bpow_pos]. }
  assert (IZR 15000000 * F32.bpow 2 = 60000000)%R as E1
    by (unfold F32.bpow; simpl; lra).
  assert (IZR 16384000 * F32.bpow (-14) = 1000)%R as E2
    by (unfold F32.bpow; simpl; lra).
  assert (IZR 12582912 * F32.bpow (-17) = 96)%R as E3
    by (unfold F32.bpow; simpl; lra).
  rewrite E1 in Herr1. rewrite E2 in Herr2. rewrite E3 in Herr3.
  set (r1 := (IZR (Z.pos m1) * F32.bpow e1)%R) in *.
  set (r2 := (IZR (Z.pos m2) * F32.bpow e2)%R) in *.
  set (r3 := (IZR (Z.pos m3) * F32.bpow e3)%R) in *.
  set (u := F32.bpow (-24)) in *.
  assert (0 < u <= / 8)%R as Hu.
  { split; [apply bpow_pos|]. unfold u.
    replace (/ 8)%R with (F32.bpow (-3)) by (unfold F32.bpow; simpl; lra).
    apply bpow_le. lia. }
  assert (F32.bpow (-22) = 4 * u)%R as ->.
  { unfold u. replace (-22)%Z with (2 + -24)%Z by lia.
    rewrite bpow_add. unfold F32.bpow at 1. simpl. lra. }
  set (x1 := (60000000 / B)%R) in *.
  assert (0 < x1)%R as Hx1 by (apply Rdiv_lt_0_compat; lra).
  assert (60000 / B / 96 = x1 / 96000)%R as -> by (unfold x1; field; lra).
  pose proof (rel_step x1 x1 x1 r1 u ltac:(lra) ltac:(lra) ltac:(lra) Herr1)
    as H1.
  assert (0 <= x1 * (1 - u))%R as Hp1 by nra.
  pose proof (rel_step (r1 / 1000) (x1 * (1 - u) / 1000) (x1 * (1 + u) / 1000)
                r2 u ltac:(lra) ltac:(lra) ltac:(lra) Herr2) as H2.
  assert (0 <= x1 * (1 - u) / 1000 * (1 - u))%R as Hp2 by nra.
  pose proof (rel_step (r2 / 96) (x1 * (1 - u) / 1000 * (1 - u) / 96)
                (x1 * (1 + u) / 1000 * (1 + u) / 96)
                r3 u ltac:(lra) ltac:(lra) ltac:(lra) Herr3) as H3.
  set (E := (x1 / 96000)%R) in *.
  assert (0 < E)%R as HE by (unfold E; lra).
  assert (x1 = 96000 * E)%R as HxE by (unfold E; field).
  rewrite HxE in H3.
  assert ((1 + u) * (1 + u) * (1 + u) <= 1 + 4 * u)%R as Hup by nra.
  assert (1 - 4 * u <= (1 - u) * (1 - u) * (1 - u))%R as Hdn by nra.
  apply Rabs_le. split.
  - apply Rle_trans with (E * ((1 - u) * (1 - u) * (1 - u)) - E)%R; [nra|].
    lra.
  - apply Rle_trans with (E * ((1 + u) * (1 + u) * (1 + u)) - E)%R; [lra|].
    nra.
Qed.

(** [convertTicksToMillis] for a 16-bit tick count and a millis-per-tick
    between [2^-20] and [2^7]: with [x] the binary32 product of the two,
    which is within relative error [2^-24] of the exact product, the result
    is the integer nearest to [x], halves rounded up. *)
Lemma convertTicksToMillis_round (ticks : Z) (m : positive) (e : Z)
    (p : MidiPlayer) :
  0 <= ticks <= 65535 ->
  millis_per_tick p = S754_finite false m e ->
  2 ^ 23 <= Z.pos m < 2 ^ 24 -> -43 <= e <= -17 ->
  exists x : R,
    0 <= convertTicksToMillis ticks p <= 2 ^ 24 /\
    (Rabs (x - IZR ticks * (IZR (Z.pos m) * F32.bpow e))
     <= IZR ticks * (IZR (Z.pos m) * F32.bpow e) * F32.bpow (-24))%R /\
    (IZR (convertTicksToMillis ticks p) - / 2 <= x
     < IZR (convertTicksToMillis ticks p) + / 2)%R.
Proof.
  intros Hticks Hmpt Hm He. unfold convertTicksToMillis. rewrite Hmpt.
  destruct (Z.eq_dec ticks 0) as [->|Hpos].
  - exists 0%R.
    change (F32.to_uint32
              (F32.roundf (F32.mul (F32.of_Z 0) (S754_finite false m e))))
      with 0.
    rewrite !Rmult_0_l, Rminus_0_r, Rabs_R0.
    split; [simpl; lia|]. split; lra.
  - destruct (of_Z_pos_exact ticks ltac:(lia)) as (mt & et & -> & Hmt & Het & Hval).
    destruct (mul_correct false false mt m et e Hmt Hm ltac:(lia))
      as (M & E & Hmul & HM & _ & Herr).
    cbn [xorb] in Hmul. rewrite Hmul.
    assert (IZR (Z.pos mt) * F32.bpow et = IZR ticks)%R as Hreal.
    { rewrite Hval, mult_IZR, IZR_pow2 by lia. apply bpow_cancel. }
    rewrite Hreal in Herr.
    set (mpt := (IZR (Z.pos m) * F32.bpow e)%R) in *.
    assert (0 < mpt < F32.bpow 7)%R as Hmptr.
    { destruct Hm as [Hlo Hhi]. apply IZR_lt in Hhi.
      rewrite IZR_pow2 in Hhi by lia. pose proof (bpow_pos e) as Hbe.
      assert (0 < IZR (Z.pos m))%R by (apply IZR_lt; lia).
      pose proof (bpow_le (24 + e) 7 ltac:(lia)) as Hle.
      rewrite bpow_add in Hle. unfold mpt. split; nra. }
    assert (1 <= IZR ticks < F32.bpow 16)%R as Htr.
    { split; [apply IZR_le; lia|]. rewrite <- IZR_pow2 by lia.
      apply IZR_lt. simpl. lia. }
    assert (IZR ticks * mpt < F32.bpow 23)%R as Hprod.
    { replace 23 with (16 + 7) by lia. rewrite bpow_add.
      pose proof (bpow_pos 16). pose proof (bpow_pos 7). nra. }
    assert (E <= 0) as HE.
    { apply Rabs_le_bounds in Herr.
      assert (F32.bpow (-24) < 1)%R as Hu.
      { rewrite <- bpow_0. apply bpow_lt. lia. }
      pose proof (bpow_pos (-24)) as Hu0.
      assert (0 < IZR ticks * mpt)%R as Hpp by nra.
      assert (IZR ticks * mpt * F32.bpow (-24) < IZR ticks * mpt)%R as Hlt1.
      { rewrite <- (Rmult_1_r (IZR ticks * mpt)) at 2.
        apply Rmult_lt_compat_l; assumption. }
      assert (IZR (Z.pos M) * F32.bpow E < F32.bpow 24)%R as Hup.
      { change 24 with (1 + 23). rewrite bpow_add, bpow_1. lra. }
      destruct HM as [HMlo _]. apply IZR_le in HMlo.
      rewrite IZR_pow2 in HMlo by lia. pose proof (bpow_pos E) as HbE.
      assert (F32.bpow (23 + E) < F32.bpow 24)%R as Hcmp
        by (rewrite bpow_add; nra).
      apply bpow_lt_inv in Hcmp. lia. }
    destruct (roundf_to_Z_pos M E HM HE) as [Hrange Hnear].
    set (d := F32.to_Z (F32.roundf (S754_finite false M E))) in *.
    assert (F32.to_uint32 (F32.roundf (S754_finite false M E)) = d) as ->.
    { unfold F32.to_uint32, wrap_uint32. fold d.
      rewrite Z.mod_small; [reflexivity|].
      change (2 ^ 24) with 16777216 in Hrange. lia. }
    exists (IZR (Z.pos M) * F32.bpow E)%R.
    split; [exact Hrange|]. split; [exact Herr | exact Hnear].
Qed.

Section WithLibm.
Context {libm : Libm}.

(** C7.  [calculateTimingFactors] replaces a tempo of at most 0 by 120
    (for which millis-per-tick is the binary32 number nearest to 5.2083335).
    For a positive normal tempo between [2^-57] and [2^64] the stored
    millis-per-tick is [(60000 / bpm) / TICKS_PER_QUARTER_NOTE] up to the
    rounding of the three binary32 divisions that compute it: the relative
    error is at most [2^-22].  When [update] processes an event and another
    event remains, the new deadline is the time of the call plus
    [convertTicksToMillis] of the next event's delta-time (modulo [2^32]),
    whatever the old deadline was.  That offset is
    [round(nextDeltaTicks * millisPerTick)]: [nextDeltaTicks] is the 16-bit
    number whose high and low bytes are stored at the next event's address,
    and for a millis-per-tick between [2^-20] and [2^7] the offset is the
    integer nearest (halves rounded up) to the binary32 product of the two,
    which is within relative error [2^-24] of their exact product. *)
Theorem millis_per_tick_and_next_deadline (p : MidiPlayer) :
  (forall bpm, F32.leb bpm F32.zero = true ->
     calculateTimingFactors bpm p = calculateTimingFactors (F32.of_Z 120) p) /\
  millis_per_tick (fst (calculateTimingFactors (F32.of_Z 120) p))
  = S754_finite false 10922667 (-21) /\
  (forall (m : positive) (e : Z),
     2 ^ 23 <= Z.pos m < 2 ^ 24 -> -80 <= e <= 40 ->
     let bpm := S754_finite false m e in
     let mpt := millis_per_tick (fst (calculateTimingFactors bpm p)) in
     F32.leb bpm F32.zero = false /\
     (Rabs (F32.F2R mpt - 60000 / F32.F2R bpm / IZR TICKS_PER_QUARTER_NOTE)
      <= 60000 / F32.F2R bpm / IZR TICKS_PER_QUARTER_NOTE * F32.bpow (-22))%R) /\
  (forall (now : Z) (flash : Flash) (voices : list VoiceState) (deadline : Z),
     is_playing p = true -> deadline <= now ->
     0 <= current_event_index p ->
     current_event_index p + 1 < current_event_count p ->
     current_event_count p <= 65535 ->
     next_event_time_ms
       (snd (fst (fst (update now flash (set_next_event_time_ms deadline p)
                         voices))))
     = wrap_uint32
         (now + convertTicksToMillis
                  (event_delta flash p (current_event_index p + 1)) p)) /\
  (forall (now : Z) (flash : Flash) (voices : list VoiceState) (deadline : Z)
          (m : positive) (e : Z),
     is_playing p = true -> deadline <= now ->
     0 <= current_event_index p ->
     current_event_index p + 1 < current_event_count p ->
     current_event_count p <= 65535 ->
     millis_per_tick p = S754_finite false m e ->
     2 ^ 23 <= Z.pos m < 2 ^ 24 -> -43 <= e <= -17 ->
     let address := current_song_data_ptr p + (current_event_index p + 1) * 6 in
     let nextDeltaTicks :=
       256 * (flash address mod 256) + flash (address + 1) mod 256 in
     let exact := (IZR nextDeltaTicks * F32.F2R (millis_per_tick p))%R in
     exists (delta_ms : Z) (x : R),
       next_event_time_ms
         (snd (fst (fst (update now flash (set_next_event_time_ms deadline p)
                           voices))))
       = (now + delta_ms) mod 2 ^ 32 /\
       0 <= delta_ms /\
       (Rabs (x - exact) <= exact * F32.bpow (-24))%R /\
       (IZR delta_ms - / 2 <= x < IZR delta_ms + / 2)%R).
Proof.
  assert (Hnext : forall (now : Z) (flash : Flash) (voices : list VoiceState)
                         (deadline : Z),
            is_playing p = true -> deadline <= now ->
            0 <= current_event_index p ->
            current_event_index p + 1 < current_event_count p ->
            current_event_count p <= 65535 ->
            next_event_time_ms
              (snd (fst (fst (update now flash
                                (set_next_event_time_ms deadline p) voices))))
            = wrap_uint32
                (now + convertTicksToMillis
                         (event_delta flash p (current_event_index p + 1)) p)).
  { intros now flash voices deadline Hplay Hdue Hidx Hleft Hcnt.
    rewrite update_fires by (simpl; lia || assumption).
    cbn [fst snd].
    assert (wrap_uint16 (current_event_index p + 1) = current_event_index p + 1)
      as Hw by (unfold wrap_uint16; rewrite Z.mod_small; lia).
    unfold scheduleNextEvent. simpl. rewrite Hw.
    destruct (current_event_index p + 1 <? current_event_count p) eqn:E; [|lia].
    reflexivity. }
  split; [|split; [|split; [|split; [exact Hnext|]]]]; cycle 3.
  { intros now flash voices deadline m e Hplay Hdue Hidx Hleft Hcnt Hmpt Hm He
           address nextDeltaTicks exact.
    rewrite (Hnext now flash voices deadline Hplay Hdue Hidx Hleft Hcnt).
    unfold event_delta. change BYTES_PER_EVENT with 6. fold address.
    rewrite pgm_read_uint16_big_endian_bytes. fold nextDeltaTicks.
    assert (0 <= nextDeltaTicks <= 65535) as Hticks.
    { unfold nextDeltaTicks.
      pose proof (Z.mod_pos_bound (flash address) 256 ltac:(lia)).
      pose proof (Z.mod_pos_bound (flash (address + 1)) 256 ltac:(lia)). lia. }
    destruct (convertTicksToMillis_round nextDeltaTicks m e p Hticks Hmpt Hm He)
      as (x & Hrange & Herr & Hnear).
    exists (convertTicksToMillis nextDeltaTicks p), x.
    split; [reflexivity|]. split; [lia|]. split; [|exact Hnear].
    unfold exact. rewrite Hmpt. exact Herr. }
  - intros bpm Hle. unfold calculateTimingFactors. rewrite Hle.
    change (F32.leb (F32.of_Z 120) F32.zero) with false. reflexivity.
  - vm_compute. reflexivity.
  - intros m e Hm He bpm mpt. split; [reflexivity|].
    destruct (millis_per_tick_accuracy m e p Hm He) as (m' & e' & Hmpt & _ & Herr).
    unfold mpt, bpm. rewrite Hmpt.
    change (IZR TICKS_PER_QUARTER_NOTE) with 96%R.
    exact Herr.
Qed.

End WithLibm.

Lemma millis_per_tick_and_next_deadline_witness :
  (Rabs (F32.F2R (millis_per_tick
                    (fst (calculateTimingFactors
                            (S754_finite false 15728640 (-17)) demo_player)))
         - 60000 / F32.F2R (S754_finite false 15728640 (-17))
           / IZR TICKS_PER_QUARTER_NOTE)
   <= 60000 / F32.F2R (S754_finite false 15728640 (-17))
      / IZR TICKS_PER_QUARTER_NOTE * F32.bpow (-22))%R /\
  next_event_time_ms
    (snd (fst (fst (@update reference_libm 1000 flash_unknown_kind
                      (set_next_event_time_ms 0 demo_player) full_pool))))
  = wrap_uint32
      (1000 + convertTicksToMillis
                (event_delta flash_unknown_kind demo_player
                   (current_event_index demo_player + 1)) demo_player) /\
  next_event_time_ms
    (snd (fst (fst (@update reference_libm 1000 flash_unknown_kind
                      (set_next_event_time_ms 0 demo_player) full_pool))))
  = 1500 /\
  256 * (flash_unknown_kind (4096 + (0 + 1) * 6) mod 256)
  + flash_unknown_kind (4096 + (0 + 1) * 6 + 1) mod 256 = 96 /\
  exists (delta_ms : Z) (x : R),
    1500 = (1000 + delta_ms) mod 2 ^ 32 /\
    0 <= delta_ms /\
    (Rabs (x - IZR 96 * F32.F2R (S754_finite false 10922667 (-21)))
     <= IZR 96 * F32.F2R (S754_finite false 10922667 (-21)) * F32.bpow (-24))%R /\
    (IZR delta_ms - / 2 <= x < IZR delta_ms + / 2)%R.
Proof.
  destruct (@millis_per_tick_and_next_deadline reference_libm demo_player)
    as (_ & _ & Hacc & Hnext & Hround).
  split; [|split; [|split; [|split]]].
  - apply (Hacc 15728640%positive (-17)); simpl; lia.
  - apply Hnext; vm_compute; (reflexivity || discriminate).
  - vm_compute. reflexivity.
  - vm_compute. reflexivity.
  - destruct (Hround 1000 flash_unknown_kind full_pool 0 10922667%positive (-21)
                ltac:(vm_compute; reflexivity) ltac:(lia)
                ltac:(vm_compute; discriminate) ltac:(vm_compute; reflexivity)
                ltac:(vm_compute; discriminate) ltac:(vm_compute; reflexivity)
                ltac:(simpl; lia) ltac:(lia))
      as (delta_ms & x & Hd & H0 & Hx & Hn).
    exists delta_ms, x.
    split; [rewrite <- Hd; vm_compute; reflexivity|].
    split; [exact H0|]. split; [exact Hx | exact Hn].
Defined.

End TimingClaims.

(** * The claim about note frequencies *)

Module FrequencyClaims.

Import Synthesizer Props PoolFacts.
Import F32Facts.

Lemma of_Z_440 : F32.of_Z 440 = S754_finite false 14417920 (-15).
Proof. vm_compute. reflexivity. Qed.

Lemma bpow_pow12 (e : Z) : (F32.bpow e ^ 12 = F32.bpow (12 * e))%R.
Proof.
  replace (12 * e) with (e + (e + (e + (e + (e + (e + (e + (e + (e + (e + (e + e)))))))))))
    by lia.
  rewrite !bpow_add. simpl. ring.
Qed.

(** What the integer test says of the exponent and of the value. *)
Lemma powf_accurate_exponent (n j : Z) (m : positive) :
  1 <= n <= 127 -> 2 ^ 23 <= Z.pos m < 2 ^ 24 -> 0 <= j ->
  1023 * 2 ^ j <= 1024 * Z.pos m ^ 12 -> 1024 * Z.pos m ^ 12 <= 1025 * 2 ^ j ->
  276 <= j <= 288.
Proof.
  intros Hn [Hlo Hhi] Hj H1 H2.
  assert (2 ^ 276 <= Z.pos m ^ 12) as Tlo.
  { change (2 ^ 276) with ((2 ^ 23) ^ 12). apply Z.pow_le_mono_l. lia. }
  assert (Z.pos m ^ 12 < 2 ^ 288) as Thi.
  { change (2 ^ 288) with ((2 ^ 24) ^ 12). apply Z.pow_lt_mono_l; lia. }
  set (T := Z.pos m ^ 12) in *.
  split.
  - destruct (Z.le_gt_cases 276 j) as [|Hlt]; [assumption|exfalso].
    pose proof (Z.pow_le_mono_r 2 j 275 ltac:(lia) ltac:(lia)) as Hp.
    assert (2 ^ 276 = 2 * 2 ^ 275) as E by reflexivity.
    pose proof (Z.pow_pos_nonneg 2 275 ltac:(lia) ltac:(lia)).
    set (A := 2 ^ 275) in *. set (B := 2 ^ j) in *. lia.
  - destruct (Z.le_gt_cases j 288) as [|Hlt]; [assumption|exfalso].
    pose proof (Z.pow_le_mono_r 2 289 j ltac:(lia) ltac:(lia)) as Hp.
    assert (2 ^ 289 = 2 * 2 ^ 288) as E by reflexivity.
    pose proof (Z.pow_pos_nonneg 2 288 ltac:(lia) ltac:(lia)).
    set (A := 2 ^ 288) in *. set (B := 2 ^ j) in *. lia.
Qed.

Lemma powf_accurate_value (n e : Z) (m : positive) :
  0 <= n - 69 - 12 * e ->
  1023 * 2 ^ (n - 69 - 12 * e) <= 1024 * Z.pos m ^ 12 ->
  1024 * Z.pos m ^ 12 <= 1025 * 2 ^ (n - 69 - 12 * e) ->
  (1023 * F32.bpow (n - 69) <= 1024 * (IZR (Z.pos m) * F32.bpow e) ^ 12
   <= 1025 * F32.bpow (n - 69))%R.
Proof.
  intros Hj H1 H2. set (j := n - 69 - 12 * e) in *.
  apply IZR_le in H1, H2. rewrite !mult_IZR, IZR_pow2 in H1, H2 by assumption.
  replace (IZR (Z.pos m ^ 12)) with (IZR (Z.pos m) ^ 12)%R in H1, H2
    by (rewrite pow_IZR; reflexivity).
  rewrite Rpow_mult_distr, bpow_pow12.
  replace (n - 69) with (j + 12 * e) by (unfold j; lia).
  rewrite bpow_add. pose proof (bpow_pos (12 * e)). split; nra.
Qed.

(** Two values a semitone apart stay in order after rounding. *)
Lemma semitone_step (k : Z) (p q V W : R) :
  (0 < p)%R -> (0 < q)%R ->
  (1024 * p ^ 12 <= 1025 * F32.bpow k)%R ->
  (1023 * F32.bpow (k + 1) <= 1024 * q ^ 12)%R ->
  (Rabs (V - 440 * p) <= 440 * p * F32.bpow (-24))%R ->
  (Rabs (W - 440 * q) <= 440 * q * F32.bpow (-24))%R ->
  (V < W)%R.
Proof.
  intros Hp Hq Hpk Hqk HV HW.
  apply Rabs_le_bounds in HV, HW.
  assert (0 < F32.bpow (-24) <= / 2048)%R as Hu.
  { split; [apply bpow_pos|].
    replace (/ 2048)%R with (F32.bpow (-11)) by (unfold F32.bpow; simpl; lra).
    apply bpow_le. lia. }
  set (u := F32.bpow (-24)) in *.
  rewrite bpow_add, bpow_1 in Hqk. pose proof (bpow_pos k) as Hk.
  destruct (Rlt_le_dec V W) as [|Hle]; [assumption|exfalso].
  assert (q * (1 - u) <= p * (1 + u))%R as H1 by lra.
  assert (q <= 1001 / 1000 * p)%R as H2.
  { apply Rmult_le_reg_r with (1 - u)%R; [lra|]. nra. }
  assert (q ^ 12 <= (1001 / 1000 * p) ^ 12)%R as H3
    by (apply pow_incr; lra).
  rewrite Rpow_mult_distr in H3.
  assert ((1001 / 1000) ^ 12 <= 102 / 100)%R as H4 by (simpl; lra).
  assert (0 < p ^ 12)%R as H5 by (apply pow_lt; exact Hp).
  nra.
Qed.

Section WithLibm.
Context {libm : Libm}.

(** The frequency of a note, given an accurate [powf]: a positive normal
    number within relative error [2^-24] of [440 * p], where the twelfth
    power of [p] is within [2^-10] of [2^(n - 69)]. *)
Lemma midiNoteToFrequency_value (n : Z) :
  1 <= n <= 127 -> powf_accurate_at n = true ->
  exists (M : positive) (E : Z) (p : R),
    midiNoteToFrequency n = S754_finite false M E /\
    2 ^ 23 <= Z.pos M < 2 ^ 24 /\
    (0 < p)%R /\
    (1023 * F32.bpow (n - 69) <= 1024 * p ^ 12 <= 1025 * F32.bpow (n - 69))%R /\
    (Rabs (IZR (Z.pos M) * F32.bpow E - 440 * p) <= 440 * p * F32.bpow (-24))%R.
Proof.
  intros Hn Hacc. unfold midiNoteToFrequency.
  destruct (n <=? 0) eqn:E0; [lia|].
  unfold powf_accurate_at in Hacc.
  destruct (powf _ _) as [| | |[|] m e]; try discriminate.
  apply andb_prop in Hacc as [Hacc H5]. apply andb_prop in Hacc as [Hacc H4].
  apply andb_prop in Hacc as [Hacc H3]. apply andb_prop in Hacc as [H1 H2].
  apply Z.leb_le in H1, H3, H4, H5. apply Z.ltb_lt in H2.
  pose proof (powf_accurate_exponent n _ m Hn (conj H1 H2) H3 H4 H5) as Hj.
  rewrite of_Z_440.
  destruct (mul_correct false false 14417920 m (-15) e ltac:(simpl; lia)
              (conj H1 H2) ltac:(lia)) as (M & E & Hres & HM & _ & Herr).
  exists M, E, (IZR (Z.pos m) * F32.bpow e)%R.
  split; [exact Hres|]. split; [exact HM|].
  split; [apply Rmult_lt_0_compat; [apply IZR_lt; lia | apply bpow_pos]|].
  split; [apply powf_accurate_value; assumption|].
  replace (IZR 14417920 * F32.bpow (-15))%R with 440%R in Herr
    by (unfold F32.bpow; simpl; lra).
  exact Herr.
Qed.

Lemma midiNoteToFrequency_step (n : Z) :
  1 <= n -> n + 1 <= 127 ->
  powf_accurate_at n = true -> powf_accurate_at (n + 1) = true ->
  (F32.F2R (midiNoteToFrequency n) < F32.F2R (midiNoteToFrequency (n + 1)))%R.
Proof.
  intros H1 H2 Ha Hb.
  destruct (midiNoteToFrequency_value n ltac:(lia) Ha)
    as (M & E & p & -> & _ & Hp & [_ Hpk] & HV).
  destruct (midiNoteToFrequency_value (n + 1) ltac:(lia) Hb)
    as (M' & E' & q & -> & _ & Hq & [Hqk _] & HW).
  replace (n + 1 - 69) with (n - 69 + 1) in Hqk by lia.
  exact (semitone_step (n - 69) p q _ _ Hp Hq Hpk Hqk HV HW).
Qed.

Lemma midiNoteToFrequency_lt (a : Z) (k : nat) :
  (forall n, 1 <= n <= 127 -> powf_accurate_at n = true) ->
  1 <= a -> a + 1 + Z.of_nat k <= 127 ->
  (F32.F2R (midiNoteToFrequency a)
   < F32.F2R (midiNoteToFrequency (a + 1 + Z.of_nat k)))%R.
Proof.
  intros Hacc Ha. induction k as [|k IH]; intros Hb.
  - rewrite Z.add_0_r. apply midiNoteToFrequency_step; try apply Hacc; lia.
  - eapply Rlt_trans; [apply IH; lia|].
    replace (a + 1 + Z.of_nat (S k)) with (a + 1 + Z.of_nat k + 1) by lia.
    apply midiNoteToFrequency_step; try apply Hacc; lia.
Qed.

(** C8.  For every [powf] that returns 1 for the exponent [+0] (as the C
    standard requires) and is accurate to 0.01% at the 127 arguments it is
    called with, the binary32 frequencies of the notes 1 to 127 are strictly
    increasing, and the frequency of note 69 is exactly 440. *)
Theorem midiNoteToFrequency_increasing :
  powf (F32.of_Z 2) F32.zero = F32.one ->
  (forall n, 1 <= n <= 127 -> powf_accurate_at n = true) ->
  (forall a b, 1 <= a -> a < b -> b <= 127 ->
     F32.ltb (midiNoteToFrequency a) (midiNoteToFrequency b) = true) /\
  midiNoteToFrequency 69 = F32.of_Z 440.
Proof.
  intros Hone Hacc. split.
  - intros a b Ha Hab Hb.
    pose proof (midiNoteToFrequency_lt a (Z.to_nat (b - a - 1)) Hacc Ha
                  ltac:(lia)) as Hlt.
    replace (a + 1 + Z.of_nat (Z.to_nat (b - a - 1))) with b in Hlt by lia.
    destruct (midiNoteToFrequency_value a ltac:(lia) (Hacc a ltac:(lia)))
      as (M & E & _ & Hfa & HM & _).
    destruct (midiNoteToFrequency_value b ltac:(lia) (Hacc b ltac:(lia)))
      as (M' & E' & _ & Hfb & HM' & _).
    rewrite Hfa, Hfb in Hlt |- *.
    apply ltb_correct; assumption.
  - unfold midiNoteToFrequency.
    change (F32.div (F32.of_Z (69 - 69)) (F32.of_Z 12)) with F32.zero.
    rewrite Hone. vm_compute. reflexivity.
Qed.

End WithLibm.

Lemma midiNoteToFrequency_increasing_witness :
  (forall a b, 1 <= a -> a < b -> b <= 127 ->
     F32.ltb (@midiNoteToFrequency reference_libm a)
             (@midiNoteToFrequency reference_libm b) = true) /\
  @midiNoteToFrequency reference_libm 69 = F32.of_Z 440.
Proof.
  apply (@midiNoteToFrequency_increasing reference_libm).
  - vm_compute. reflexivity.
  - intros n Hn.
    apply (Z_range_forallb (fun n => @powf_accurate_at reference_libm n) 1 127);
      [vm_compute; reflexivity | lia].
Defined.

End FrequencyClaims.

(** * Further properties of the synthesizer *)

Module SynthesizerProps.

Import Synthesizer Props PoolFacts.
Import F32Facts.

(** ** Initialisation *)

Lemma init_voices_inactive voices : activeVoices (init_voices voices) = 0%nat.
Proof.
  unfold activeVoices, init_voices. apply count_zero_Forall.
  apply Forall_fmap, Forall_forall. intros v _ Ha. simpl in Ha. done.
Qed.

(** [Synthesizer::init] returns [true] exactly when the mutex, the I2S
    driver, the pins and the audio task could all be set up.  Once the mutex
    exists every slot of the table is marked inactive, also when a later step
    fails; when the mutex cannot be created the table is not touched. *)
Theorem init_succeeds_iff (platform : Platform) (voices : list VoiceState) :
  let r := Synthesizer.init platform voices in
  (fst (fst r) = true <->
   mutex_created platform = true /\ driver_installed platform = true /\
   pins_set platform = true /\ task_created platform = true) /\
  (mutex_created platform = true ->
   snd (fst r) = init_voices voices /\ activeVoices (snd (fst r)) = 0%nat /\
   length (snd (fst r)) = length voices) /\
  (mutex_created platform = false ->
   r = (false, voices, [MsgSynthInitializing; ErrCreateMutex])).
Proof.
  assert (Hinit : init_voices voices = init_voices voices /\
                  activeVoices (init_voices voices) = 0%nat /\
                  length (init_voices voices) = length voices).
  { rewrite init_voices_inactive. unfold init_voices. rewrite length_fmap. done. }
  unfold Synthesizer.init. cbv zeta.
  destruct (mutex_created platform), (driver_installed platform),
    (pins_set platform), (task_created platform); cbn [negb fst snd];
    (split; [split; [intros H; try discriminate H; repeat split
                    |intros (? & ? & ? & ?); congruence]
            |split; [intros H; try discriminate H; exact Hinit
                    |intros H; try discriminate H; reflexivity]]).
Qed.

(** ** Velocity and amplitude *)

Lemma velocityToAmplitude_constrain velocity :
  velocityToAmplitude velocity = velocityToAmplitude (constrain velocity 0 127).
Proof. unfold velocityToAmplitude. by rewrite constrain_idem. Qed.

Lemma velocityToAmplitude_step c :
  0 <= c < 127 -> velocityToAmplitude c < velocityToAmplitude (c + 1).
Proof.
  intros Hc. apply Z.ltb_lt.
  apply (forall_from_spec
           (fun c => velocityToAmplitude c <? velocityToAmplitude (c + 1))
           127 0); [vm_compute; reflexivity | lia].
Qed.

Lemma velocityToAmplitude_lt_nat c (k : nat) :
  0 <= c -> c + 1 + Z.of_nat k <= 127 ->
  velocityToAmplitude c < velocityToAmplitude (c + 1 + Z.of_nat k).
Proof.
  intros Hc. induction k as [|k IH]; intros Hk.
  - rewrite Z.add_0_r. apply velocityToAmplitude_step. lia.
  - eapply Z.lt_trans; [apply IH; lia|].
    replace (c + 1 + Z.of_nat (S k)) with (c + 1 + Z.of_nat k + 1) by lia.
    apply velocityToAmplitude_step. lia.
Qed.

(** The amplitude of a velocity is between 0 and the per-voice maximum; it
    is 0 exactly for the velocities of at most 0 and the maximum for those of
    at least 127, and it is strictly increasing in between. *)
Theorem velocityToAmplitude_monotone :
  (forall v, 0 <= velocityToAmplitude v <= SYNTH_MAX_NOTE_AMPLITUDE) /\
  (forall v, velocityToAmplitude v = 0 <-> v <= 0) /\
  (forall v, 127 <= v -> velocityToAmplitude v = SYNTH_MAX_NOTE_AMPLITUDE) /\
  (forall v w, 0 <= v -> v < w -> w <= 127 ->
     velocityToAmplitude v < velocityToAmplitude w) /\
  (forall v w, v <= w -> velocityToAmplitude v <= velocityToAmplitude w).
Proof.
  assert (Hzero : forall v, v <= 0 -> velocityToAmplitude v = 0).
  { intros v Hv. rewrite velocityToAmplitude_constrain.
    replace (constrain v 0 127) with 0; [vm_compute; reflexivity|].
    unfold constrain. destruct (v <? 0) eqn:E; [reflexivity|].
    destruct (v >? 127) eqn:E'; lia. }
  assert (Hmax : forall v, 127 <= v -> velocityToAmplitude v = SYNTH_MAX_NOTE_AMPLITUDE).
  { intros v Hv. rewrite velocityToAmplitude_constrain.
    replace (constrain v 0 127) with 127; [vm_compute; reflexivity|].
    unfold constrain. destruct (v <? 0) eqn:E; [lia|].
    destruct (v >? 127) eqn:E'; lia. }
  assert (Hlt : forall v w, 0 <= v -> v < w -> w <= 127 ->
                velocityToAmplitude v < velocityToAmplitude w).
  { intros v w Hv Hvw Hw.
    pose proof (velocityToAmplitude_lt_nat v (Z.to_nat (w - v - 1)) Hv ltac:(lia))
      as H.
    replace (v + 1 + Z.of_nat (Z.to_nat (w - v - 1))) with w in H by lia.
    exact H. }
  split; [apply velocityToAmplitude_range|].
  split; [|split; [exact Hmax|split; [exact Hlt|]]].
  - intros v. split; [|apply Hzero].
    intros H0. destruct (Z.le_gt_cases v 0) as [|Hpos]; [assumption|].
    pose proof (velocityToAmplitude_pos v Hpos). lia.
  - intros v w Hvw.
    destruct (Z.le_gt_cases v 0) as [Hv|Hv].
    { rewrite (Hzero v Hv). apply velocityToAmplitude_range. }
    destruct (Z.le_gt_cases 127 w) as [Hw|Hw].
    { rewrite (Hmax w Hw). apply velocityToAmplitude_range. }
    destruct (Z.eq_dec v w) as [->|Hne]; [lia|].
    pose proof (Hlt v w ltac:(lia) ltac:(lia) ltac:(lia)). lia.
Qed.

(** ** Half periods *)

(** The half period of a frequency of at most 0 is 0, and that of any other
    frequency is between 1 and 65535: [startNote] rejects a note for its
    half period exactly when the frequency is not positive. *)
Theorem calculate_wavelength_zero_iff (f : f32) :
  (F32.leb f F32.zero = true -> calculate_wavelength f = 0) /\
  (F32.leb f F32.zero = false -> 1 <= calculate_wavelength f <= 65535) /\
  (calculate_wavelength f = 0 <-> F32.leb f F32.zero = true).
Proof.
  assert (H1 : F32.leb f F32.zero = true -> calculate_wavelength f = 0).
  { intros H. unfold calculate_wavelength. rewrite H. reflexivity. }
  assert (H2 : F32.leb f F32.zero = false -> 1 <= calculate_wavelength f <= 65535).
  { intros H. pose proof (calculate_wavelength_range f) as Hr.
    unfold calculate_wavelength, in_uint16 in *. rewrite H in *.
    match goal with |- context [if ?b then _ else _] => destruct b eqn:E end;
      lia. }
  split; [exact H1|]. split; [exact H2|]. split; [|exact H1].
  intros H0. destruct (F32.leb f F32.zero) eqn:E; [reflexivity|].
  specialize (H2 eq_refl). lia.
Qed.


(** ** Note control *)

Lemma stopExisting_lookup n voices i v :
  voices !! i = Some v ->
  stopExisting n voices !! i
  = Some (if decide (findVoicePlayingNote_unsafe n voices = Some i)
          then set_isActive false v else v).
Proof.
  intros Hi. unfold stopExisting.
  destruct (findVoicePlayingNote_unsafe n voices) as [k|] eqn:Hf.
  - rewrite list_lookup_alter. destruct (decide (k = i)) as [->|Hne].
    + rewrite Hi, decide_True by done. reflexivity.
    + rewrite Hi, decide_False by congruence. reflexivity.
  - rewrite Hi, decide_False by done. reflexivity.
Qed.

Lemma count_zero_find n voices :
  activeVoicesFor n voices = 0%nat -> findVoicePlayingNote_unsafe n voices = None.
Proof.
  intros H0. destruct (findVoicePlayingNote_unsafe n voices) as [i|] eqn:Hf;
    [|reflexivity].
  apply findVoicePlayingNote_Some in Hf as (v & Hi & Ha & Hn & _).
  pose proof (count_pos_lookup (plays n) voices i v Hi (conj Ha Hn)) as Hpos.
  unfold activeVoicesFor in H0. lia.
Qed.

Section WithLibm.
Context {libm : Libm}.

Lemma claimVoice_invalid n vel w :
  n <= 0 \/ vel <= 0 ->
  isActive (fst (claimVoice n vel w)) = false /\ snd (claimVoice n vel w) <> [].
Proof.
  intros Hbad. unfold claimVoice. cbn [frequency set_frequency set_targetAmplitude
    set_wavelength set_midiNoteNumber set_isActive wavelength targetAmplitude].
  assert ((0 <? calculate_wavelength (midiNoteToFrequency n))
          && negb (velocityToAmplitude vel =? 0) = false) as ->.
  { destruct Hbad as [Hn|Hv].
    - unfold midiNoteToFrequency. destruct (n <=? 0) eqn:E; [|lia].
      reflexivity.
    - apply andb_false_iff. right.
      assert (velocityToAmplitude vel = 0) as ->; [|reflexivity].
      destruct (Z.eq_dec (velocityToAmplitude vel) 0) as [|Hne]; [assumption|].
      pose proof (velocityToAmplitude_range vel).
      destruct (Z.le_gt_cases vel 0) as [Hle|Hgt]; [|lia].
      rewrite velocityToAmplitude_constrain.
      replace (constrain vel 0 127) with 0; [vm_compute; reflexivity|].
      unfold constrain. destruct (vel <? 0) eqn:E; [reflexivity|].
      destruct (vel >? 127) eqn:E'; lia. }
  split; [reflexivity | discriminate].
Qed.

(** A note-on for a note number of at most 0, or with a velocity of at most
    0, starts nothing: every voice that is active afterwards was in its slot,
    unchanged, before; the request only stops the voice that played the note
    (as every note-on does first), and a warning is printed. *)
Theorem startNote_rejects_invalid (n vel : Z) (voices : list VoiceState) :
  n <= 0 \/ vel <= 0 ->
  (forall i v', fst (startNote n vel voices) !! i = Some v' ->
     isActive v' = true -> voices !! i = Some v') /\
  activeVoices (fst (startNote n vel voices))
  = activeVoices (stopExisting n voices) /\
  length (fst (startNote n vel voices)) = length voices /\
  snd (startNote n vel voices) <> [].
Proof.
  intros Hbad.
  assert (Hstop : forall i v', stopExisting n voices !! i = Some v' ->
            isActive v' = true -> voices !! i = Some v').
  { intros i v' Hi Ha.
    destruct (voices !! i) as [v|] eqn:Hv.
    - rewrite (stopExisting_lookup n voices i v Hv) in Hi.
      destruct (decide _); simplify_eq/=; done.
    - apply lookup_ge_None in Hv. apply lookup_lt_Some in Hi.
      rewrite stopExisting_length in Hi. lia. }
  unfold startNote.
  destruct (findFreeVoice_unsafe (stopExisting n voices)) as [j|] eqn:Hfree.
  - apply findFreeVoice_Some in Hfree as (w & Hj & Hw & _). rewrite Hj.
    destruct (claimVoice_invalid n vel w Hbad) as [Hin Hmsg].
    destruct (claimVoice n vel w) as [w' msgs]. cbn [fst snd] in *.
    split; [|split; [|split]].
    + intros i v' Hi Ha. destruct (decide (j = i)) as [->|Hne].
      * rewrite list_lookup_insert_eq in Hi by (eapply lookup_lt_Some; eauto).
        simplify_eq. congruence.
      * rewrite list_lookup_insert_ne in Hi by done. by apply Hstop.
    + unfold activeVoices.
      pose proof (count_insert (fun v => isActive v = true) _ j w w' Hj) as Hc.
      unfold indicator in Hc.
      rewrite !decide_False in Hc by congruence. lia.
    + by rewrite length_insert, stopExisting_length.
    + exact Hmsg.
  - cbn [fst snd]. split; [exact Hstop|]. split; [reflexivity|].
    split; [apply stopExisting_length | discriminate].
Qed.

Lemma startNote_valid (n vel : Z) (voices : list VoiceState) (j : nat) :
  0 < vel -> F32.leb (midiNoteToFrequency n) F32.zero = false ->
  findFreeVoice_unsafe (stopExisting n voices) = Some j ->
  startNote n vel voices
  = (<[j := mkVoiceState true n (midiNoteToFrequency n)
             (velocityToAmplitude vel) (velocityToAmplitude vel)
             (calculate_wavelength (midiNoteToFrequency n))
             (calculate_wavelength (midiNoteToFrequency n))]>
       (stopExisting n voices), []).
Proof.
  intros Hvel Hfreq Hfree. unfold startNote. rewrite Hfree.
  apply findFreeVoice_Some in Hfree as (w & Hj & Hw & Hfirst). rewrite Hj.
  unfold claimVoice. cbn [frequency set_frequency set_targetAmplitude
    set_wavelength set_midiNoteNumber set_isActive wavelength targetAmplitude].
  pose proof (velocityToAmplitude_pos vel Hvel) as Hamp.
  pose proof (calculate_wavelength_range (midiNoteToFrequency n)) as Hr.
  assert (1 <= calculate_wavelength (midiNoteToFrequency n)) as Hwl.
  { unfold calculate_wavelength in *. rewrite Hfreq in *.
    match goal with |- context [if ?b then _ else _] => destruct b eqn:E end;
      lia. }
  destruct (0 <? calculate_wavelength (midiNoteToFrequency n)) eqn:E1; [|lia].
  destruct (velocityToAmplitude vel =? 0) eqn:E2; [lia|]. reflexivity.
Qed.

(** A note-on with a positive velocity for a note of positive frequency,
    when a slot is free: the first free slot is claimed and every field of
    it is written, so that nothing of its previous occupant is left; nothing
    is printed. *)
Theorem startNote_claims_first_free_voice (n vel : Z)
    (voices : list VoiceState) (j : nat) :
  0 < vel -> F32.leb (midiNoteToFrequency n) F32.zero = false ->
  findFreeVoice_unsafe (stopExisting n voices) = Some j ->
  startNote n vel voices
  = (<[j := mkVoiceState true n (midiNoteToFrequency n)
             (velocityToAmplitude vel) (velocityToAmplitude vel)
             (calculate_wavelength (midiNoteToFrequency n))
             (calculate_wavelength (midiNoteToFrequency n))]>
       (stopExisting n voices), []) /\
  (forall k w, (k < j)%nat -> stopExisting n voices !! k = Some w ->
     isActive w = true) /\
  (j < length voices)%nat.
Proof.
  intros Hvel Hfreq Hfree.
  split; [by apply startNote_valid|].
  apply findFreeVoice_Some in Hfree as (w & Hj & Hw & Hfirst). split.
  - intros k w' Hk Hw'. eapply Hfirst; eauto.
  - apply lookup_lt_Some in Hj. by rewrite stopExisting_length in Hj.
Qed.

(** [startNote] writes at most two slots: the one that played the note and
    the one it claims.  Every other slot is as it was, and the table keeps
    its length. *)
Theorem startNote_frame (n vel : Z) (voices : list VoiceState) (i : nat)
    (v : VoiceState) :
  voices !! i = Some v ->
  findVoicePlayingNote_unsafe n voices <> Some i ->
  findFreeVoice_unsafe (stopExisting n voices) <> Some i ->
  fst (startNote n vel voices) !! i = Some v /\
  length (fst (startNote n vel voices)) = length voices.
Proof.
  intros Hi Hplay Hfree.
  assert (stopExisting n voices !! i = Some v) as Hs.
  { rewrite (stopExisting_lookup n voices i v Hi), decide_False by done.
    reflexivity. }
  unfold startNote.
  destruct (findFreeVoice_unsafe (stopExisting n voices)) as [j|];
    [|split; [exact Hs | apply stopExisting_length]].
  destruct (stopExisting n voices !! j) as [w|];
    [|split; [exact Hs | apply stopExisting_length]].
  destruct (claimVoice n vel w) as [w' msgs]. cbn [fst].
  rewrite list_lookup_insert_ne by congruence.
  by rewrite length_insert, stopExisting_length.
Qed.

End WithLibm.

(** [stopNote] does nothing when no active voice plays the note; otherwise
    it writes the first slot that plays it and no other.  The table keeps its
    length, and the number of active voices of every other note is as it
    was. *)
Theorem stopNote_frame (n : Z) (voices : list VoiceState) :
  (findVoicePlayingNote_unsafe n voices = None -> stopNote n voices = voices) /\
  (forall i v, voices !! i = Some v ->
     findVoicePlayingNote_unsafe n voices <> Some i ->
     stopNote n voices !! i = Some v) /\
  length (stopNote n voices) = length voices /\
  (forall m, m <> n ->
     activeVoicesFor m (stopNote n voices) = activeVoicesFor m voices).
Proof.
  unfold stopNote.
  destruct (findVoicePlayingNote_unsafe n voices) as [k|] eqn:Hf.
  - split; [discriminate|]. split; [|split].
    + intros i v Hi Hne. rewrite list_lookup_alter_ne by congruence. exact Hi.
    + apply length_alter.
    + intros m Hm.
      apply findVoicePlayingNote_Some in Hf as (v & Hk & Ha & Hn & _).
      unfold activeVoicesFor.
      pose proof (count_alter (plays m)
                    (fun voice => set_currentOutput 0 (set_isActive false voice))
                    voices k v Hk) as Hc.
      cbn beta in Hc.
      rewrite (indicator_inactive m (set_currentOutput 0 (set_isActive false v))
                 eq_refl) in Hc.
      rewrite (indicator_other m v) in Hc by congruence. lia.
  - repeat split; try reflexivity. intros i v Hi _. exact Hi.
Qed.

(** In a table with at most one active voice per note (every reachable
    table is one), no active voice plays the note after a note-off, and a
    second note-off for the same note changes nothing. *)
Theorem stopNote_idempotent (n : Z) (voices : list VoiceState) :
  (activeVoicesFor n voices <= 1)%nat ->
  stopNote n (stopNote n voices) = stopNote n voices /\
  findVoicePlayingNote_unsafe n (stopNote n voices) = None.
Proof.
  intros Hle.
  assert (findVoicePlayingNote_unsafe n (stopNote n voices) = None) as Hnone.
  { apply count_zero_find. apply stopNote_count. exact Hle. }
  split; [|exact Hnone].
  unfold stopNote at 1. rewrite Hnone. reflexivity.
Qed.

(** ** The voice table over time *)

Section WithLibm.
Context {libm : Libm}.

(** Every table the firmware can reach has [SYNTH_MAX_VOICES] slots; each
    active voice in it has the frequency and half period of its note, a
    positive half period, an amplitude between 1 and the per-voice maximum,
    its output at plus or minus the amplitude and its countdown within the
    half period; and its fields hold values of their C types. *)
Theorem reachable_invariant (voices : list VoiceState) :
  reachable voices ->
  length voices = SYNTH_MAX_VOICES /\
  (activeVoices voices <= SYNTH_MAX_VOICES)%nat /\
  Forall voice_ok voices /\
  Forall (fun v => isActive v = true -> wf_voice v) voices.
Proof.
  intros Hr. pose proof (reachable_length voices Hr) as Hlen.
  pose proof (reachable_ok voices Hr) as Hok. unfold wf_pool in Hlen.
  split; [exact Hlen|]. split; [|split; [exact Hok|]].
  - rewrite <- Hlen. unfold activeVoices. apply length_filter.
  - eapply Forall_impl; [exact Hok|]. intros v Hv Ha.
    destruct (Hv Ha) as (_ & Hw & Hwl & Hamp & Hcur & Ht).
    unfold SYNTH_MAX_NOTE_AMPLITUDE in *.
    pose proof (calculate_wavelength_range (frequency v)) as Hwu.
    rewrite <- Hw in Hwu.
    unfold wf_voice, in_int16, in_uint16 in *. lia.
Qed.

End WithLibm.

(** The audio task writes two fields only.  An iteration leaves the length
    of the table, and in every slot the active flag, the note, the
    frequency, the amplitude and the half period as they were. *)
Theorem audioTaskIteration_frame (voices : list VoiceState) :
  length (fst (audioTaskIteration voices)) = length voices /\
  (forall i v, voices !! i = Some v ->
     exists v', fst (audioTaskIteration voices) !! i = Some v' /\
       isActive v' = isActive v /\ midiNoteNumber v' = midiNoteNumber v /\
       frequency v' = frequency v /\ targetAmplitude v' = targetAmplitude v /\
       wavelength v' = wavelength v) /\
  activeVoices (fst (audioTaskIteration voices)) = activeVoices voices.
Proof.
  rewrite audioTaskIteration_spec. cbn [fst].
  split; [apply length_fmap|]. split.
  - intros i v Hi. exists (renderStep v).
    rewrite list_lookup_fmap, Hi. split; [reflexivity|].
    unfold renderStep. destruct (isActive v) eqn:Ha; [|by rewrite Ha].
    unfold advanceVoice.
    destruct (timeAtLevelRemaining v =? 0); cbn;
      match goal with |- context [if ?b then _ else _] => destruct b end;
      cbn; rewrite ?Ha; done.
  - unfold activeVoices. apply count_fmap_iff. intros v.
    unfold renderStep. destruct (isActive v) eqn:Ha; [|by rewrite Ha].
    by rewrite advanceVoice_isActive, Ha.
Qed.

(** *** The square wave of one voice *)

Lemma advanceVoice_countdown v :
  0 < timeAtLevelRemaining v ->
  advanceVoice v = set_timeAtLevelRemaining (timeAtLevelRemaining v - 1) v.
Proof.
  intros Ht. unfold advanceVoice.
  destruct (timeAtLevelRemaining v =? 0) eqn:E0; [lia|].
  destruct (0 <? timeAtLevelRemaining v) eqn:E1; [reflexivity|lia].
Qed.

Lemma advanceVoice_flip v :
  timeAtLevelRemaining v = 0 -> 0 < wavelength v ->
  advanceVoice v
  = set_timeAtLevelRemaining (wavelength v - 1)
      (set_currentOutput
         (if currentOutput v =? targetAmplitude v
          then wrap_int16 (- targetAmplitude v) else targetAmplitude v) v).
Proof.
  intros Ht Hw. unfold advanceVoice. rewrite Ht. cbn.
  destruct (0 <? wavelength v) eqn:E; [reflexivity|lia].
Qed.

(** The state of a voice [i] iterations after it was started. *)
Lemma square_wave_state (v : VoiceState) (i : nat) :
  0 < wavelength v -> 0 < targetAmplitude v <= 32767 ->
  currentOutput v = targetAmplitude v ->
  timeAtLevelRemaining v = wavelength v ->
  exists q r,
    Z.of_nat i = q * wavelength v + r /\ 0 <= q /\ 0 <= r < wavelength v /\
    Nat.iter (S i) advanceVoice v
    = set_timeAtLevelRemaining (wavelength v - 1 - r)
        (set_currentOutput
           (if Z.even q then targetAmplitude v else - targetAmplitude v) v).
Proof.
  intros Hw Ha Hout Ht. induction i as [|i IH].
  - exists 0, 0. repeat split; try lia. cbn [Nat.iter].
    rewrite advanceVoice_countdown by lia. rewrite Ht. cbn.
    destruct v; cbn in *. subst. f_equal. lia.
  - destruct IH as (q & r & Hi & Hq & Hr & Hst).
    rewrite Nat.iter_succ, Hst.
    destruct (Z.eq_dec r (wavelength v - 1)) as [->|Hne].
    + exists (q + 1), 0. repeat split; try lia.
      rewrite advanceVoice_flip by (cbn; lia). cbn.
      rewrite Z.even_add. cbn.
      destruct (Z.even q) eqn:Eq; cbn.
      * rewrite Z.eqb_refl, wrap_int16_small by (unfold in_int16; lia).
        unfold set_timeAtLevelRemaining, set_currentOutput. cbn. f_equal. lia.
      * destruct (- targetAmplitude v =? targetAmplitude v) eqn:E; [lia|].
        unfold set_timeAtLevelRemaining, set_currentOutput. cbn. f_equal. lia.
    + exists q, (r + 1). repeat split; try lia.
      rewrite advanceVoice_countdown by (cbn; lia).
      unfold set_timeAtLevelRemaining, set_currentOutput. cbn. f_equal. lia.
Qed.

(** A voice that has just been started (output at the amplitude, countdown
    at the half period [w]) emits a square wave: the output after the
    iterations [1 .. w] is the amplitude, after [w+1 .. 2w] its negation, and
    so on; the output after iteration [i + 1] is plus or minus the amplitude
    as [i / w] is even or odd. *)
Theorem square_wave (v : VoiceState) (i : nat) :
  0 < wavelength v -> 0 < targetAmplitude v <= 32767 ->
  currentOutput v = targetAmplitude v ->
  timeAtLevelRemaining v = wavelength v ->
  currentOutput (Nat.iter (S i) advanceVoice v)
  = (if Z.even (Z.of_nat i / wavelength v)
     then targetAmplitude v else - targetAmplitude v) /\
  timeAtLevelRemaining (Nat.iter (S i) advanceVoice v)
  = wavelength v - 1 - Z.of_nat i mod wavelength v.
Proof.
  intros Hw Ha Hout Ht.
  destruct (square_wave_state v i Hw Ha Hout Ht) as (q & r & Hi & Hq & Hr & Hst).
  assert (Z.of_nat i / wavelength v = q) as Hdiv.
  { symmetry. apply (Z.div_unique _ _ q r); lia. }
  assert (Z.of_nat i mod wavelength v = r) as Hmod.
  { symmetry. apply (Z.mod_unique _ _ q r); lia. }
  rewrite Hst, Hdiv, Hmod. split; reflexivity.
Qed.

(** ** Samples *)

Lemma of_Z_32767 : F32.of_Z 32767 = S754_finite false 16776704 (-9).
Proof. vm_compute. reflexivity. Qed.

Lemma of_Z_m32768 : F32.of_Z (-32768) = S754_finite true 8388608 (-8).
Proof. vm_compute. reflexivity. Qed.

(** The average of at most 8 outputs within the per-voice maximum is within
    that maximum after the binary32 division and the rounding, and neither
    clamp applies to it. *)
Lemma mixSample_bounded (s k : Z) :
  1 <= k <= 8 ->
  - (SYNTH_MAX_NOTE_AMPLITUDE * k) <= s <= SYNTH_MAX_NOTE_AMPLITUDE * k ->
  let mixedSample_f := F32.div (F32.of_Z s) (F32.of_Z k) in
  F32.ltb (F32.of_Z SYNTH_MAX_OUTPUT_AMPLITUDE) mixedSample_f = false /\
  F32.ltb mixedSample_f (F32.of_Z SYNTH_MIN_OUTPUT_AMPLITUDE) = false /\
  mixSample s k = F32.to_int16 (F32.roundf mixedSample_f) /\
  - SYNTH_MAX_NOTE_AMPLITUDE <= mixSample s k <= SYNTH_MAX_NOTE_AMPLITUDE.
Proof.
  intros Hk Hs mixedSample_f.
  unfold SYNTH_MAX_NOTE_AMPLITUDE, SYNTH_MAX_OUTPUT_AMPLITUDE,
    SYNTH_MIN_OUTPUT_AMPLITUDE in *.
  assert (F32.ltb (F32.of_Z 32767) mixedSample_f = false /\
          F32.ltb mixedSample_f (F32.of_Z (-32768)) = false /\
          -16000 <= F32.to_int16 (F32.roundf mixedSample_f) <= 16000)
    as (H1 & H2 & H3); cycle 1.
  { split; [exact H1|]. split; [exact H2|].
    assert (mixSample s k = F32.to_int16 (F32.roundf mixedSample_f)) as ->.
    { unfold mixSample. destruct (Z.ltb_spec 0 k); [|lia].
      fold mixedSample_f.
      unfold SYNTH_MAX_OUTPUT_AMPLITUDE, SYNTH_MIN_OUTPUT_AMPLITUDE.
      rewrite H1, H2. reflexivity. }
    split; [reflexivity | exact H3]. }
  destruct (Z.eq_dec s 0) as [->|Hs0].
  { unfold mixedSample_f.
    assert (k = 1 \/ k = 2 \/ k = 3 \/ k = 4 \/ k = 5 \/ k = 6 \/ k = 7 \/ k = 8)
      as Hcases by lia.
    repeat (destruct Hcases as [->|Hcases]); try subst k;
      vm_compute; repeat split; discriminate. }
  destruct (of_Z_exact s ltac:(lia)) as (ms & es & Hofs & Hms & Hes & Hvs).
  destruct (of_Z_exact k ltac:(lia)) as (mk & ek & Hofk & Hmk & Hek & Hvk).
  assert ((k <? 0) = false) as Hksign by (apply Z.ltb_ge; lia).
  rewrite Hksign in Hofk.
  destruct (div_correct (s <? 0) false ms mk es ek Hms Hmk ltac:(lia))
    as (M & E & Hdiv & HM & _ & Herr).
  rewrite xorb_false_r in Hdiv.
  unfold mixedSample_f. rewrite Hofs, Hofk, Hdiv.
  set (b := s <? 0) in *.
  assert (IZR (Z.pos ms) * F32.bpow es = IZR (Z.abs s))%R as Hrs.
  { rewrite Hvs, mult_IZR, IZR_pow2 by lia. apply bpow_cancel. }
  assert (IZR (Z.pos mk) * F32.bpow ek = IZR k)%R as Hrk.
  { rewrite Hvk, mult_IZR, IZR_pow2 by lia.
    replace (Z.abs k) with k by lia. apply bpow_cancel. }
  rewrite Hrs, Hrk in Herr.
  set (x := (IZR (Z.pos M) * F32.bpow E)%R) in *.
  assert (0 < IZR k)%R as Hk0 by (apply IZR_lt; lia).
  assert (0 < IZR (Z.abs s) / IZR k <= 16000)%R as HX.
  { assert (0 < IZR (Z.abs s))%R as Ha by (apply IZR_lt; lia).
    assert (IZR (Z.abs s) <= 16000 * IZR k)%R as Hb.
    { rewrite <- mult_IZR. apply IZR_le. lia. }
    split; [apply Rdiv_lt_0_compat; assumption|].
    apply Rmult_le_reg_r with (IZR k); [exact Hk0|].
    unfold Rdiv. rewrite Rmult_assoc, Rinv_l, Rmult_1_r by lra. exact Hb. }
  set (X := (IZR (Z.abs s) / IZR k)%R) in *.
  assert (0 < F32.bpow (-24) <= / 65536)%R as Hu.
  { split; [apply bpow_pos|].
    replace (/ 65536)%R with (F32.bpow (-16)) by (unfold F32.bpow; simpl; lra).
    apply bpow_le. lia. }
  apply Rabs_le_bounds in Herr.
  assert (0 < x < 16000 + / 2)%R as Hx by nra.
  assert (E <= 0) as HE.
  { destruct HM as [HMlo _]. apply IZR_le in HMlo.
    rewrite IZR_pow2 in HMlo by lia. pose proof (bpow_pos E) as HbE.
    assert (16000 + / 2 < F32.bpow 14)%R as H14
      by (unfold F32.bpow; simpl; lra).
    assert (F32.bpow (23 + E) < F32.bpow 14)%R as Hcmp
      by (rewrite bpow_add; unfold x in Hx; nra).
    apply bpow_lt_inv in Hcmp. lia. }
  assert (E < -9) as HE9.
  { destruct HM as [HMlo _]. apply IZR_le in HMlo.
    rewrite IZR_pow2 in HMlo by lia. pose proof (bpow_pos E) as HbE.
    assert (16000 + / 2 < F32.bpow 14)%R as H14
      by (unfold F32.bpow; simpl; lra).
    assert (F32.bpow (23 + E) < F32.bpow 14)%R as Hcmp
      by (rewrite bpow_add; unfold x in Hx; nra).
    apply bpow_lt_inv in Hcmp. lia. }
  destruct (roundf_to_Z_pos M E HM HE) as [Hrange Hnear].
  set (d := F32.to_Z (F32.roundf (S754_finite false M E))) in *.
  fold x in Hnear.
  assert (0 <= d <= 16000) as Hd.
  { split; [lia|].
    assert (IZR d < 16001)%R as Hlt by lra.
    apply lt_IZR in Hlt. lia. }
  split; [|split].
  - rewrite of_Z_32767. destruct b; [reflexivity|].
    apply ltb_ge_false; [simpl; lia | exact HM |].
    fold x. replace (IZR 16776704 * F32.bpow (-9))%R with 32767%R
      by (unfold F32.bpow; simpl; lra).
    lra.
  - rewrite of_Z_m32768. destruct b; [|reflexivity].
    unfold F32.ltb, SFltb, SFcompare.
    destruct (Z.compare_spec E (-8)); try lia; reflexivity.
  - unfold F32.to_int16. rewrite (roundf_to_Z_sign b M E HM HE). fold d.
    rewrite wrap_int16_small by (unfold in_int16; destruct b; simpl; lia).
    destruct b; simpl; lia.
Qed.

Section WithLibm.
Context {libm : Libm}.

Lemma mixSum_bounded (voices : list VoiceState) :
  Forall voice_ok voices ->
  - (SYNTH_MAX_NOTE_AMPLITUDE * Z.of_nat (activeVoices voices))
  <= mixSum voices
  <= SYNTH_MAX_NOTE_AMPLITUDE * Z.of_nat (activeVoices voices).
Proof.
  unfold SYNTH_MAX_NOTE_AMPLITUDE.
  induction 1 as [|v voices Hv _ IH]; [cbn; lia|].
  rewrite activeVoices_cons. cbn [mixSum foldr]. fold (mixSum voices).
  destruct (isActive v) eqn:Ha; [|cbn [Nat.add]; exact IH].
  pose proof (advanceVoice_ok v Hv) as Hok.
  destruct (Hok ltac:(by rewrite advanceVoice_isActive))
    as (_ & _ & _ & Hamp & Hcur & _).
  unfold SYNTH_MAX_NOTE_AMPLITUDE in Hamp. lia.
Qed.

(** In every reachable table the sample an iteration emits is within the
    per-voice maximum: the mixer averages outputs that are each within it,
    and neither the division nor the rounding takes the average outside.
    The two clamps to the 16-bit range therefore never apply; the sample is
    the rounded average itself. *)
Theorem mix_within_voice_maximum (voices : list VoiceState) :
  reachable voices ->
  - SYNTH_MAX_NOTE_AMPLITUDE <= snd (audioTaskIteration voices)
  <= SYNTH_MAX_NOTE_AMPLITUDE /\
  ((0 < activeVoices voices)%nat ->
   let mixedSample_f :=
     F32.div (F32.of_Z (mixSum voices))
             (F32.of_Z (Z.of_nat (activeVoices voices))) in
   F32.ltb (F32.of_Z SYNTH_MAX_OUTPUT_AMPLITUDE) mixedSample_f = false /\
   F32.ltb mixedSample_f (F32.of_Z SYNTH_MIN_OUTPUT_AMPLITUDE) = false /\
   snd (audioTaskIteration voices) = F32.to_int16 (F32.roundf mixedSample_f)).
Proof.
  intros Hr. rewrite audioTaskIteration_spec. cbn [snd].
  pose proof (reachable_ok voices Hr) as Hok.
  pose proof (reachable_length voices Hr) as Hlen. unfold wf_pool in Hlen.
  pose proof (mixSum_bounded voices Hok) as Hsum.
  assert (activeVoices voices <= 8)%nat as Hmax.
  { change 8%nat with SYNTH_MAX_VOICES. rewrite <- Hlen.
    unfold activeVoices. apply length_filter. }
  destruct (activeVoices voices) as [|k'] eqn:Hk.
  - split; [|lia].
    assert (mixSample (mixSum voices) (Z.of_nat 0) = 0) as -> by reflexivity.
    unfold SYNTH_MAX_NOTE_AMPLITUDE. lia.
  - destruct (mixSample_bounded (mixSum voices) (Z.of_nat (S k'))
                ltac:(lia) Hsum) as (H1 & H2 & H3 & H4).
    split; [exact H4|]. intros _. cbv zeta. repeat split; assumption.
Qed.

End WithLibm.


(** The word written to the I2S port carries the sample twice: it is a
    32-bit value whose upper and lower halves both decode, as 16-bit two's
    complement, to the sample. *)
Theorem i2s_word_halves (sample_value : Z) :
  in_int16 sample_value ->
  0 <= i2s_word sample_value < 2 ^ 32 /\
  wrap_int16 (i2s_word sample_value mod 2 ^ 16) = sample_value /\
  wrap_int16 (i2s_word sample_value / 2 ^ 16) = sample_value /\
  i2s_word sample_value = wrap_uint16 sample_value * 2 ^ 16 + wrap_uint16 sample_value.
Proof.
  intros Hs. unfold i2s_word.
  change 65535 with (Z.ones 16). rewrite Z.land_ones by lia.
  unfold wrap_uint16. change 65536 with (2 ^ 16).
  set (u := sample_value mod 2 ^ 16).
  assert (0 <= u < 2 ^ 16) as Hu by (apply Z.mod_pos_bound; lia).
  assert (wrap_int16 u = sample_value) as Hdec.
  { unfold wrap_int16, u, in_int16 in *. change 65536 with (2 ^ 16).
    rewrite Zplus_mod_idemp_l. rewrite Z.mod_small; lia. }
  assert (Z.lor (Z.shiftl u 16) u = u * 2 ^ 16 + u) as ->.
  { rewrite Z.shiftl_mul_pow2 by lia.
    rewrite <- Z.add_nocarry_lor; [reflexivity|].
    apply Z.bits_inj'. intros k Hk. rewrite Z.land_spec, Z.bits_0.
    destruct (Z.lt_ge_cases k 16) as [Hlt|Hge].
    - rewrite Z.mul_pow2_bits_low by lia. reflexivity.
    - rewrite (Z.bits_above_log2 u k); [apply andb_false_r|lia|].
      destruct (Z.eq_dec u 0) as [->|Hne]; [simpl; lia|].
      pose proof (Z.pow_le_mono_r 2 16 k ltac:(lia) Hge).
      apply Z.log2_lt_pow2; lia. }
  split; [|split; [|split; [|reflexivity]]].
  - change (2 ^ 32) with (2 ^ 16 * 2 ^ 16). nia.
  - rewrite Z.add_comm, Z.mod_add, Z.mod_small by lia. exact Hdec.
  - rewrite Z.add_comm, Z.div_add, Z.div_small by lia. exact Hdec.
Qed.

(** ** Runs of the audio task *)

Lemma audioTaskRunner_succ n voices :
  audioTaskRunner (S n) voices
  = (fst (audioTaskRunner n (fst (audioTaskIteration voices))),
     snd (audioTaskIteration voices)
       :: snd (audioTaskRunner n (fst (audioTaskIteration voices)))).
Proof.
  cbn [audioTaskRunner]. destruct (audioTaskIteration voices) as [voices' s].
  cbn [fst snd]. destruct (audioTaskRunner n voices') as [voices'' ss].
  reflexivity.
Qed.

Lemma renderStep_inactive voices :
  activeVoices voices = 0%nat -> renderStep <$> voices = voices.
Proof.
  induction voices as [|v voices IH]; [reflexivity|].
  rewrite activeVoices_cons. intros H. rewrite fmap_cons.
  unfold renderStep at 1. destruct (isActive v); [lia|].
  rewrite IH by lia. reflexivity.
Qed.

(** With no active voice the audio task emits silence and leaves the table
    as it is, for any number of iterations. *)
Theorem audioTaskRunner_silence (n : nat) (voices : list VoiceState) :
  activeVoices voices = 0%nat ->
  audioTaskRunner n voices = (voices, replicate n 0).
Proof.
  intros Hnone. induction n as [|n IH]; [reflexivity|].
  rewrite audioTaskRunner_succ, audioTaskIteration_spec. cbn [fst snd].
  rewrite renderStep_inactive, IH, Hnone by exact Hnone. reflexivity.
Qed.

(** *** One voice, from note-on to samples *)

Lemma advanceVoice_wf v : wf_voice v -> wf_voice (advanceVoice v).
Proof.
  intros Hwf. pose proof (advanceVoice_in_int16 v Hwf) as Hout.
  destruct Hwf as (Ha & Hc & Hw & Ht).
  unfold wf_voice. split; [|split; [exact Hout|split]].
  - unfold advanceVoice. destruct (timeAtLevelRemaining v =? 0); cbn;
      match goal with |- context [if ?b then _ else _] => destruct b end; exact Ha.
  - unfold advanceVoice. destruct (timeAtLevelRemaining v =? 0); cbn;
      match goal with |- context [if ?b then _ else _] => destruct b end; exact Hw.
  - unfold advanceVoice, in_uint16 in *.
    destruct (timeAtLevelRemaining v =? 0) eqn:E0; cbn.
    + destruct (0 <? wavelength v) eqn:E1; cbn; lia.
    + destruct (0 <? timeAtLevelRemaining v) eqn:E1; cbn; lia.
Qed.

Lemma renderStep_one_voice voices : forall j v,
  voices !! j = Some v -> isActive v = true -> activeVoices voices = 1%nat ->
  renderStep <$> voices = <[j := advanceVoice v]> voices.
Proof.
  induction voices as [|w voices IH]; intros [|j] v Hj Ha Hone; simplify_eq/=.
  - rewrite activeVoices_cons, Ha in Hone.
    rewrite renderStep_inactive by lia. unfold renderStep. by rewrite Ha.
  - rewrite activeVoices_cons in Hone.
    pose proof (count_pos_lookup (fun v => isActive v = true) voices j v Hj Ha)
      as Hpos. fold (activeVoices voices) in Hpos.
    unfold renderStep at 1. destruct (isActive w); [lia|].
    rewrite (IH j v Hj Ha) by lia. reflexivity.
Qed.

Lemma activeVoices_insert_active voices j v v' :
  voices !! j = Some v -> isActive v = true -> isActive v' = true ->
  activeVoices (<[j := v']> voices) = activeVoices voices.
Proof.
  intros Hj Ha Ha'. unfold activeVoices.
  pose proof (count_insert (fun v => isActive v = true) voices j v v' Hj) as Hc.
  unfold indicator in Hc. rewrite !decide_True in Hc by done. lia.
Qed.

(** The table and the samples after [k] iterations, when one voice is
    active. *)
Lemma audioTaskRunner_one_voice (k : nat) : forall voices j v,
  voices !! j = Some v -> isActive v = true -> wf_voice v ->
  activeVoices voices = 1%nat ->
  audioTaskRunner k voices
  = (<[j := Nat.iter k advanceVoice v]> voices,
     (fun i => currentOutput (Nat.iter (S i) advanceVoice v)) <$> seq 0 k).
Proof.
  induction k as [|k IH]; intros voices j v Hj Ha Hwf Hone.
  - cbn. by rewrite list_insert_id.
  - rewrite audioTaskRunner_succ, audioTaskIteration_spec. cbn [fst snd].
    rewrite (renderStep_one_voice voices j v Hj Ha Hone), Hone.
    rewrite (mixSum_one_voice voices j v Hj Ha Hone).
    rewrite mixSample_one by (by apply advanceVoice_in_int16).
    rewrite (IH (<[j := advanceVoice v]> voices) j (advanceVoice v)); cycle 1.
    + apply list_lookup_insert_eq. eapply lookup_lt_Some; eauto.
    + by rewrite advanceVoice_isActive.
    + by apply advanceVoice_wf.
    + rewrite (activeVoices_insert_active voices j v) by
        (try rewrite advanceVoice_isActive; done). exact Hone.
    + rewrite list_insert_insert_eq, (Nat.iter_succ_r k). f_equal.
      cbn [seq fmap list_fmap]. f_equal.
      rewrite <- seq_shift, <- list_fmap_compose. apply list_fmap_ext.
      intros _ i _. unfold compose.
      rewrite (Nat.iter_succ_r (S i)). reflexivity.
Qed.

Section WithLibm.
Context {libm : Libm}.

(** A note-on into the initialised table, followed by [k] iterations of
    the audio task: the samples are a square wave of the note's amplitude
    and half period, starting high.  Sample [i] (from 0) is the amplitude of
    the velocity when [i / wavelength] is even and its negation when it is
    odd. *)
Theorem started_note_is_a_square_wave (n vel : Z) (k : nat) :
  0 < vel -> F32.leb (midiNoteToFrequency n) F32.zero = false ->
  let w := calculate_wavelength (midiNoteToFrequency n) in
  let a := velocityToAmplitude vel in
  0 < w /\ 0 < a /\
  snd (audioTaskRunner k (fst (startNote n vel initial_voices)))
  = (fun i => if Z.even (Z.of_nat i / w) then a else - a) <$> seq 0 k.
Proof.
  intros Hvel Hfreq w a.
  assert (stopExisting n initial_voices = initial_voices) as Hstop.
  { unfold stopExisting. rewrite findVoicePlayingNote_absent; [reflexivity|].
    unfold initial_voices, init_voices. apply Forall_fmap, Forall_forall.
    intros v _ [Ha _]. discriminate Ha. }
  assert (findFreeVoice_unsafe (stopExisting n initial_voices) = Some 0%nat)
    as Hfree by (rewrite Hstop; reflexivity).
  rewrite (startNote_valid n vel initial_voices 0 Hvel Hfreq Hfree), Hstop.
  cbn [fst]. fold w a.
  pose proof (velocityToAmplitude_pos vel Hvel) as Ha. fold a in Ha.
  pose proof (velocityToAmplitude_range vel) as Har. fold a in Har.
  unfold SYNTH_MAX_NOTE_AMPLITUDE in Har.
  pose proof (calculate_wavelength_range (midiNoteToFrequency n)) as Hwr.
  fold w in Hwr.
  assert (0 < w) as Hw.
  { unfold w, calculate_wavelength in *. rewrite Hfreq in *.
    match goal with |- context [if ?b then _ else _] => destruct b eqn:E end;
      lia. }
  split; [exact Hw|]. split; [exact Ha|].
  set (v := mkVoiceState true n (midiNoteToFrequency n) a a w w).
  rewrite (audioTaskRunner_one_voice k _ 0%nat v); cycle 1.
  - reflexivity.
  - reflexivity.
  - unfold wf_voice, in_int16, in_uint16 in *. cbn. lia.
  - reflexivity.
  - cbn [snd]. apply list_fmap_ext. intros _ i _.
    destruct (square_wave_state v i) as (q & r & Hi & Hq & Hr & Hst);
      try (cbn; lia); try reflexivity.
    rewrite Hst. cbn in *.
    assert (Z.of_nat i / w = q) as ->
      by (symmetry; apply (Z.div_unique _ _ q r); lia).
    reflexivity.
Qed.

End WithLibm.

(** ** Instances *)

Lemma startNote_rejects_invalid_witness :
  activeVoices (fst (@startNote reference_libm 0 100 initial_voices))
  = activeVoices (@stopExisting 0 initial_voices) /\
  snd (@startNote reference_libm 0 100 initial_voices) <> [].
Proof.
  destruct (@startNote_rejects_invalid reference_libm 0 100 initial_voices
              (or_introl (Z.le_refl 0))) as (_ & H2 & _ & H4).
  split; assumption.
Defined.

Lemma startNote_claims_first_free_voice_witness :
  let f := @midiNoteToFrequency reference_libm 69 in
  @startNote reference_libm 69 100 initial_voices
  = (<[0%nat := mkVoiceState true 69 f (velocityToAmplitude 100)
                  (velocityToAmplitude 100) (calculate_wavelength f)
                  (calculate_wavelength f)]> (stopExisting 69 initial_voices), []).
Proof.
  apply (@startNote_claims_first_free_voice reference_libm 69 100
           initial_voices 0%nat);
    [lia | vm_compute; reflexivity | vm_compute; reflexivity].
Defined.

Lemma startNote_frame_witness :
  fst (@startNote reference_libm 69 100 initial_voices) !! 3%nat
  = Some (set_isActive false VoiceState_default).
Proof.
  apply (@startNote_frame reference_libm 69 100 initial_voices 3%nat);
    [reflexivity | vm_compute; discriminate | vm_compute; discriminate].
Defined.

Lemma stopNote_idempotent_witness :
  let voices := fst (@startNote reference_libm 60 100 initial_voices) in
  stopNote 60 (stopNote 60 voices) = stopNote 60 voices.
Proof.
  intros voices. apply (stopNote_idempotent 60 voices). vm_compute. lia.
Defined.

Lemma reachable_invariant_witness :
  let voices := fst (@startNote reference_libm 60 100 initial_voices) in
  length voices = SYNTH_MAX_VOICES /\
  Forall (@voice_ok reference_libm) voices.
Proof.
  intros voices.
  destruct (@reachable_invariant reference_libm voices
              (reach_startNote 60 100 _ reachable_initial_voices))
    as (H1 & _ & H3 & _).
  split; assumption.
Defined.

Lemma square_wave_witness :
  let v := mkVoiceState true 69 (F32.of_Z 440) 12598 12598 50 50 in
  currentOutput (Nat.iter 50 advanceVoice v) = 12598 /\
  currentOutput (Nat.iter 51 advanceVoice v) = -12598.
Proof.
  intros v. split.
  - apply (square_wave v 49); cbn; lia.
  - apply (square_wave v 50); cbn; lia.
Defined.

Lemma i2s_word_halves_witness :
  i2s_word (-2) = 65534 * 2 ^ 16 + 65534.
Proof.
  apply (i2s_word_halves (-2)). unfold in_int16. lia.
Defined.

Lemma audioTaskRunner_silence_witness :
  audioTaskRunner 3 initial_voices = (initial_voices, [0; 0; 0]).
Proof. apply (audioTaskRunner_silence 3 initial_voices). reflexivity. Defined.

Lemma started_note_is_a_square_wave_witness :
  snd (audioTaskRunner 3 (fst (@startNote reference_libm 69 100 initial_voices)))
  = (fun i => if Z.even (Z.of_nat i
                         / calculate_wavelength (@midiNoteToFrequency reference_libm 69))
              then velocityToAmplitude 100 else - velocityToAmplitude 100)
      <$> seq 0 3.
Proof.
  apply (@started_note_is_a_square_wave reference_libm 69 100 3);
    [lia | vm_compute; reflexivity].
Defined.

Lemma mix_within_voice_maximum_witness :
  let voices :=
    fst (@startNote reference_libm 72 100
           (fst (@startNote reference_libm 60 40 initial_voices))) in
  - SYNTH_MAX_NOTE_AMPLITUDE <= snd (audioTaskIteration voices)
  <= SYNTH_MAX_NOTE_AMPLITUDE.
Proof.
  intros voices.
  apply (@mix_within_voice_maximum reference_libm voices
           (reach_startNote 72 100 _
              (reach_startNote 60 40 _ reachable_initial_voices))).
Defined.

End SynthesizerProps.

(** * Further properties of the MIDI player and of the sketch *)

Module MidiPlayerProps.

Import Synthesizer MidiPlayer Props PoolFacts PlayerFacts.

(** ** Reading the song *)

(** A delta-time is read high byte first: the value is [256 * high + low],
    a 16-bit number, and the two bytes [d / 256] and [d mod 256] of a 16-bit
    [d] are read back as [d]. *)
Theorem pgm_read_uint16_big_endian_value (flash : Flash) (flash_address : Z) :
  pgm_read_uint16_big_endian flash flash_address
  = 256 * pgm_read_byte_near flash flash_address
    + pgm_read_byte_near flash (flash_address + 1) /\
  0 <= pgm_read_uint16_big_endian flash flash_address <= 65535 /\
  (forall d rest, 0 <= d <= 65535 ->
     pgm_read_uint16_big_endian
       (flash_of_bytes flash_address (d / 256 :: d mod 256 :: rest))
       flash_address = d).
Proof.
  assert (Hval : forall fl a,
            pgm_read_uint16_big_endian fl a
            = 256 * pgm_read_byte_near fl a + pgm_read_byte_near fl (a + 1)).
  { intros fl a. unfold pgm_read_uint16_big_endian.
    pose proof (pgm_read_byte_near_range fl a).
    pose proof (pgm_read_byte_near_range fl (a + 1)).
    rewrite lor_high_low by lia. unfold wrap_uint16.
    rewrite Z.mod_small; lia. }
  split; [apply Hval|]. split.
  - rewrite Hval.
    pose proof (pgm_read_byte_near_range flash flash_address).
    pose proof (pgm_read_byte_near_range flash (flash_address + 1)). lia.
  - intros d rest Hd. rewrite Hval.
    unfold pgm_read_byte_near, flash_of_bytes, wrap_uint8.
    rewrite Z.ltb_irrefl.
    destruct (flash_address + 1 <? flash_address) eqn:E; [lia|].
    replace (flash_address - flash_address) with 0 by lia.
    replace (flash_address + 1 - flash_address) with 1 by lia.
    cbn [Z.to_nat Pos.to_nat Pos.iter_op nth Nat.add].
    assert (0 <= d / 256 < 256) as Hq.
    { split; [apply Z.div_pos; lia | apply Z.div_lt_upper_bound; lia]. }
    pose proof (Z.mod_pos_bound d 256 ltac:(lia)) as Hr.
    rewrite (Z.mod_small (d / 256)), (Z.mod_small (d mod 256)) by lia.
    pose proof (Z.div_mod d 256 ltac:(lia)). lia.
Qed.

(** ** Tempo *)

Lemma calculateTimingFactors_eq (tempo : f32) (p : MidiPlayer) :
  calculateTimingFactors tempo p
  = (set_millis_per_tick
       (millis_per_tick (fst (calculateTimingFactors tempo MidiPlayer_new))) p,
     []).
Proof.
  unfold calculateTimingFactors.
  change (0 <? TICKS_PER_QUARTER_NOTE) with true. reflexivity.
Qed.

(** [calculateTimingFactors] writes millis-per-tick and nothing else, the
    value depends on the tempo only, and nothing is printed: the branch for
    a tick resolution of zero is never taken. *)
Theorem calculateTimingFactors_frame (tempo : f32) (p : MidiPlayer) :
  snd (calculateTimingFactors tempo p) = [] /\
  fst (calculateTimingFactors tempo p)
  = set_millis_per_tick
      (millis_per_tick (fst (calculateTimingFactors tempo p))) p /\
  millis_per_tick (fst (calculateTimingFactors tempo p))
  = millis_per_tick (fst (calculateTimingFactors tempo MidiPlayer_new)).
Proof. rewrite (calculateTimingFactors_eq tempo p). repeat split. Qed.

(** ** Loading and starting *)

(** The player [loadSong] returns for an accepted record. *)
Lemma loadSong_valid (song : SongInfo) (p : MidiPlayer) :
  midi_data_ptr song <> 0 -> wrap_uint16 (event_count song) <> 0 ->
  let mpt := millis_per_tick (fst (calculateTimingFactors (bpm song) p)) in
  loadSong (Some song) p
  = (true,
     mkMidiPlayer (synth p) (midi_data_ptr song)
       (wrap_uint16 (event_count song)) (bpm song) false 0 0 mpt,
     [SongInfoLoaded (wrap_uint16 (event_count song)) (bpm song) mpt
        (midi_data_ptr song)]).
Proof.
  intros Hp Hc mpt. unfold loadSong.
  cbn [current_song_data_ptr current_event_count current_bpm
       set_current_song_data_ptr set_current_event_count set_current_bpm].
  destruct (Z.eqb_spec (midi_data_ptr song) 0) as [|_]; [done|].
  destruct (Z.eqb_spec (wrap_uint16 (event_count song)) 0) as [|_]; [done|].
  cbn [orb]. rewrite calculateTimingFactors_eq. unfold mpt.
  rewrite (calculateTimingFactors_eq (bpm song) p). reflexivity.
Qed.

Lemma loadSong_invalid (song : SongInfo) (p : MidiPlayer) :
  midi_data_ptr song = 0 \/ wrap_uint16 (event_count song) = 0 ->
  loadSong (Some song) p
  = (false,
     mkMidiPlayer (synth p) 0 0 (bpm song) (is_playing p)
       (current_event_index p) (next_event_time_ms p) (millis_per_tick p),
     [ErrInvalidSongData]).
Proof.
  intros Hbad. unfold loadSong.
  cbn [current_song_data_ptr current_event_count current_bpm
       set_current_song_data_ptr set_current_event_count set_current_bpm].
  assert ((midi_data_ptr song =? 0) || (wrap_uint16 (event_count song) =? 0) = true)
    as ->.
  { apply orb_true_iff. destruct Hbad as [H|H]; [left|right]; lia. }
  reflexivity.
Qed.

Lemma song_valid_dec (song : SongInfo) :
  (midi_data_ptr song <> 0 /\ wrap_uint16 (event_count song) <> 0) \/
  (midi_data_ptr song = 0 \/ wrap_uint16 (event_count song) = 0).
Proof. lia. Qed.

(** [loadSong] accepts a song record exactly when its data pointer is not
    null and its event count is not zero.  It then holds the record's three
    fields and the millis-per-tick of its tempo, playback is stopped and
    rewound, and one line is printed. *)
Theorem loadSong_success (song : SongInfo) (p : MidiPlayer) :
  let r := loadSong (Some song) p in
  let p' := snd (fst r) in
  (fst (fst r) = true <->
   midi_data_ptr song <> 0 /\ wrap_uint16 (event_count song) <> 0) /\
  (fst (fst r) = true ->
   current_song_data_ptr p' = midi_data_ptr song /\
   current_event_count p' = wrap_uint16 (event_count song) /\
   current_bpm p' = bpm song /\
   millis_per_tick p'
   = millis_per_tick (fst (calculateTimingFactors (bpm song) p)) /\
   is_playing p' = false /\ current_event_index p' = 0 /\
   next_event_time_ms p' = 0 /\ synth p' = synth p /\
   snd r = [SongInfoLoaded (current_event_count p') (current_bpm p')
              (millis_per_tick p') (current_song_data_ptr p')]).
Proof.
  destruct (song_valid_dec song) as [[Hp Hc]|Hbad].
  - rewrite (loadSong_valid song p Hp Hc). cbn [fst snd].
    split; [tauto|]. intros _. cbn. repeat split.
  - rewrite (loadSong_invalid song p Hbad). cbn [fst snd].
    split; [split; [discriminate|lia]|discriminate].
Qed.

(** [start] after [loadSong]: when the record was accepted playback begins
    at event 0, with the first deadline the first delta-time after the time
    of the call; when it was rejected and the player was not playing, [start]
    refuses and changes nothing. *)
Theorem start_after_loadSong (song : SongInfo) (p : MidiPlayer)
    (millis : Z) (flash : Flash) :
  let r := loadSong (Some song) p in
  let p' := snd (fst r) in
  (fst (fst r) = true ->
   let p'' := fst (start millis flash p') in
   snd (start millis flash p') = [MsgStartingPlayback] /\
   is_playing p'' = true /\ current_event_index p'' = 0 /\
   next_event_time_ms p''
   = wrap_uint32 (millis + convertTicksToMillis (event_delta flash p' 0) p') /\
   current_song_data_ptr p'' = midi_data_ptr song /\
   current_event_count p'' = wrap_uint16 (event_count song)) /\
  (fst (fst r) = false -> is_playing p = false ->
   start millis flash p' = (p', [ErrCannotStartPlayback])).
Proof.
  destruct (song_valid_dec song) as [[Hp Hc]|Hbad].
  - rewrite (loadSong_valid song p Hp Hc). cbn [fst snd].
    split; [|discriminate]. intros _.
    unfold start. cbn [is_playing current_event_count current_song_data_ptr].
    destruct (Z.eqb_spec (wrap_uint16 (event_count song)) 0) as [|_]; [done|].
    destruct (Z.eqb_spec (midi_data_ptr song) 0) as [|_]; [done|].
    cbn. unfold event_delta. cbn. rewrite Z.add_0_r.
    repeat split; reflexivity.
  - rewrite (loadSong_invalid song p Hbad). cbn [fst snd].
    split; [discriminate|]. intros _ Hidle.
    unfold start. cbn. rewrite Hidle. reflexivity.
Qed.

(** ** Stopping and polling *)

Section WithLibm.
Context {libm : Libm}.

(** [stop] clears the playing flag and nothing else; a second [stop] does
    nothing and prints nothing; and [update] on a stopped player returns
    [false] without touching the player or the voice table. *)
Theorem stop_then_update (p : MidiPlayer) (now : Z) (flash : Flash)
    (voices : list VoiceState) :
  let p' := fst (stop p) in
  p' = set_is_playing false p /\
  stop p' = (p', []) /\
  update now flash p' voices = (false, p', voices, []) /\
  (snd (stop p) = [MsgStoppingPlayback] <-> is_playing p = true).
Proof.
  unfold stop. destruct p as [s ptr cnt tempo playing idx next mpt].
  destruct playing; cbn; repeat split; try reflexivity; try discriminate.
Qed.

(** When [update] does not process an event: a player that is not playing
    answers [false]; a playing one whose deadline lies ahead answers [true];
    one whose deadline has passed with no event left stops, prints the end
    of playback and answers [false].  In none of these cases is the voice
    table changed, and in the first two the player is unchanged as well.
    The voice table is changed only by a due note-on or note-off event of a
    playing player that is bound to a synthesizer. *)
Theorem update_without_event (now : Z) (flash : Flash) (p : MidiPlayer)
    (voices : list VoiceState) :
  (is_playing p = false -> update now flash p voices = (false, p, voices, [])) /\
  (is_playing p = true -> now < next_event_time_ms p ->
   update now flash p voices = (true, p, voices, [])) /\
  (is_playing p = true -> next_event_time_ms p <= now ->
   current_event_count p <= current_event_index p ->
   update now flash p voices
   = (false, set_is_playing false p, voices, [MsgPlaybackFinished])) /\
  (snd (fst (update now flash p voices)) <> voices ->
   is_playing p = true /\ next_event_time_ms p <= now /\
   current_event_index p < current_event_count p /\ synth p = true /\
   (event_kind flash p = 0 \/ event_kind flash p = 1)).
Proof.
  unfold update. split; [|split; [|split]].
  - intros ->. reflexivity.
  - intros -> Hnot. cbn [negb].
    destruct (next_event_time_ms p <=? now) eqn:E; [lia|reflexivity].
  - intros -> Hdue Hend. cbn [negb].
    destruct (next_event_time_ms p <=? now) eqn:E; [|lia].
    destruct (current_event_count p <=? current_event_index p) eqn:E'; [|lia].
    reflexivity.
  - destruct (is_playing p); cbn [negb fst snd]; [|done].
    destruct (Z.leb_spec (next_event_time_ms p) now); cbn [fst snd]; [|done].
    destruct (Z.leb_spec (current_event_count p) (current_event_index p));
      cbn [fst snd]; [done|].
    destruct (processCurrentEvent flash p voices) as [vs msgs] eqn:Hproc.
    cbn [fst snd]. intros Hne.
    unfold processCurrentEvent in Hproc.
    unfold event_kind, event_address.
    destruct (synth p); cbn [negb] in Hproc; [|by injection Hproc as <- _].
    destruct (Z.eqb_spec (pgm_read_byte_near flash
                (current_song_data_ptr p
                 + current_event_index p * BYTES_PER_EVENT + 2)) 1) as [Hk1|Hk1];
      [repeat split; try assumption; by right|].
    destruct (Z.eqb_spec (pgm_read_byte_near flash
                (current_song_data_ptr p
                 + current_event_index p * BYTES_PER_EVENT + 2)) 0) as [Hk0|Hk0];
      [repeat split; try assumption; by left|].
    by injection Hproc as <- _.
Qed.

Lemma scheduleNextEvent_frame now flash p :
  scheduleNextEvent now flash p
  = set_next_event_time_ms (next_event_time_ms (scheduleNextEvent now flash p)) p.
Proof.
  unfold scheduleNextEvent.
  destruct (current_event_index p <? current_event_count p);
    destruct p; reflexivity.
Qed.

(** [update] never changes the loaded song: the data pointer, the event
    count, the tempo, millis-per-tick and the synthesizer binding are as
    before.  The event index stays or advances by one, and an index between
    0 and an event count of at most 65535 stays in that range. *)
Theorem update_keeps_song (now : Z) (flash : Flash) (p : MidiPlayer)
    (voices : list VoiceState) :
  let p' := snd (fst (fst (update now flash p voices))) in
  current_song_data_ptr p' = current_song_data_ptr p /\
  current_event_count p' = current_event_count p /\
  current_bpm p' = current_bpm p /\
  millis_per_tick p' = millis_per_tick p /\
  synth p' = synth p /\
  (0 <= current_event_index p <= current_event_count p ->
   current_event_count p <= 65535 ->
   current_event_index p <= current_event_index p' <= current_event_index p + 1 /\
   current_event_index p' <= current_event_count p).
Proof.
  unfold update.
  destruct (is_playing p); cbn [negb]; [|cbn; repeat split; lia].
  destruct (next_event_time_ms p <=? now); [|cbn; repeat split; lia].
  destruct (current_event_count p <=? current_event_index p) eqn:E;
    [cbn; repeat split; lia|].
  destruct (processCurrentEvent flash p voices) as [vs msgs].
  cbn [fst snd]. rewrite scheduleNextEvent_frame. cbn.
  repeat split; try reflexivity;
    unfold wrap_uint16; rewrite Z.mod_small by lia; lia.
Qed.

(** *** Playback and the voice pool *)

Lemma processCurrentEvent_reachable flash p voices :
  reachable voices -> reachable (fst (processCurrentEvent flash p voices)).
Proof.
  intros Hr. unfold processCurrentEvent.
  destruct (negb (synth p)); [exact Hr|].
  destruct (_ =? 1).
  - destruct (0 <? _); [by apply reach_startNote|].
    cbn [fst]. by apply reach_stopNote.
  - destruct (_ =? 0); [|exact Hr]. cbn [fst]. by apply reach_stopNote.
Qed.

Lemma update_reachable now flash p voices :
  reachable voices ->
  reachable (snd (fst (update now flash p voices))).
Proof.
  intros Hr. unfold update.
  destruct (negb (is_playing p)); [exact Hr|].
  destruct (next_event_time_ms p <=? now); [|exact Hr].
  destruct (current_event_count p <=? current_event_index p); [exact Hr|].
  pose proof (processCurrentEvent_reachable flash p voices Hr) as Hr'.
  destruct (processCurrentEvent flash p voices) as [vs msgs]. exact Hr'.
Qed.

(** The player drives the synthesizer through note-on and note-off only, so
    whatever the song bytes and the polling times, playback keeps the voice
    table reachable: after any sequence of [update] calls there is at most
    one active voice per note, every active voice is well formed, and the
    table has its [SYNTH_MAX_VOICES] slots. *)
Theorem playback_keeps_pool_invariant (times : list Z) (flash : Flash)
    (p : MidiPlayer) (voices : list VoiceState) :
  reachable voices ->
  let voices' := snd (updates times flash p voices) in
  reachable voices' /\
  (forall n, (activeVoicesFor n voices' <= 1)%nat) /\
  Forall voice_ok voices' /\
  length voices' = SYNTH_MAX_VOICES.
Proof.
  intros Hr voices'.
  assert (reachable voices') as Hr'.
  { unfold voices'. clear voices'. revert p voices Hr.
    induction times as [|now times IH]; intros p voices Hr; [exact Hr|].
    cbn [updates].
    pose proof (update_reachable now flash p voices Hr) as Hu.
    destruct (update now flash p voices) as [[[b p1] vs] msgs].
    cbn [fst snd] in Hu. by apply IH. }
  split; [exact Hr'|]. split; [by apply reachable_unique|].
  split; [by apply reachable_ok | by apply reachable_length].
Qed.

End WithLibm.

(** ** Delta-times *)

(** A delta-time of zero ticks is zero milliseconds at every finite
    millis-per-tick, and a conversion result is always a 32-bit value. *)
Theorem convertTicksToMillis_zero (p : MidiPlayer) (ticks : Z) :
  0 <= convertTicksToMillis ticks p < 2 ^ 32 /\
  (F32.is_finite (millis_per_tick p) = true -> convertTicksToMillis 0 p = 0).
Proof.
  split.
  - unfold convertTicksToMillis, F32.to_uint32, wrap_uint32.
    apply Z.mod_pos_bound. lia.
  - unfold convertTicksToMillis.
    destruct (millis_per_tick p) as [s|s| |s m e]; try discriminate;
      intros _; destruct s; reflexivity.
Qed.

(** ** The end of the song *)

Section WithLibm.
Context {libm : Libm}.

(** After the last event has been processed the deadline is left as it
    was, and the next poll, at any time not before this one, ends playback:
    it stops the player, prints the end of playback, returns [false] and
    leaves the voice table alone. *)
Theorem last_event_then_finish (now now' : Z) (flash : Flash) (p : MidiPlayer)
    (voices : list VoiceState) :
  is_playing p = true -> next_event_time_ms p <= now ->
  0 <= current_event_index p ->
  current_event_index p + 1 = current_event_count p ->
  current_event_count p <= 65535 ->
  now <= now' ->
  let r := update now flash p voices in
  let p' := snd (fst (fst r)) in
  let voices' := snd (fst r) in
  fst (fst (fst r)) = true /\
  next_event_time_ms p' = next_event_time_ms p /\
  current_event_index p' = current_event_count p /\
  update now' flash p' voices'
  = (false, set_is_playing false p', voices', [MsgPlaybackFinished]).
Proof.
  intros Hplay Hdue Hidx Hlast Hcnt Hlater r p' voices'.
  subst voices' p' r.
  rewrite (update_fires now flash p voices Hplay Hdue ltac:(lia)).
  cbn zeta. cbn [fst snd].
  assert (wrap_uint16 (current_event_index p + 1) = current_event_count p)
    as Hw by (unfold wrap_uint16; rewrite Z.mod_small; lia).
  rewrite Hw.
  assert (scheduleNextEvent now flash
            (set_current_event_index (current_event_count p) p)
          = set_current_event_index (current_event_count p) p) as ->.
  { unfold scheduleNextEvent. cbn.
    destruct (Z.ltb_spec (current_event_count p) (current_event_count p));
      [lia|reflexivity]. }
  cbn. rewrite Hplay. repeat split.
  unfold update. cbn. rewrite Hplay. cbn.
  destruct (Z.leb_spec (next_event_time_ms p) now'); [|lia].
  rewrite Z.leb_refl. reflexivity.
Qed.

End WithLibm.

(** ** The sketch *)

(** When [setup] runs to its end (it does not halt), every platform call of
    the synthesizer's initialisation succeeded, the voice table is the
    initialised one with no active voice, the selected song exists and was
    accepted, and the player is bound to the synthesizer and playing from
    event 0. *)
Theorem setup_leaves_player_playing (platform : Platform)
    (song_list : list SongInfo) (selected_song_index : nat) (millis : Z)
    (flash : Flash) (g g' : Sketch.Globals) (msgs : list Sketch.SketchMsg) :
  Sketch.setup platform song_list selected_song_index millis flash g
  = (Some g', msgs) ->
  (mutex_created platform = true /\ driver_installed platform = true /\
   pins_set platform = true /\ task_created platform = true) /\
  Sketch.voices g' = init_voices (Sketch.voices g) /\
  activeVoices (Sketch.voices g') = 0%nat /\
  exists song,
    song_list !! selected_song_index = Some song /\
    midi_data_ptr song <> 0 /\ wrap_uint16 (event_count song) <> 0 /\
    is_playing (Sketch.player g') = true /\
    synth (Sketch.player g') = true /\
    current_event_index (Sketch.player g') = 0 /\
    current_song_data_ptr (Sketch.player g') = midi_data_ptr song /\
    current_event_count (Sketch.player g') = wrap_uint16 (event_count song).
Proof.
  unfold Sketch.setup, Synthesizer.init. cbv zeta.
  destruct (mutex_created platform); cbn [negb]; [|discriminate].
  destruct (driver_installed platform); cbn [negb]; [|discriminate].
  destruct (pins_set platform); cbn [negb]; [|discriminate].
  destruct (task_created platform); cbn [negb]; [|discriminate].
  destruct (length song_list =? 0)%nat; [discriminate|].
  destruct (song_list !! selected_song_index) as [song|] eqn:Hsel;
    [|discriminate].
  unfold loadSong.
  cbn [current_song_data_ptr current_event_count current_bpm
       set_current_song_data_ptr set_current_event_count set_current_bpm].
  destruct (Z.eqb_spec (midi_data_ptr song) 0) as [Hp|Hp];
    [discriminate|].
  destruct (Z.eqb_spec (wrap_uint16 (event_count song)) 0) as [Hc|Hc];
    [discriminate|].
  cbn [orb].
  destruct (calculateTimingFactors _ _) as [p1 ms] eqn:Hctf.
  assert (p1 = set_millis_per_tick (millis_per_tick p1)
                 (set_current_bpm (bpm song)
                    (set_current_event_count (wrap_uint16 (event_count song))
                       (set_current_song_data_ptr (midi_data_ptr song)
                          (MidiPlayer.init (Sketch.player g)))))) as Hp1.
  { unfold calculateTimingFactors in Hctf.
    change (0 <? TICKS_PER_QUARTER_NOTE) with true in Hctf.
    cbv iota in Hctf. injection Hctf as <- _. reflexivity. }
  cbn [negb]. unfold start. rewrite Hp1. cbn.
  destruct (Z.eqb_spec (wrap_uint16 (event_count song)) 0) as [|_]; [done|].
  destruct (Z.eqb_spec (midi_data_ptr song) 0) as [|_]; [done|].
  cbn. intros [= <- _]. cbn.
  split; [done|]. split; [reflexivity|]. split.
  - unfold activeVoices, init_voices. apply count_zero_Forall.
    apply Forall_fmap, Forall_forall. intros v _ Ha. discriminate Ha.
  - exists song. repeat split; try reflexivity; assumption.
Qed.

(** A pass of [loop] goes on (it does not enter the halt loop) only while
    the player is playing: it was playing before the pass and is playing
    after it. *)
Theorem loop_goes_on_while_playing {libm : Libm} (millis : Z) (flash : Flash)
    (g g' : Sketch.Globals) (msgs : list Sketch.SketchMsg) :
  Sketch.loop millis flash g = (Some g', msgs) ->
  is_playing (Sketch.player g) = true /\
  is_playing (Sketch.player g') = true /\
  msgs = [] /\
  update millis flash (Sketch.player g) (Sketch.voices g)
  = (true, Sketch.player g', Sketch.voices g',
     snd (update millis flash (Sketch.player g) (Sketch.voices g))).
Proof.
  unfold Sketch.loop. intros H.
  destruct (is_playing (Sketch.player g)) eqn:Hplay; cycle 1.
  { unfold update in H. rewrite Hplay in H. discriminate H. }
  destruct (update millis flash (Sketch.player g) (Sketch.voices g))
    as [[[b p'] vs] ms] eqn:Hu.
  destruct b; cbn [negb] in H; [|discriminate H].
  injection H as <- <-. cbn [Sketch.player Sketch.voices snd].
  split; [reflexivity|]. split; [|split; reflexivity].
  unfold update in Hu. rewrite Hplay in Hu. cbn [negb] in Hu.
  destruct (next_event_time_ms (Sketch.player g) <=? millis).
  - destruct (current_event_count (Sketch.player g)
              <=? current_event_index (Sketch.player g)); [discriminate Hu|].
    destruct (processCurrentEvent flash (Sketch.player g) (Sketch.voices g))
      as [vs' ms'].
    injection Hu; intros; subst. assumption.
  - injection Hu; intros; subst. exact Hplay.
Qed.

(** ** Instances *)

Lemma playback_keeps_pool_invariant_witness :
  let voices' := snd (@updates reference_libm [1000; 1200; 1500; 2000]
                        flash_unknown_kind demo_player initial_voices) in
  forall_from (fun n => (activeVoicesFor n voices' <=? 1)%nat) 0 (Z.to_nat 128)
  = true.
Proof.
  intros voices'.
  destruct (@playback_keeps_pool_invariant reference_libm
              [1000; 1200; 1500; 2000] flash_unknown_kind demo_player
              initial_voices reachable_initial_voices) as (_ & Hone & _).
  fold voices' in Hone.
  assert (forall k lo, forall_from (fun n => (activeVoicesFor n voices' <=? 1)%nat)
                         lo k = true) as H.
  { induction k as [|k IH]; intros lo; [reflexivity|].
    cbn [forall_from]. rewrite IH, andb_true_r. apply Nat.leb_le, Hone. }
  apply H.
Defined.

Lemma setup_leaves_player_playing_witness :
  exists g',
    fst (Sketch.setup (mkPlatform true true true true)
           [mkSongInfo 4096 2 (F32.of_Z 120)] 0 1500 flash_note_off
           (Sketch.mkGlobals (replicate SYNTH_MAX_VOICES VoiceState_default)
              MidiPlayer_new)) = Some g' /\
    is_playing (Sketch.player g') = true /\
    activeVoices (Sketch.voices g') = 0%nat.
Proof.
  pose proof (setup_leaves_player_playing (mkPlatform true true true true)
                [mkSongInfo 4096 2 (F32.of_Z 120)] 0 1500 flash_note_off
                (Sketch.mkGlobals (replicate SYNTH_MAX_VOICES VoiceState_default)
                   MidiPlayer_new)) as T.
  destruct (Sketch.setup _ _ _ _ _ _) as [og msgs] eqn:E.
  vm_compute in E. injection E as <- <-.
  destruct (T _ _ eq_refl) as (_ & _ & Hnone & song & _ & _ & _ & Hplay & _).
  eexists. split; [reflexivity|]. split; assumption.
Defined.

Lemma loop_goes_on_while_playing_witness :
  exists g',
    fst (@Sketch.loop reference_libm 1000 flash_unknown_kind
           (Sketch.mkGlobals full_pool demo_player)) = Some g' /\
    is_playing (Sketch.player g') = true.
Proof.
  pose proof (@loop_goes_on_while_playing reference_libm 1000
                flash_unknown_kind (Sketch.mkGlobals full_pool demo_player))
    as T.
  destruct (Sketch.loop _ _ _) as [og msgs] eqn:E.
  vm_compute in E. injection E as <- <-.
  destruct (T _ _ eq_refl) as (_ & Hplay & _).
  eexists. split; [reflexivity | exact Hplay].
Defined.

Lemma last_event_then_finish_witness :
  let p := set_current_event_index 1 demo_player in
  let r := @update reference_libm 1000 flash_unknown_kind p full_pool in
  @update reference_libm 1001 flash_unknown_kind (snd (fst (fst r))) (snd (fst r))
  = (false, set_is_playing false (snd (fst (fst r))), snd (fst r),
     [MsgPlaybackFinished]).
Proof.
  intros p r.
  apply (@last_event_then_finish reference_libm 1000 1001 flash_unknown_kind p
           full_pool);
    vm_compute; (reflexivity || discriminate).
Defined.

End MidiPlayerProps.
